(** * CastReferencePlayer: a shallow embedding of [player.js]

    The receiver's player object is a record of its private fields, the
    browser facilities it relies on (timers, transition-end listeners,
    image preloads) are explicit queues, and every call that leaves the
    player (receiver manager, media manager, media element, player
    library) is appended to a trace.  Handlers are total functions on
    that record. *)

From Stdlib Require Import Ascii QArith Qcanon Qround.
From Stdlib Require String.
From stdpp Require Import gmap strings list pretty.

(** ** JavaScript string primitives used by the player

    A string is the sequence of its code units, and the strings of this
    development are those whose code units are below 256: the unit [n]
    is the character with code point [n] (the ASCII characters, and from
    128 on those of the Latin-1 supplement; it is written ["n"%char] in
    decimal when it has no ASCII spelling).  Strings with larger code
    units have no counterpart here. *)
Module Js.

(** [s.split(sep)] for a one-character separator: always at least one part. *)
Fixpoint split (sep : ascii) (s : string) : list string :=
  match s with
  | EmptyString => [EmptyString]
  | String c s' =>
      if decide (c = sep) then EmptyString :: split sep s'
      else match split sep s' with
           | p :: ps => String c p :: ps
           | [] => [String c EmptyString]
           end
  end.

(** The lower-case mapping of Unicode on the code points below 256: the
    capital letters are A to Z (65 to 90) and the Latin-1 capitals from
    192 to 222 without the multiplication sign 215, each 32 below its
    small letter; every other character is mapped to itself. *)
Definition lowerChar (c : ascii) : ascii :=
  let n := nat_of_ascii c in
  if (65 <=? n)%nat && (n <=? 90)%nat
     || (192 <=? n)%nat && (n <=? 214)%nat
     || (216 <=? n)%nat && (n <=? 222)%nat
  then ascii_of_nat (n + 32) else c.

(** [s.toLowerCase()]: on code points below 256 the mapping is character
    by character and has no context rule. *)
Fixpoint toLowerCase (s : string) : string :=
  match s with
  | EmptyString => EmptyString
  | String c s' => String (lowerChar c) (toLowerCase s')
  end.

(** [s.indexOf(needle)]: position of the first occurrence, or -1. *)
Definition indexOf (s needle : string) : Z :=
  match String.index 0 needle s with
  | Some n => Z.of_nat n
  | None => (-1)%Z
  end.

(** Truthiness of a string-or-undefined value. *)
Definition truthy (v : option string) : bool :=
  match v with
  | Some (String _ _) => true
  | _ => false
  end.

(** [v || ''] *)
Definition orEmpty (v : option string) : string :=
  match v with
  | Some (String c s) => String c s
  | _ => ""
  end.

(** The character does not occur in the string. *)
Fixpoint lacks (c : ascii) (s : string) : bool :=
  match s with
  | EmptyString => true
  | String d s' => negb (bool_decide (d = c)) && lacks c s'
  end.

(** [needle] occurs somewhere in [s]. *)
Definition includes (s needle : string) : Prop :=
  ∃ pre post, s = pre +:+ needle +:+ post.

End Js.

(** ** Enumerations and constants of [sampleplayer] *)

(** [sampleplayer.Type] *)
Inductive Type_ := VIDEO | UNKNOWN.

(** [sampleplayer.State] *)
Inductive State :=
  LAUNCHING | LOADING | BUFFERING | PLAYING | PAUSED | STALLED | DONE | IDLE.

(** The three [cast.player.api.Create*StreamingProtocol] functions that
    [protocolFunc] can hold; [None] is its initial [null], for which the
    media element plays the content itself. *)
Inductive ProtocolFunc :=
  CreateHlsStreamingProtocol
| CreateDashStreamingProtocol
| CreateSmoothStreamingProtocol.

Global Instance Type_eq_dec : EqDecision Type_.
Proof. solve_decision. Defined.
Global Instance State_eq_dec : EqDecision State.
Proof. solve_decision. Defined.
Global Instance ProtocolFunc_eq_dec : EqDecision ProtocolFunc.
Proof. solve_decision. Defined.

(** [sampleplayer.IDLE_TIMEOUT[state.toUpperCase()]], in milliseconds;
    [None] is the [undefined] of a missing key. *)
Definition IDLE_TIMEOUT (state : State) : option Z :=
  match state with
  | LAUNCHING => Some (1000 * 60 * 5)%Z
  | LOADING => Some (1000 * 60 * 5)%Z
  | PAUSED => Some (1000 * 60 * 20)%Z
  | STALLED => Some (30 * 1000)%Z
  | DONE => Some (1000 * 60 * 5)%Z
  | IDLE => Some (1000 * 60 * 5)%Z
  | BUFFERING | PLAYING => None
  end.

Definition PUMP_POLLING_INTERVAL_ : Z := 200.
Definition INITIAL_PUMP_DURATION_ : Qc := Qc_of_Z 5.
Definition MEDIA_INFO_DURATION_ : Z := 2 * 1000.

(** ** Media descriptions *)

Record Metadata := {
  title : option string;
  subtitle : option string;
  images : list string
}.

Inductive StreamType := BUFFERED | LIVE.

Global Instance StreamType_eq_dec : EqDecision StreamType.
Proof. solve_decision. Defined.

(** [cast.receiver.media.MediaInformation]; an absent field is [None]. *)
Record MediaInformation := {
  contentId : option string;
  contentType : option string;
  streamType : option StreamType;
  metadata : option Metadata
}.

(** The [{}] that [info.message.media || {}] falls back to. *)
Definition emptyMedia : MediaInformation :=
  {| contentId := None; contentType := None; streamType := None;
     metadata := None |}.

(** ** Pure helpers *)

(** [sampleplayer.getExtension_] *)
Definition getExtension_ (url : string) : string :=
  let parts := Js.split "."%char url in
  if decide (length parts = 1%nat) then ""
  else if decide (parts !! 0%nat = Some "" ∧ length parts = 2%nat) then ""
  else Js.toLowerCase (default "" (last parts)).

(** The chain of tests of [loadVideo_] that assigns [protocolFunc], on the
    path of the URL and the content type. *)
Definition protocolFunc (path type : string) : option ProtocolFunc :=
  if decide (getExtension_ path = "m3u8") then Some CreateHlsStreamingProtocol
  else if decide (type = "application/x-mpegurl") then Some CreateHlsStreamingProtocol
  else if decide (type = "application/vnd.apple.mpegurl") then Some CreateHlsStreamingProtocol
  else if decide (getExtension_ path = "mpd") then Some CreateDashStreamingProtocol
  else if decide (type = "application/dash+xml") then Some CreateDashStreamingProtocol
  else if decide (Js.indexOf path ".ism" > -1)%Z then Some CreateSmoothStreamingProtocol
  else if decide (type = "application/vnd.ms-sstr+xml") then Some CreateSmoothStreamingProtocol
  else None.

Section WithPath.

(** [sampleplayer.getPath_]: the [pathname] the browser's anchor element
    computes for a URL. *)
Variable getPath_ : string → string.

(** [sampleplayer.getType_] *)
Definition getType_ (media : MediaInformation) : Type_ :=
  let contentId := Js.orEmpty (contentId media) in
  let contentType := Js.orEmpty (contentType media) in
  let contentUrlPath := getPath_ contentId in
  if decide (Js.indexOf contentType "video/" = 0%Z) then VIDEO
  else if decide (Js.indexOf contentType "application/x-mpegurl" = 0%Z) then VIDEO
  else if decide (Js.indexOf contentType "application/vnd.apple.mpegurl" = 0%Z) then VIDEO
  else if decide (Js.indexOf contentType "application/dash+xml" = 0%Z) then VIDEO
  else if decide (Js.indexOf contentType "application/vnd.ms-sstr+xml" = 0%Z) then VIDEO
  else if decide (getExtension_ contentUrlPath = "m3u8") then VIDEO
  else if decide (getExtension_ contentUrlPath = "mp4") then VIDEO
  else if decide (getExtension_ contentUrlPath = "ogv") then VIDEO
  else if decide (getExtension_ contentUrlPath = "webm") then VIDEO
  else if decide (getExtension_ contentUrlPath = "m3u8") then VIDEO
  else if decide (getExtension_ contentUrlPath = "mpd") then VIDEO
  else UNKNOWN.

(** The protocol [loadVideo_] picks for a media description. *)
Definition selectProtocol (media : MediaInformation) : option ProtocolFunc :=
  let url := Js.orEmpty (contentId media) in
  let type := Js.orEmpty (contentType media) in
  let path := getPath_ url in
  protocolFunc path type.

End WithPath.

(** ** JavaScript numbers read from the media element

    A double is NaN, an infinity or a finite value, and a finite value
    is the rational it denotes (the two zeros are one: no operation of
    the player tells them apart).  Comparisons of doubles are exact; the
    one subtraction the player performs rounds the exact difference to
    the nearest double. *)
Inductive number := NaN | NegInf | Fin (q : Qc) | PosInf.

(** Rounding of a rational to the nearest double (binary64: 53
    significant bits, least exponent of the last place -1074, largest
    double just below [2 ^ 1024]), ties to the even significand.  The
    integers [n] and [d] are the numerator and the denominator of a
    positive rational. *)
Module Double.

(** [n / d] divided by [2 ^ e], as a fraction of integers. *)
Definition scaled (n d e : Z) : Z * Z :=
  if (0 <=? e)%Z then (n, d * 2 ^ e)%Z else (n * 2 ^ (- e), d)%Z.

(** [2 ^ k <= n / d] *)
Definition atLeastPow2 (k n d : Z) : bool :=
  let '(N, D) := scaled n d k in (D <=? N)%Z.

(** The integer [k] with [2 ^ k <= n / d < 2 ^ (k + 1)]. *)
Definition ilog2 (n d : Z) : Z :=
  let k := (Z.log2 n - Z.log2 d)%Z in
  if atLeastPow2 k n d then k else (k - 1)%Z.

(** The integer nearest to [N / D], the even one of two that are
    equally near. *)
Definition rne (N D : Z) : Z :=
  let q := (N / D)%Z in
  match (2 * (N mod D) ?= D)%Z with
  | Lt => q
  | Gt => (q + 1)%Z
  | Eq => if Z.even q then q else (q + 1)%Z
  end.

(** The exponent of the last place of the doubles around [n / d]: 53
    significant bits, and no exponent below that of the subnormals. *)
Definition exponent (n d : Z) : Z := Z.max (ilog2 n d - 52) (-1074).

(** [m * 2 ^ e] *)
Definition value (m e : Z) : Qc :=
  Q2Qc (if (0 <=? e)%Z then inject_Z (m * 2 ^ e)
        else Qmake m (Z.to_pos (2 ^ (- e)))).

(** The double nearest to [n / d], or [None] for infinity: what is at
    or above [2 ^ 1024] after rounding overflows. *)
Definition roundPos (n d : Z) : option Qc :=
  let e := exponent n d in
  let '(N, D) := scaled n d e in
  let m := rne N D in
  if (2 ^ 1024 <=? m * 2 ^ e)%Z then None else Some (value m e).

(** The double nearest to the rational [q]. *)
Definition round (q : Qc) : number :=
  match Qnum q with
  | Z0 => Fin q
  | Zpos n =>
      match roundPos (Zpos n) (Zpos (Qden q)) with
      | Some r => Fin r
      | None => PosInf
      end
  | Zneg n =>
      match roundPos (Zpos n) (Zpos (Qden q)) with
      | Some r => Fin (- r)
      | None => NegInf
      end
  end.

End Double.

Module Num.

Definition isNaN (a : number) : bool :=
  match a with NaN => true | _ => false end.

(** [a < b] *)
Definition lt (a b : number) : bool :=
  match a, b with
  | NaN, _ | _, NaN => false
  | NegInf, NegInf => false
  | NegInf, _ => true
  | Fin _, NegInf => false
  | Fin x, Fin y => match (x ?= y)%Qc with Lt => true | _ => false end
  | Fin _, PosInf => true
  | PosInf, _ => false
  end.

(** [a === b] *)
Definition eq (a b : number) : bool :=
  match a, b with
  | NegInf, NegInf | PosInf, PosInf => true
  | Fin x, Fin y => match (x ?= y)%Qc with Eq => true | _ => false end
  | _, _ => false
  end.

(** [a > b], [a <= b], [a >= b] *)
Definition gt (a b : number) : bool := lt b a.
Definition le (a b : number) : bool := lt a b || eq a b.
Definition ge (a b : number) : bool := le b a.

(** [a - b]: the double nearest to the exact difference. *)
Definition sub (a b : number) : number :=
  match a, b with
  | NaN, _ | _, NaN => NaN
  | PosInf, PosInf | NegInf, NegInf => NaN
  | PosInf, _ | _, NegInf => PosInf
  | NegInf, _ | _, PosInf => NegInf
  | Fin x, Fin y => Double.round (x - y)%Qc
  end.

Definition ofZ (z : Z) : number := Fin (Qc_of_Z z).

End Num.

(** ** Messages and payloads *)

(** [info.message] / [event.data]: the fields of a request the player reads. *)
Record RequestData := {
  media : option MediaInformation;
  autoplay : option bool
}.

(** [cast.receiver.MediaManager.LoadInfo] *)
Record LoadInfo := {
  message : RequestData;
  senderId : string
}.

Inductive EventType := LOAD | STOP.

(** [cast.receiver.MediaManager.Event] *)
Record ManagerEvent := {
  etype : EventType;
  data : RequestData;
  eventSenderId : string
}.

(** [cast.receiver.system.DisconnectReason] *)
Module DisconnectReason.
Inductive t := REQUESTED_BY_SENDER | ERROR | UNKNOWN.
End DisconnectReason.

Global Instance DisconnectReason_eq_dec : EqDecision DisconnectReason.t.
Proof. solve_decision. Defined.

(** [cast.receiver.CastReceiverManager.SenderDisconnectedEvent]: the
    field the player reads. *)
Record SenderDisconnectedEvent := {
  reason : DisconnectReason.t
}.

(** What [onError_] is handed: an error reported from outside, or the
    [new Event('error')] that [host.onError] makes. *)
Inductive ErrorObject :=
| Reported (detail : string)
| NewErrorEvent.

(** [new cast.player.api.Player(host)] loaded with [protocolFunc(host)]. *)
Record Player := {
  hostUrl : string;
  protocol : ProtocolFunc
}.

(** ** Calls that leave the player *)
Inductive Call :=
| ElementSetState (state : State)          (* element_.setAttribute('state', _) *)
| ElementSetType (type : Type_) (isLiveStream : bool)
| SetApplicationState (s : string)         (* receiverManager_ *)
| ReceiverStop                             (* receiverManager_.stop() *)
| BroadcastStatus (includeMedia : bool)    (* mediaManager_ *)
| OnLoadOrig (event : ManagerEvent)
| OnStopOrig (event : ManagerEvent)
| OnLoadMetadataErrorOrig (info : LoadInfo)
| OnErrorOrig (error : ErrorObject)
| PlayerUnload                             (* player_.unload() *)
| PlayerLoad (p : Player)                  (* player_.load(protocolFunc(host)) *)
| MediaPlay                                (* mediaElement_.play() *)
| MediaPause                               (* mediaElement_.pause() *)
| LoadMetadata (media : MediaInformation). (* loadMetadata_ rendering *)

(** ** Deferred work *)

(** The functions the player hands to [setTimeout]. *)
Inductive TimerCallback :=
| IdleCallback                                   (* setIdleTimeout_ *)
| DelayCallback (state : State) (crossfade : bool) (* setState_, opt_delay *)
| MediaInfoCallback (totalTime : number)         (* onLoadSuccess_ *)
| AutoPlayHandler.                               (* playerAutoPlayHandler_ *)

Record Timer := {
  delay : Z;
  callback : TimerCallback
}.

(** The [something] functions handed to [transition_]; each runs when the
    fade-out it waits for ends. *)
Inductive Something :=
| SetStateFn (state : State)             (* setState_, crossfade *)
| ErrorFn (error : ErrorObject)          (* onError_ *)
| LoadMetadataErrorFn (event : LoadInfo) (* onLoadMetadataError_ *)
| StopFn (event : ManagerEvent)          (* onStop_ *)
| LoadingFn (media : MediaInformation).  (* load *)

(** What a handler reads from the media element, the player library and
    the media manager while it runs. *)
Record Env := {
  currentTime : number;
  duration : number;
  buffered : list (number * number);
  readyState : nat;
  underflow : bool;
  mediaInformation : option MediaInformation
}.

Definition HAVE_ENOUGH_DATA : nat := 4.

(** ** The player object

    Private fields keep their names.  [timers] are the pending
    [setTimeout] calls of the window, whose ids are integers greater
    than zero handed out in increasing order; [transitionEnd] are the
    fade-out listeners waiting on the element; [imageLoads] the artwork
    preloads in flight; [bufferingListeners] counts the [onBuffering_]
    listeners on the media element; [calls] is the trace.  Writes to
    texts, styles and classes of the page are not recorded. *)
Record CastPlayer := {
  type_ : Type_;
  state_ : State;
  idleTimerId_ : option positive;
  delay_ : option positive;
  playerAutoPlay_ : bool;
  playerAutoPlayTimerId_ : option positive;
  player_ : option Player;
  mediaManager_ : bool;
  applicationState_ : option string;
  bufferingListeners : nat;
  timers : gmap positive Timer;
  nextTimerId : positive;
  transitionEnd : list Something;
  imageLoads : list MediaInformation;
  calls : list Call
}.

Definition set_type_ (v : Type_) (p : CastPlayer) : CastPlayer :=
  {| type_ := v; state_ := state_ p; idleTimerId_ := idleTimerId_ p;
     delay_ := delay_ p; playerAutoPlay_ := playerAutoPlay_ p;
     playerAutoPlayTimerId_ := playerAutoPlayTimerId_ p; player_ := player_ p;
     mediaManager_ := mediaManager_ p; applicationState_ := applicationState_ p;
     bufferingListeners := bufferingListeners p; timers := timers p;
     nextTimerId := nextTimerId p; transitionEnd := transitionEnd p;
     imageLoads := imageLoads p; calls := calls p |}.

Definition set_state_ (v : State) (p : CastPlayer) : CastPlayer :=
  {| type_ := type_ p; state_ := v; idleTimerId_ := idleTimerId_ p;
     delay_ := delay_ p; playerAutoPlay_ := playerAutoPlay_ p;
     playerAutoPlayTimerId_ := playerAutoPlayTimerId_ p; player_ := player_ p;
     mediaManager_ := mediaManager_ p; applicationState_ := applicationState_ p;
     bufferingListeners := bufferingListeners p; timers := timers p;
     nextTimerId := nextTimerId p; transitionEnd := transitionEnd p;
     imageLoads := imageLoads p; calls := calls p |}.

Definition set_idleTimerId_ (v : option positive) (p : CastPlayer) : CastPlayer :=
  {| type_ := type_ p; state_ := state_ p; idleTimerId_ := v;
     delay_ := delay_ p; playerAutoPlay_ := playerAutoPlay_ p;
     playerAutoPlayTimerId_ := playerAutoPlayTimerId_ p; player_ := player_ p;
     mediaManager_ := mediaManager_ p; applicationState_ := applicationState_ p;
     bufferingListeners := bufferingListeners p; timers := timers p;
     nextTimerId := nextTimerId p; transitionEnd := transitionEnd p;
     imageLoads := imageLoads p; calls := calls p |}.

Definition set_delay_ (v : option positive) (p : CastPlayer) : CastPlayer :=
  {| type_ := type_ p; state_ := state_ p; idleTimerId_ := idleTimerId_ p;
     delay_ := v; playerAutoPlay_ := playerAutoPlay_ p;
     playerAutoPlayTimerId_ := playerAutoPlayTimerId_ p; player_ := player_ p;
     mediaManager_ := mediaManager_ p; applicationState_ := applicationState_ p;
     bufferingListeners := bufferingListeners p; timers := timers p;
     nextTimerId := nextTimerId p; transitionEnd := transitionEnd p;
     imageLoads := imageLoads p; calls := calls p |}.

Definition set_playerAutoPlay_ (v : bool) (p : CastPlayer) : CastPlayer :=
  {| type_ := type_ p; state_ := state_ p; idleTimerId_ := idleTimerId_ p;
     delay_ := delay_ p; playerAutoPlay_ := v;
     playerAutoPlayTimerId_ := playerAutoPlayTimerId_ p; player_ := player_ p;
     mediaManager_ := mediaManager_ p; applicationState_ := applicationState_ p;
     bufferingListeners := bufferingListeners p; timers := timers p;
     nextTimerId := nextTimerId p; transitionEnd := transitionEnd p;
     imageLoads := imageLoads p; calls := calls p |}.

Definition set_playerAutoPlayTimerId_ (v : option positive) (p : CastPlayer) : CastPlayer :=
  {| type_ := type_ p; state_ := state_ p; idleTimerId_ := idleTimerId_ p;
     delay_ := delay_ p; playerAutoPlay_ := playerAutoPlay_ p;
     playerAutoPlayTimerId_ := v; player_ := player_ p;
     mediaManager_ := mediaManager_ p; applicationState_ := applicationState_ p;
     bufferingListeners := bufferingListeners p; timers := timers p;
     nextTimerId := nextTimerId p; transitionEnd := transitionEnd p;
     imageLoads := imageLoads p; calls := calls p |}.

Definition set_player_ (v : option Player) (p : CastPlayer) : CastPlayer :=
  {| type_ := type_ p; state_ := state_ p; idleTimerId_ := idleTimerId_ p;
     delay_ := delay_ p; playerAutoPlay_ := playerAutoPlay_ p;
     playerAutoPlayTimerId_ := playerAutoPlayTimerId_ p; player_ := v;
     mediaManager_ := mediaManager_ p; applicationState_ := applicationState_ p;
     bufferingListeners := bufferingListeners p; timers := timers p;
     nextTimerId := nextTimerId p; transitionEnd := transitionEnd p;
     imageLoads := imageLoads p; calls := calls p |}.

Definition set_mediaManager_ (v : bool) (p : CastPlayer) : CastPlayer :=
  {| type_ := type_ p; state_ := state_ p; idleTimerId_ := idleTimerId_ p;
     delay_ := delay_ p; playerAutoPlay_ := playerAutoPlay_ p;
     playerAutoPlayTimerId_ := playerAutoPlayTimerId_ p; player_ := player_ p;
     mediaManager_ := v; applicationState_ := applicationState_ p;
     bufferingListeners := bufferingListeners p; timers := timers p;
     nextTimerId := nextTimerId p; transitionEnd := transitionEnd p;
     imageLoads := imageLoads p; calls := calls p |}.

Definition set_applicationState_ (v : option string) (p : CastPlayer) : CastPlayer :=
  {| type_ := type_ p; state_ := state_ p; idleTimerId_ := idleTimerId_ p;
     delay_ := delay_ p; playerAutoPlay_ := playerAutoPlay_ p;
     playerAutoPlayTimerId_ := playerAutoPlayTimerId_ p; player_ := player_ p;
     mediaManager_ := mediaManager_ p; applicationState_ := v;
     bufferingListeners := bufferingListeners p; timers := timers p;
     nextTimerId := nextTimerId p; transitionEnd := transitionEnd p;
     imageLoads := imageLoads p; calls := calls p |}.

Definition set_bufferingListeners (v : nat) (p : CastPlayer) : CastPlayer :=
  {| type_ := type_ p; state_ := state_ p; idleTimerId_ := idleTimerId_ p;
     delay_ := delay_ p; playerAutoPlay_ := playerAutoPlay_ p;
     playerAutoPlayTimerId_ := playerAutoPlayTimerId_ p; player_ := player_ p;
     mediaManager_ := mediaManager_ p; applicationState_ := applicationState_ p;
     bufferingListeners := v; timers := timers p;
     nextTimerId := nextTimerId p; transitionEnd := transitionEnd p;
     imageLoads := imageLoads p; calls := calls p |}.

Definition set_timers (v : gmap positive Timer) (p : CastPlayer) : CastPlayer :=
  {| type_ := type_ p; state_ := state_ p; idleTimerId_ := idleTimerId_ p;
     delay_ := delay_ p; playerAutoPlay_ := playerAutoPlay_ p;
     playerAutoPlayTimerId_ := playerAutoPlayTimerId_ p; player_ := player_ p;
     mediaManager_ := mediaManager_ p; applicationState_ := applicationState_ p;
     bufferingListeners := bufferingListeners p; timers := v;
     nextTimerId := nextTimerId p; transitionEnd := transitionEnd p;
     imageLoads := imageLoads p; calls := calls p |}.

Definition set_nextTimerId (v : positive) (p : CastPlayer) : CastPlayer :=
  {| type_ := type_ p; state_ := state_ p; idleTimerId_ := idleTimerId_ p;
     delay_ := delay_ p; playerAutoPlay_ := playerAutoPlay_ p;
     playerAutoPlayTimerId_ := playerAutoPlayTimerId_ p; player_ := player_ p;
     mediaManager_ := mediaManager_ p; applicationState_ := applicationState_ p;
     bufferingListeners := bufferingListeners p; timers := timers p;
     nextTimerId := v; transitionEnd := transitionEnd p;
     imageLoads := imageLoads p; calls := calls p |}.

Definition set_transitionEnd (v : list Something) (p : CastPlayer) : CastPlayer :=
  {| type_ := type_ p; state_ := state_ p; idleTimerId_ := idleTimerId_ p;
     delay_ := delay_ p; playerAutoPlay_ := playerAutoPlay_ p;
     playerAutoPlayTimerId_ := playerAutoPlayTimerId_ p; player_ := player_ p;
     mediaManager_ := mediaManager_ p; applicationState_ := applicationState_ p;
     bufferingListeners := bufferingListeners p; timers := timers p;
     nextTimerId := nextTimerId p; transitionEnd := v;
     imageLoads := imageLoads p; calls := calls p |}.

Definition set_imageLoads (v : list MediaInformation) (p : CastPlayer) : CastPlayer :=
  {| type_ := type_ p; state_ := state_ p; idleTimerId_ := idleTimerId_ p;
     delay_ := delay_ p; playerAutoPlay_ := playerAutoPlay_ p;
     playerAutoPlayTimerId_ := playerAutoPlayTimerId_ p; player_ := player_ p;
     mediaManager_ := mediaManager_ p; applicationState_ := applicationState_ p;
     bufferingListeners := bufferingListeners p; timers := timers p;
     nextTimerId := nextTimerId p; transitionEnd := transitionEnd p;
     imageLoads := v; calls := calls p |}.

(** Record one outgoing call. *)
Definition call (c : Call) (p : CastPlayer) : CastPlayer :=
  {| type_ := type_ p; state_ := state_ p; idleTimerId_ := idleTimerId_ p;
     delay_ := delay_ p; playerAutoPlay_ := playerAutoPlay_ p;
     playerAutoPlayTimerId_ := playerAutoPlayTimerId_ p; player_ := player_ p;
     mediaManager_ := mediaManager_ p; applicationState_ := applicationState_ p;
     bufferingListeners := bufferingListeners p; timers := timers p;
     nextTimerId := nextTimerId p; transitionEnd := transitionEnd p;
     imageLoads := imageLoads p; calls := calls p ++ [c] |}.

(** ** Browser facilities *)

(** [setTimeout(cb, t)]: the new id and the player with the timer pending. *)
Definition setTimeout (cb : TimerCallback) (t : Z) (p : CastPlayer)
  : positive * CastPlayer :=
  let id := nextTimerId p in
  (id, set_nextTimerId (Pos.succ id)
         (set_timers (<[id := {| delay := t; callback := cb |}]> (timers p)) p)).

(** [clearTimeout(id)]; an [undefined] or [null] id clears nothing. *)
Definition clearTimeout (id : option positive) (p : CastPlayer) : CastPlayer :=
  match id with
  | Some i => set_timers (delete i (timers p)) p
  | None => p
  end.

(** [sampleplayer.transition_]: [something] runs when the fade-out ends.
    The listener of the fade-in that follows has no function to call and
    is not tracked. *)
Definition transition_ (something : Something) (p : CastPlayer) : CastPlayer :=
  set_transitionEnd (transitionEnd p ++ [something]) p.

(** ** Helpers on media *)

(** [sampleplayer.getMediaImageUrl_] *)
Definition getMediaImageUrl_ (m : MediaInformation) : option string :=
  match metadata m with
  | Some md => head (images md)
  | None => None
  end.

(** [sampleplayer.getApplicationState_] *)
Definition getApplicationState_ (opt_media : option MediaInformation) : string :=
  match opt_media with
  | Some m =>
      match metadata m with
      | Some md =>
          if Js.truthy (title md)
          then "Now Casting: " +:+ Js.orEmpty (title md)
          else "Now Casting"
      | None => "Now Casting"
      end
  | None => "Ready To Cast"
  end.

(** ** Methods of [CastPlayer] *)

(** [setIdleTimeout_]; [t] is truthy when defined and not zero. *)
Definition setIdleTimeout_ (t : option Z) (p : CastPlayer) : CastPlayer :=
  let p := clearTimeout (idleTimerId_ p) p in
  match t with
  | Some ms =>
      if decide (ms = 0%Z) then p
      else let '(id, p) := setTimeout IdleCallback ms p in
           set_idleTimerId_ (Some id) p
  | None => p
  end.

(** [setType_] *)
Definition setType_ (type : Type_) (isLiveStream : bool) (p : CastPlayer)
  : CastPlayer :=
  call (ElementSetType type isLiveStream) (set_type_ type p).

(** [updateApplicationState_] *)
Definition updateApplicationState_ (env : Env) (p : CastPlayer) : CastPlayer :=
  if mediaManager_ p then
    let idle := bool_decide (state_ p = IDLE) in
    let media := if idle then None else mediaInformation env in
    let applicationState := getApplicationState_ media in
    if decide (applicationState_ p ≠ Some applicationState) then
      call (SetApplicationState applicationState)
        (set_applicationState_ (Some applicationState) p)
    else p
  else p.

(** [setState_]; [opt_delay] is truthy when given and not zero. *)
Definition setState_ (env : Env) (state : State) (opt_crossfade : bool)
    (opt_delay : option Z) (p : CastPlayer) : CastPlayer :=
  let p := clearTimeout (delay_ p) p in
  let delayed := match opt_delay with
                 | Some d => if decide (d = 0%Z) then None else Some d
                 | None => None
                 end in
  match delayed with
  | Some d =>
      let '(id, p) := setTimeout (DelayCallback state opt_crossfade) d p in
      set_delay_ (Some id) p
  | None =>
      if negb opt_crossfade then
        let p := set_state_ state p in
        let p := call (ElementSetState state) p in
        let p := updateApplicationState_ env p in
        setIdleTimeout_ (IDLE_TIMEOUT state) p
      else transition_ (SetStateFn state) p
  end.

(** [resetMediaElement_] *)
Definition resetMediaElement_ (p : CastPlayer) : CastPlayer :=
  match player_ p with
  | Some _ => set_player_ None (call PlayerUnload p)
  | None => p
  end.

(** [cancelPlayerAutoPlay_] *)
Definition cancelPlayerAutoPlay_ (p : CastPlayer) : CastPlayer :=
  match playerAutoPlayTimerId_ p with
  | Some id => set_playerAutoPlayTimerId_ None (clearTimeout (Some id) p)
  | None => p
  end.

(** [onError_] *)
Definition onError_ (error : ErrorObject) (p : CastPlayer) : CastPlayer :=
  transition_ (ErrorFn error) p.

(** [onLoadMetadataError_] *)
Definition onLoadMetadataError_ (event : LoadInfo) (p : CastPlayer) : CastPlayer :=
  transition_ (LoadMetadataErrorFn event) p.

(** [host.onError] as installed by [loadVideo_]; dispatching the new
    error event on the media element runs [onError_] at once. *)
Definition hostOnError (p : CastPlayer) : CastPlayer :=
  match player_ p with
  | Some _ =>
      let p := call PlayerUnload p in
      let p := set_player_ None p in
      onError_ NewErrorEvent p
  | None => p
  end.

Section Handlers.

Variable getPath_ : string → string.

(** [loadVideo_]; [load] has checked that the content id is a non-empty
    string before it gets here.  On the media-element path one more
    [onBuffering_] listener is added for each of the two events; the
    [removeEventListener] calls of the other path name a function that
    was never registered and remove nothing.  The write to the [autoplay]
    property of the element is not recorded. *)
Definition loadVideo_ (info : LoadInfo) (p : CastPlayer) : CastPlayer :=
  let m := default emptyMedia (media (message info)) in
  let autoplay := autoplay (message info) in
  let url := Js.orEmpty (contentId m) in
  match selectProtocol getPath_ m with
  | None =>
      let p := set_bufferingListeners (S (bufferingListeners p)) p in
      call (OnLoadOrig {| etype := LOAD; data := message info;
                          eventSenderId := senderId info |}) p
  | Some protocolFunc =>
      let p := set_playerAutoPlay_
                 (match autoplay with None => true | Some a => a end) p in
      let host := {| hostUrl := url; protocol := protocolFunc |} in
      let p := set_player_ (Some host) p in
      call (PlayerLoad host) p
  end.

(** [sampleplayer.preload_] with the [doneFunc] of [load]: the artwork is
    awaited when there is one. *)
Definition preload_ (m : MediaInformation) (p : CastPlayer) : CastPlayer :=
  if Js.truthy (getMediaImageUrl_ m)
  then set_imageLoads (imageLoads p ++ [m]) p
  else transition_ (LoadingFn m) p.

(** [load] *)
Definition load (info : LoadInfo) (p : CastPlayer) : CastPlayer :=
  let p := clearTimeout (idleTimerId_ p) p in
  let m := default emptyMedia (media (message info)) in
  let playerType := getType_ getPath_ m in
  let isLiveStream := bool_decide (streamType m = Some LIVE) in
  if negb (Js.truthy (contentId m)) then onLoadMetadataError_ info p
  else if decide (playerType = UNKNOWN) then onLoadMetadataError_ info p
  else
    let p := resetMediaElement_ p in
    let p := setType_ playerType isLiveStream p in
    let p := match playerType with
             | VIDEO => loadVideo_ info p
             | UNKNOWN => p
             end in
    preload_ m p.

(** [onLoad_] *)
Definition onLoad_ (event : ManagerEvent) (p : CastPlayer) : CastPlayer :=
  let p := cancelPlayerAutoPlay_ p in
  load {| message := data event; senderId := eventSenderId event |} p.

End Handlers.

(** [onReady_] *)
Definition onReady_ (env : Env) (p : CastPlayer) : CastPlayer :=
  setState_ env IDLE false None p.

(** [onSenderDisconnected_]; [senders] is what
    [receiverManager_.getSenders()] returns when the event arrives. *)
Definition onSenderDisconnected_ (senders : list string)
    (event : SenderDisconnectedEvent) (p : CastPlayer) : CastPlayer :=
  if bool_decide (length senders = 0%nat)
     && bool_decide (reason event = DisconnectReason.REQUESTED_BY_SENDER)
  then call ReceiverStop p
  else p.

(** [onBuffering_] *)
Definition onBuffering_ (env : Env) (p : CastPlayer) : CastPlayer :=
  if bool_decide (state_ p = PLAYING) && (readyState env <? HAVE_ENOUGH_DATA)%nat
  then setState_ env BUFFERING false None p
  else p.

(** [onPlaying_] *)
Definition onPlaying_ (env : Env) (p : CastPlayer) : CastPlayer :=
  let p := cancelPlayerAutoPlay_ p in
  let isLoading := bool_decide (state_ p = LOADING) in
  setState_ env PLAYING isLoading None p.

(** [onPause_]; [updateProgress_] only writes texts and styles. *)
Definition onPause_ (env : Env) (p : CastPlayer) : CastPlayer :=
  let p := cancelPlayerAutoPlay_ p in
  let isIdle := bool_decide (state_ p = IDLE) in
  let isDone := Num.eq (currentTime env) (duration env) in
  let isUnderflow := match player_ p with
                     | Some _ => underflow env
                     | None => false
                     end in
  if isUnderflow then
    let p := setState_ env BUFFERING false None p in
    call (BroadcastStatus false) p
  else if negb isIdle && negb isDone then
    setState_ env PAUSED false None p
  else p.

(** [onStop_] *)
Definition onStop_ (event : ManagerEvent) (p : CastPlayer) : CastPlayer :=
  let p := cancelPlayerAutoPlay_ p in
  transition_ (StopFn event) p.

(** [onEnded_] *)
Definition onEnded_ (env : Env) (p : CastPlayer) : CastPlayer :=
  setState_ env DONE true None p.

(** [onProgress_]; [updateProgress_] only writes texts and styles. *)
Definition onProgress_ (env : Env) (p : CastPlayer) : CastPlayer :=
  if bool_decide (state_ p = BUFFERING) || bool_decide (state_ p = LOADING)
  then setState_ env PLAYING false None p
  else p.

(** [onVisibilityChanged_] *)
Definition onVisibilityChanged_ (isVisible : bool) (p : CastPlayer) : CastPlayer :=
  if negb isVisible then call (BroadcastStatus false) (call MediaPause p)
  else p.

(** The loop of [getBufferedDuration_] over the buffered ranges. *)
Fixpoint bufferedFrom (ranges : list (number * number)) (currentTime : number)
  : number :=
  match ranges with
  | [] => Num.ofZ 0
  | (start, end_) :: rest =>
      if Num.le start currentTime && Num.gt end_ currentTime
      then Num.sub end_ currentTime
      else bufferedFrom rest currentTime
  end.

(** [getBufferedDuration_] *)
Definition getBufferedDuration_ (env : Env) : number :=
  bufferedFrom (buffered env) (currentTime env).

(** [doPlayerAutoPlay_] *)
Definition doPlayerAutoPlay_ (env : Env) (p : CastPlayer) : CastPlayer :=
  let bufferedDuration := getBufferedDuration_ env in
  let hasEnoughDataPumped :=
    Num.ge bufferedDuration (Fin INITIAL_PUMP_DURATION_) in
  if hasEnoughDataPumped then
    set_playerAutoPlayTimerId_ None (call MediaPlay p)
  else
    let '(id, p) := setTimeout AutoPlayHandler PUMP_POLLING_INTERVAL_ p in
    set_playerAutoPlayTimerId_ (Some id) p.

(** [onLoadSuccess_]: the id of the timer it starts is not kept. *)
Definition onLoadSuccess_ (env : Env) (p : CastPlayer) : CastPlayer :=
  let totalTime := duration env in
  match player_ p with
  | Some _ =>
      if playerAutoPlay_ p
      then snd (setTimeout (MediaInfoCallback totalTime) MEDIA_INFO_DURATION_ p)
      else p
  | None => p
  end.

(** ** Running deferred work *)

(** A timer callback, run when its timer expires. *)
Definition runTimerCallback (env : Env) (cb : TimerCallback) (p : CastPlayer)
  : CastPlayer :=
  match cb with
  | IdleCallback => call ReceiverStop p
  | DelayCallback state crossfade => setState_ env state crossfade None p
  | MediaInfoCallback totalTime =>
      if negb (Num.isNaN totalTime)
         && Num.gt totalTime (Fin INITIAL_PUMP_DURATION_)
      then doPlayerAutoPlay_ env p
      else call MediaPlay p
  | AutoPlayHandler => doPlayerAutoPlay_ env p
  end.

(** Expiry of the pending timer [id]; a cleared timer never runs. *)
Definition fireTimer (env : Env) (id : positive) (p : CastPlayer) : CastPlayer :=
  match timers p !! id with
  | Some t => runTimerCallback env (callback t) (set_timers (delete id (timers p)) p)
  | None => p
  end.

(** The body of a function given to [transition_]. *)
Definition runSomething (env : Env) (f : Something) (p : CastPlayer)
  : CastPlayer :=
  match f with
  | SetStateFn state => setState_ env state false None p
  | ErrorFn error =>
      call (OnErrorOrig error) (setState_ env IDLE true None p)
  | LoadMetadataErrorFn event =>
      call (OnLoadMetadataErrorOrig event) (setState_ env IDLE true None p)
  | StopFn event =>
      call (OnStopOrig event) (setState_ env IDLE false None p)
  | LoadingFn m =>
      call (LoadMetadata m) (setState_ env LOADING false None p)
  end.

(** A transition-end event on the element: every listener registered at
    that moment removes itself and runs, in order of registration;
    listeners added meanwhile wait for the next event. *)
Definition onTransitionEnd (env : Env) (p : CastPlayer) : CastPlayer :=
  foldl (λ p f, runSomething env f p) (set_transitionEnd [] p) (transitionEnd p).

(** The artwork at position [i] of the preloads in flight has loaded. *)
Definition onImageLoad (i : nat) (p : CastPlayer) : CastPlayer :=
  match imageLoads p !! i with
  | Some m => transition_ (LoadingFn m) (set_imageLoads (delete i (imageLoads p)) p)
  | None => p
  end.

(** ** The player as a reactive system *)

(** What can reach the player from outside.  The seeking and seeked
    events of the media element are not among the signals: their
    handlers act on the seeking indicator only, which has a state and
    signals of its own. *)
Inductive Signal :=
| Ready                                   (* receiverManager_.onReady *)
| SenderLoad (event : ManagerEvent)       (* mediaManager_.onLoad *)
| SenderStop (event : ManagerEvent)       (* mediaManager_.onStop *)
| MediaError (error : ErrorObject)        (* element 'error', mediaManager_.onError *)
| LoadMetadataError (info : LoadInfo)     (* mediaManager_.onLoadMetadataError *)
| HostError                               (* host.onError *)
| MediaPlaying
| MediaPaused
| MediaEnded
| TimeUpdate
| LoadedMetadata
| Waiting                                 (* element 'stalled' or 'waiting' *)
| VisibilityChanged (isVisible : bool)
| TimerFired (id : positive)
| TransitionEnd
| ImageLoaded (i : nat)
| SenderDisconnected (senders : list string) (event : SenderDisconnectedEvent).

Section System.

Variable getPath_ : string → string.

Definition handle (env : Env) (s : Signal) (p : CastPlayer) : CastPlayer :=
  match s with
  | Ready => onReady_ env p
  | SenderLoad event => onLoad_ getPath_ event p
  | SenderStop event => onStop_ event p
  | MediaError error => onError_ error p
  | LoadMetadataError info => onLoadMetadataError_ info p
  | HostError => hostOnError p
  | MediaPlaying => onPlaying_ env p
  | MediaPaused => onPause_ env p
  | MediaEnded => onEnded_ env p
  | TimeUpdate => onProgress_ env p
  | LoadedMetadata => onLoadSuccess_ env p
  | Waiting => Nat.iter (bufferingListeners p) (onBuffering_ env) p
  | VisibilityChanged isVisible => onVisibilityChanged_ isVisible p
  | TimerFired id => fireTimer env id p
  | TransitionEnd => onTransitionEnd env p
  | ImageLoaded i => onImageLoad i p
  | SenderDisconnected senders event => onSenderDisconnected_ senders event p
  end.

(** Signals are handled one after the other, each to completion. *)
Definition run (sigs : list (Env * Signal)) (p : CastPlayer) : CastPlayer :=
  foldl (λ p es, handle es.1 es.2 p) p sigs.

End System.

(** The object before the constructor has set anything; [type_] and
    [state_] are overwritten before they are read. *)
Definition newObject : CastPlayer :=
  {| type_ := UNKNOWN; state_ := LAUNCHING; idleTimerId_ := None;
     delay_ := None; playerAutoPlay_ := false;
     playerAutoPlayTimerId_ := None; player_ := None;
     mediaManager_ := false; applicationState_ := None;
     bufferingListeners := 0; timers := ∅; nextTimerId := 1%positive;
     transitionEnd := []; imageLoads := []; calls := [] |}.

(** The constructor [sampleplayer.CastPlayer]: the type and the state are
    set while there is no media manager yet. *)
Definition constructor (env : Env) : CastPlayer :=
  let p := setType_ UNKNOWN false newObject in
  let p := setState_ env LAUNCHING false None p in
  let p := set_playerAutoPlay_ false p in
  let p := set_playerAutoPlayTimerId_ None p in
  let p := call (SetApplicationState (getApplicationState_ None)) p in
  set_mediaManager_ true p.

(** ** The selection policy and the streaming content types, as the
    specification words them *)

(** The signatures of the three streaming protocols on a URL path and
    a content type. *)
Definition hlsSignature (path type : string) : Prop :=
  getExtension_ path = "m3u8" ∨ type = "application/x-mpegurl"
  ∨ type = "application/vnd.apple.mpegurl".

Definition dashSignature (path type : string) : Prop :=
  getExtension_ path = "mpd" ∨ type = "application/dash+xml".

Definition smoothSignature (path type : string) : Prop :=
  Js.includes path ".ism" ∨ type = "application/vnd.ms-sstr+xml".

(** The content types of the streaming protocols. *)
Definition streamingMimes : list string :=
  ["application/x-mpegurl"; "application/vnd.apple.mpegurl";
   "application/dash+xml"; "application/vnd.ms-sstr+xml"].

(** ** Timers: ids, the idle timer, the auto-play polls *)

Global Instance number_eq_dec : EqDecision number.
Proof. solve_decision. Defined.
Global Instance TimerCallback_eq_dec : EqDecision TimerCallback.
Proof. solve_decision. Defined.

(** Every pending timer has an id that was handed out already, so
    [setTimeout] never reuses the id of a pending timer. *)
Definition timersFresh (p : CastPlayer) : Prop :=
  ∀ id t, timers p !! id = Some t → (id < nextTimerId p)%positive.

(** A step only starts timers with new ids and clears timers. *)
Definition timersGrow (p p' : CastPlayer) : Prop :=
  (nextTimerId p ≤ nextTimerId p')%positive ∧
  ∀ id t, timers p' !! id = Some t →
    timers p !! id = Some t
    ∨ (nextTimerId p ≤ id)%positive ∧ (id < nextTimerId p')%positive.

(** The pending timers that were started by [setIdleTimeout_]. *)
Definition idleTimers (p : CastPlayer) : gmap positive Timer :=
  filter (λ it : positive * Timer, callback it.2 = IdleCallback) (timers p).

(** Every pending idle timer is the one [idleTimerId_] names. *)
Definition idleNamed (p : CastPlayer) : Prop :=
  ∀ id t, idleTimers p !! id = Some t → idleTimerId_ p = Some id.

(** Every pending idle timer is the one [idleTimerId_] names, and runs for
    the time the table gives for the current state. *)
Definition idleTimerInv (p : CastPlayer) : Prop :=
  ∀ id t, idleTimers p !! id = Some t →
    idleTimerId_ p = Some id ∧ IDLE_TIMEOUT (state_ p) = Some (delay t).

(** The idle timers a player must have when a transition to [state] has
    just completed: the one for that state, or none. *)
Definition rearmedFor (state : State) (p : CastPlayer) : Prop :=
  match IDLE_TIMEOUT state with
  | Some ms =>
      ∃ id, idleTimerId_ p = Some id ∧
            idleTimers p = {[ id := {| delay := ms; callback := IdleCallback |} ]}
  | None => idleTimers p = ∅
  end.

(** Steps that leave the state and [idleTimerId_] alone and start no
    idle timer. *)
Definition keepsIdle (p p' : CastPlayer) : Prop :=
  state_ p' = state_ p ∧ idleTimerId_ p' = idleTimerId_ p ∧
  ∀ id t, idleTimers p' !! id = Some t → idleTimers p !! id = Some t.

(** The polling timers that are pending. *)
Definition pollTimers (p : CastPlayer) : gmap positive Timer :=
  filter (λ it : positive * Timer, callback it.2 = AutoPlayHandler) (timers p).

(** The least exact difference whose nearest double is at least
    [INITIAL_PUMP_DURATION_]: half a last place below 5. *)
Definition leastLeadPumped : Qc :=
  (INITIAL_PUMP_DURATION_ - Q2Qc (1 # (2 ^ 51)))%Qc.

(** The buffered lead has reached the threshold. *)
Definition hasEnoughDataPumped (env : Env) : bool :=
  Num.ge (getBufferedDuration_ env) (Fin INITIAL_PUMP_DURATION_).

(** A poll is pending: the timer [playerAutoPlayTimerId_] names runs the
    auto-play handler after the polling interval. *)
Definition pollPending (p : CastPlayer) : Prop :=
  ∃ id, playerAutoPlayTimerId_ p = Some id ∧
        timers p !! id
        = Some {| delay := PUMP_POLLING_INTERVAL_; callback := AutoPlayHandler |}.

(** Expiry of the polling timer that [playerAutoPlayTimerId_] names. *)
Definition firePoll (env : Env) (p : CastPlayer) : CastPlayer :=
  match playerAutoPlayTimerId_ p with
  | Some id => fireTimer env id p
  | None => p
  end.

(** The display timer [id] expires under the first reading, then the
    polling timer expires under each of the following ones. *)
Definition displayThenPoll (id : positive) (envs : list Env) (p : CastPlayer)
  : CastPlayer :=
  match envs with
  | [] => p
  | env :: rest => foldl (λ p env, firePoll env p) (fireTimer env id p) rest
  end.

(** ** The playback session and the error policy *)

(** Calls that create, replace or tear down the playback session. *)
Definition isSessionCall (c : Call) : bool :=
  match c with
  | PlayerLoad _ | PlayerUnload | ElementSetType _ _ | OnLoadOrig _ => true
  | _ => false
  end.

(** A step that leaves the backend handle and the type as they are and
    makes no session call. *)
Definition sessionKept (p p' : CastPlayer) : Prop :=
  player_ p' = player_ p ∧ type_ p' = type_ p ∧
  ∃ extra, calls p' = calls p ++ extra
           ∧ Forall (λ c, isSessionCall c = false) extra.

(** The handling of an error as the uniform policy words it, between the
    player [p] that receives the error and the player [p'] when the
    handling is over: the probe is cancelled, the session is torn down,
    the state is idle, and the hook is called after the state was set. *)
Definition handlesErrorAsClaimed (p p' : CastPlayer) (hook : Call) : Prop :=
  playerAutoPlayTimerId_ p' = None ∧ player_ p' = None ∧ state_ p' = IDLE ∧
  ∃ before after,
    calls p' = calls p ++ before ++ ElementSetState IDLE :: after ∧ hook ∈ after.

(** ** Concrete readings, requests and players *)

(** Readings of a media element with nothing loaded. *)
Definition env0 : Env :=
  {| currentTime := Num.ofZ 0; duration := NaN; buffered := [];
     readyState := 0; underflow := false; mediaInformation := None |}.

(** Readings of a media element with 60 seconds of media and nothing
    buffered. *)
Definition env60 : Env :=
  {| currentTime := Num.ofZ 0; duration := Num.ofZ 60; buffered := [];
     readyState := 0; underflow := false; mediaInformation := None |}.

(** The buffered range [0, lead) around a play position of 0. *)
Definition envLead (lead : Z) : Env :=
  {| currentTime := Num.ofZ 0; duration := Num.ofZ 60;
     buffered := [(Num.ofZ 0, Num.ofZ lead)];
     readyState := 0; underflow := false; mediaInformation := None |}.

(** The doubles nearest to 0.1 and to 5.1. *)
Definition double_0_1 : Qc := Q2Qc (3602879701896397 # (2 ^ 55)).
Definition double_5_1 : Qc := Q2Qc (2871044762448691 # (2 ^ 49)).

(** The play position [t] in the buffered range from 0 to [e]. *)
Definition envAt (t e : Qc) : Env :=
  {| currentTime := Fin t; duration := Num.ofZ 60;
     buffered := [(Num.ofZ 0, Fin e)];
     readyState := 0; underflow := false; mediaInformation := None |}.

(** An HLS stream and the load request for it, autoplay not given. *)
Definition hlsMedia : MediaInformation :=
  {| contentId := Some "/media/a.m3u8"; contentType := None;
     streamType := None; metadata := None |}.

Definition hlsLoad : LoadInfo :=
  {| message := {| media := Some hlsMedia; autoplay := None |};
     senderId := "sender-1" |}.

(** A load request for a text file. *)
Definition unknownLoad : LoadInfo :=
  {| message := {| media := Some {| contentId := Some "/media/readme.txt";
                                    contentType := Some "text/plain";
                                    streamType := None; metadata := None |};
                   autoplay := None |};
     senderId := "sender-1" |}.

(** The load and stop events of a sender. *)
Definition loadEvent : ManagerEvent :=
  {| etype := LOAD; data := message hlsLoad; eventSenderId := "sender-1" |}.

Definition stopEvent : ManagerEvent :=
  {| etype := STOP; data := {| media := None; autoplay := None |};
     eventSenderId := "sender-1" |}.

(** A player that loaded an HLS stream, is in [LOADING] and polls the
    buffer for auto-play. *)
Definition probing : CastPlayer :=
  run (λ url, url)
    [(env0, Ready); (env0, SenderLoad loadEvent); (env0, TransitionEnd);
     (env60, LoadedMetadata); (envLead 0, TimerFired 4)]
    (constructor env0).

(** ** Formatting durations *)

(** [s.slice(-n)]: the last [n] code units, or all of a shorter string. *)
Definition sliceFromEnd (n : nat) (s : string) : string :=
  String.substring (String.length s - n) n s.

(** The [digit] of [formatDuration_] on a whole number, which
    [Math.round] leaves as it is and whose string is its decimal
    numeral (below 10^21 in magnitude). *)
Definition digit (n : Z) : string :=
  sliceFromEnd 2 ("00" +:+ pretty n).

(** [Math.floor(dur / c)] for a whole number [dur] that is a double and
    a whole divisor [c] from 1 on: the division gives the double nearest
    to the exact quotient, which is finite. *)
Definition floorDiv (dur : Z) (c : positive) : Z :=
  match Double.round (Qc_of_Z dur / Qc_of_Z (Zpos c))%Qc with
  | Fin q => Qfloor q
  | _ => 0%Z
  end.

(** [sampleplayer.formatDuration_] on a whole number of seconds that is a
    double below 10^21 in magnitude.  The two divisions round; [%] is
    exact and takes the sign of the dividend.  Durations with a
    fraction, NaN and the infinities have no counterpart here. *)
Definition formatDuration_ (dur : Z) : string :=
  let hr := floorDiv dur 3600 in
  let min := (floorDiv dur 60 `rem` 60)%Z in
  let sec := (dur `rem` 60)%Z in
  if decide (hr = 0%Z) then digit min +:+ ":" +:+ digit sec
  else digit hr +:+ ":" +:+ digit min +:+ ":" +:+ digit sec.

(** The two decimal digits of the tens and the units of [x]. *)
Definition twoDigits (x : N) : string :=
  String (pretty_N_char ((x `div` 10) `mod` 10))
    (String (pretty_N_char (x `mod` 10)) "").

(** The number is a whole multiple of [2 ^ -1074], the least positive
    double, as every finite double is. *)
Definition onGrid (a : number) : Prop :=
  match a with
  | Fin q => (Zpos (Qden q) | Qnum q * 2 ^ 1074)%Z
  | _ => True
  end.

(** The range holds the position: [start <= currentTime && end > currentTime]. *)
Definition holds (currentTime : number) (range : number * number) : bool :=
  Num.le range.1 currentTime && Num.gt range.2 currentTime.

(** The application state the receiver manager was given last. *)
Definition lastBroadcast (cs : list Call) : option string :=
  foldl (λ acc c, match c with SetApplicationState s => Some s | _ => acc end)
    None cs.

(** One call in the life of the backend players: [Some cur] while the
    calls were in order, with [cur] the player that is loaded; [None]
    once a player was loaded over a loaded one or unloaded with none
    loaded. *)
Definition replayCall (cur : option (option Player)) (c : Call)
  : option (option Player) :=
  match cur, c with
  | Some None, PlayerLoad h => Some (Some h)
  | Some (Some _), PlayerLoad _ => None
  | Some (Some _), PlayerUnload => Some None
  | Some None, PlayerUnload => None
  | cur, _ => cur
  end.

(** The player that is loaded after a trace that began with none. *)
Definition loadedPlayer (cs : list Call) : option (option Player) :=
  foldl replayCall (Some None) cs.

(** Calls that neither publish an application state nor load or unload
    a backend player. *)
Definition quietCall (c : Call) : bool :=
  match c with
  | SetApplicationState _ | PlayerLoad _ | PlayerUnload => false
  | _ => true
  end.

(** The function was not made by a [setState_] with a delay. *)
Definition notDelayed (cb : TimerCallback) : Prop :=
  match cb with DelayCallback _ _ => False | _ => True end.

(** The application state kept in [applicationState_] is the one the
    receiver manager was given last. *)
Definition appInv (p : CastPlayer) : Prop :=
  mediaManager_ p = true ∧
  ∀ s, applicationState_ p = Some s → lastBroadcast (calls p) = Some s.

(** The backend players were loaded and unloaded in order, and [player_]
    is the one that is loaded. *)
Definition sessionInv (p : CastPlayer) : Prop :=
  loadedPlayer (calls p) = Some (player_ p).

(** No transition to [STALLED] was made or is under way, and no
    [setState_] with a delay is pending. *)
Definition plainInv (p : CastPlayer) : Prop :=
  state_ p ≠ STALLED ∧ delay_ p = None ∧
  Forall (λ f, f ≠ SetStateFn STALLED) (transitionEnd p) ∧
  ∀ id t, timers p !! id = Some t → notDelayed (callback t).

Definition reachInv (p : CastPlayer) : Prop :=
  appInv p ∧ sessionInv p ∧ plainInv p.

(** A step that keeps the fields the three invariants read, starts no
    delayed [setState_] and makes quiet calls only. *)
Definition traceKept (p p' : CastPlayer) : Prop :=
  mediaManager_ p' = mediaManager_ p ∧
  applicationState_ p' = applicationState_ p ∧
  player_ p' = player_ p ∧ state_ p' = state_ p ∧ delay_ p' = delay_ p ∧
  transitionEnd p' = transitionEnd p ∧
  (∀ id t, timers p' !! id = Some t →
     timers p !! id = Some t ∨ notDelayed (callback t)) ∧
  ∃ extra, calls p' = calls p ++ extra ∧ Forall (λ c, quietCall c = true) extra.

(** The call publishes an application state. *)
Definition isBroadcast (c : Call) : Prop := ∃ s, c = SetApplicationState s.

(** The signals whose handlers call [setState_] without a fade, and the
    end of a fade-out, which runs the functions waiting for it. *)
Definition writesState (s : Signal) : bool :=
  match s with
  | Ready | MediaPlaying | MediaPaused | TimeUpdate | Waiting | TransitionEnd => true
  | _ => false
  end.

(** [cast.receiver.media.PlayerState] *)
Inductive PlayerState := PS_IDLE | PS_PLAYING | PS_PAUSED | PS_BUFFERING.

Global Instance PlayerState_eq_dec : EqDecision PlayerState.
Proof. solve_decision. Defined.

(** [cast.receiver.media.MediaStatus]: the player state, and the fields
    the callback does not touch. *)
Record MediaStatus (Rest : Type) := {
  playerState : PlayerState;
  otherFields : Rest
}.

Arguments playerState {Rest} _.
Arguments otherFields {Rest} _.

(** [customizedStatusCallback_] *)
Definition customizedStatusCallback_ {Rest : Type} (p : CastPlayer)
    (mediaStatus : MediaStatus Rest) : MediaStatus Rest :=
  if bool_decide (playerState mediaStatus = PS_PAUSED)
     && bool_decide (state_ p = BUFFERING)
  then {| playerState := PS_BUFFERING; otherFields := otherFields mediaStatus |}
  else mediaStatus.

(** The part of the player that shows the seeking indicator: whether the
    element has the class [seeking], the field [seekingTimeoutId_], and
    the pending timers that remove the class, with their delays.  These
    timers are read and cleared by the two seek handlers only, and their
    ids are never reused. *)
Record SeekUi := {
  seeking : bool;
  seekingTimeoutId_ : option positive;
  classTimers : gmap positive Z;
  nextClassTimerId : positive
}.

Definition clearClassTimer (id : option positive) (u : SeekUi) : SeekUi :=
  match id with
  | Some i => {| seeking := seeking u; seekingTimeoutId_ := seekingTimeoutId_ u;
                 classTimers := delete i (classTimers u);
                 nextClassTimerId := nextClassTimerId u |}
  | None => u
  end.

(** [sampleplayer.addClassWithTimeout_] for the class [seeking] *)
Definition addClassWithTimeout_ (timeout : Z) (u : SeekUi) : positive * SeekUi :=
  let id := nextClassTimerId u in
  (id, {| seeking := true; seekingTimeoutId_ := seekingTimeoutId_ u;
          classTimers := <[id := timeout]> (classTimers u);
          nextClassTimerId := Pos.succ id |}).

(** [onSeekStart_] *)
Definition onSeekStart_ (u : SeekUi) : SeekUi :=
  let u := clearClassTimer (seekingTimeoutId_ u) u in
  {| seeking := true; seekingTimeoutId_ := seekingTimeoutId_ u;
     classTimers := classTimers u; nextClassTimerId := nextClassTimerId u |}.

(** [onSeekEnd_] *)
Definition onSeekEnd_ (u : SeekUi) : SeekUi :=
  let u := clearClassTimer (seekingTimeoutId_ u) u in
  let '(id, u) := addClassWithTimeout_ 3000 u in
  {| seeking := seeking u; seekingTimeoutId_ := Some id;
     classTimers := classTimers u; nextClassTimerId := nextClassTimerId u |}.

(** Expiry of the pending timer [id]: the function given to
    [setTimeout] by [addClassWithTimeout_] removes the class. *)
Definition classTimerFired (id : positive) (u : SeekUi) : SeekUi :=
  match classTimers u !! id with
  | Some _ => {| seeking := false; seekingTimeoutId_ := seekingTimeoutId_ u;
                 classTimers := delete id (classTimers u);
                 nextClassTimerId := nextClassTimerId u |}
  | None => u
  end.

Inductive SeekSignal :=
| Seeking                              (* element 'seeking' *)
| Seeked                               (* element 'seeked' *)
| ClassTimerFired (id : positive).

Definition seekHandle (s : SeekSignal) (u : SeekUi) : SeekUi :=
  match s with
  | Seeking => onSeekStart_ u
  | Seeked => onSeekEnd_ u
  | ClassTimerFired id => classTimerFired id u
  end.

Definition seekRun (sigs : list SeekSignal) (u : SeekUi) : SeekUi :=
  foldl (λ u s, seekHandle s u) u sigs.

(** The indicator when the listeners are registered; whether the markup
    gives the element the class is not the player's choice. *)
Definition seekInit (shown : bool) : SeekUi :=
  {| seeking := shown; seekingTimeoutId_ := None; classTimers := ∅;
     nextClassTimerId := 1%positive |}.

(** Every pending removal is the one [seekingTimeoutId_] names, runs for
    3000 ms and finds the indicator shown; named ids have been handed
    out. *)
Definition seekInv (u : SeekUi) : Prop :=
  (∀ id d, classTimers u !! id = Some d →
     seekingTimeoutId_ u = Some id ∧ d = 3000%Z ∧ seeking u = true) ∧
  (∀ id, seekingTimeoutId_ u = Some id → (id < nextClassTimerId u)%positive).

(** The step from [p] to [p'] only adds calls, none of which stops the
    receiver. *)
Definition noStop (p p' : CastPlayer) : Prop :=
  ∃ extra, calls p' = calls p ++ extra ∧ ReceiverStop ∉ extra.

(** * Properties *)

(** ** Strings *)

Example getExtension_upper : getExtension_ "/a/video.M3U8" = "m3u8".
Proof. reflexivity. Qed.
Example getExtension_hidden : getExtension_ ".m3u8" = "".
Proof. reflexivity. Qed.
Example getExtension_multi : getExtension_ "/a.b/c.tar.GZ" = "gz".
Proof. reflexivity. Qed.
Example protocol_ism :
  protocolFunc "/x.ism/Manifest" "" = Some CreateSmoothStreamingProtocol.
Proof. reflexivity. Qed.

Lemma split_not_nil sep s : Js.split sep s ≠ [].
Proof.
  destruct s as [|c s]; simpl; [done|].
  case_decide; [done|]. by destruct (Js.split sep s).
Qed.

Lemma split_lacks sep s : Js.lacks sep s = true → Js.split sep s = [s].
Proof.
  induction s as [|c s IH]; simpl; [done|].
  intros [Hc Hs]%andb_prop. apply negb_true_iff, bool_decide_eq_false in Hc.
  rewrite decide_False by done. by rewrite IH.
Qed.

Lemma split_app sep pre suf :
  Js.split sep (pre +:+ String sep suf) = Js.split sep pre ++ Js.split sep suf.
Proof.
  induction pre as [|c pre IH]; simpl.
  - by rewrite decide_True.
  - rewrite IH. case_decide; [done|].
    pose proof (split_not_nil sep pre). by destruct (Js.split sep pre).
Qed.

Lemma split_singleton_empty sep s : Js.split sep s = [""] → s = "".
Proof.
  destruct s as [|c s]; simpl; [done|].
  case_decide.
  - intros [=H']. by apply split_not_nil in H'.
  - by destruct (Js.split sep s).
Qed.

Lemma last_dot_decompose (url : string) :
  Js.lacks "." url = true
  ∨ ∃ pre suf, Js.lacks "." suf = true ∧ url = pre +:+ String "." suf.
Proof.
  induction url as [|c url IH]; [by left|].
  destruct IH as [Hl|(pre & suf & Hl & ->)].
  - destruct (decide (c = "."%char)) as [->|Hc].
    + right. by exists "", url.
    + left. simpl. rewrite Hl, bool_decide_eq_false_2; done.
  - right. by exists (String c pre), suf.
Qed.

Lemma getExtension_last_dot pre suf :
  Js.lacks "." suf = true →
  getExtension_ (pre +:+ String "." suf)
  = if decide (pre = "") then "" else Js.toLowerCase suf.
Proof.
  intros Hl. unfold getExtension_.
  rewrite split_app, (split_lacks _ suf Hl).
  pose proof (split_not_nil "." pre) as Hne.
  pose proof (split_singleton_empty "." pre) as Hse.
  destruct (Js.split "." pre) as [|p0 [|p1 ps]] eqn:Hsp; [done| |].
  - simpl.
    destruct (decide (pre = "")) as [->|Hpre].
    + simpl in Hsp. simplify_eq. by rewrite decide_True.
    + rewrite decide_False; [done|]. intros [[=->] _]. by apply Hpre, Hse.
  - rewrite decide_False by (simpl; rewrite length_app; simpl; lia).
    rewrite decide_False by (simpl; rewrite length_app; simpl; lia).
    rewrite decide_False by (intros ->; done).
    by rewrite last_snoc.
Qed.

(** Claim C10.  [getExtension_] returns the empty string for a URL
    without a dot and for a URL that is one leading dot followed by a
    dot-free name; for every other URL, cut at its last dot into a
    non-empty front and a dot-free rest, it returns the rest in lower
    case.  Every URL is of one of these shapes.  Lower-casing works unit
    by unit: a capital letter (code 65 to 90, or 192 to 222 without 215)
    becomes the unit 32 above it, every other unit stays. *)
Theorem getExtension_cases (url : string) :
  (Js.lacks "." url = true → getExtension_ url = "") ∧
  (∀ suf, Js.lacks "." suf = true → url = String "." suf →
     getExtension_ url = "") ∧
  (∀ pre suf, Js.lacks "." suf = true → pre ≠ "" →
     url = pre +:+ String "." suf →
     getExtension_ url = Js.toLowerCase suf) ∧
  (Js.lacks "." url = true
   ∨ ∃ pre suf, Js.lacks "." suf = true ∧ url = pre +:+ String "." suf) ∧
  (∀ s i, String.get i (Js.toLowerCase s) = Js.lowerChar <$> String.get i s) ∧
  (∀ c, let n := nat_of_ascii c in
        nat_of_ascii (Js.lowerChar c)
        = if (65 <=? n)%nat && (n <=? 90)%nat
             || (192 <=? n)%nat && (n <=? 214)%nat
             || (216 <=? n)%nat && (n <=? 222)%nat
          then (n + 32)%nat else n).
Proof.
  split_and!.
  - intros Hl. unfold getExtension_. by rewrite (split_lacks _ _ Hl).
  - intros suf Hl ->. exact (getExtension_last_dot "" suf Hl).
  - intros pre suf Hl Hpre ->. rewrite (getExtension_last_dot pre suf Hl).
    by rewrite decide_False.
  - apply last_dot_decompose.
  - intros s. induction s as [|c s IH]; intros i; [done|].
    destruct i as [|i]; [done|]. apply IH.
  - intros c n. unfold Js.lowerChar. fold n.
    destruct (_ || _) eqn:E; [|done].
    apply nat_ascii_embedding.
    apply orb_prop in E as [E|E];
      [apply orb_prop in E as [E|E]|];
      apply andb_prop in E as [_ E%Nat.leb_le]; lia.
Qed.

Lemma getExtension_cases_witness :
  Js.lacks "." "GZ" = true ∧ "/a.b/c.tar" ≠ "" ∧
  getExtension_ "/a.b/c.tar.GZ" = "gz" ∧
  getExtension_ (String "a" (String "." (String "192" (String "B" ""))))
  = String "224" (String "b" "").
Proof.
  split_and!; [reflexivity|discriminate| |].
  - exact (proj1 (proj2 (proj2 (getExtension_cases "/a.b/c.tar.GZ")))
             "/a.b/c.tar" "GZ" eq_refl ltac:(discriminate) eq_refl).
  - exact (proj1 (proj2 (proj2 (getExtension_cases
                                  (String "a" (String "." (String "192" (String "B" ""))))%char)))
             "a" (String "192" (String "B" ""))%char eq_refl
             ltac:(discriminate) eq_refl).
Defined.

Lemma indexOf_zero_prefix s needle :
  Js.indexOf s needle = 0%Z ↔ String.prefix needle s = true.
Proof.
  unfold Js.indexOf. destruct s as [|b s]; simpl.
  - destruct needle; simpl; split; (done || lia).
  - destruct needle as [|a needle]; simpl; [done|].
    destruct (ascii_dec a b) as [->|]; simpl.
    + destruct (String.prefix needle s); simpl; [done|].
      destruct (String.index 0 (String b needle) s); split; (done || lia).
    + destruct (String.index 0 (String a needle) s); split; (done || lia).
Qed.

Lemma append_nil_l s : "" +:+ s = s.
Proof. reflexivity. Qed.

Lemma append_cons c s t : String c s +:+ t = String c (s +:+ t).
Proof. reflexivity. Qed.

Lemma substring_app_front t post :
  String.substring 0 (String.length t) (t +:+ post) = t.
Proof.
  induction t as [|c t IHt]; rewrite ?append_nil_l, ?append_cons; simpl;
    [by destruct post|by rewrite IHt].
Qed.

Lemma substring_app_middle pre t post :
  String.substring (String.length pre) (String.length t) (pre +:+ t +:+ post) = t.
Proof.
  induction pre as [|c pre IHpre]; rewrite ?append_nil_l, ?append_cons; simpl;
    [apply substring_app_front|done].
Qed.

Lemma substring_zero_split n s t :
  String.substring 0 n s = t → String.length t = n → ∃ post, s = t +:+ post.
Proof.
  revert s t. induction n as [|n IH]; intros s t; simpl.
  - destruct s; intros <-; eauto.
  - destruct s as [|c s]; [by intros <-|].
    intros <- [=Hn]. destruct (IH s _ eq_refl Hn) as [post Hpost].
    exists post. simpl. rewrite append_cons. by rewrite <-Hpost.
Qed.

Lemma substring_split m n s t :
  String.substring m n s = t → String.length t = n → Js.includes s t.
Proof.
  revert s. induction m as [|m IH]; intros s Hsub Hlen.
  - destruct (substring_zero_split n s t Hsub Hlen) as [post ->].
    by exists "", post.
  - destruct s as [|c s]; simpl in Hsub.
    + subst t. by exists "", "".
    + destruct (IH s Hsub Hlen) as (pre & post & ->).
      by exists (String c pre), post.
Qed.

Lemma indexOf_includes s needle :
  needle ≠ "" → ((Js.indexOf s needle > -1)%Z ↔ Js.includes s needle).
Proof.
  intros Hne. unfold Js.indexOf. split.
  - destruct (String.index 0 needle s) as [m|] eqn:Hidx; [|lia].
    intros _. apply String.index_correct1 in Hidx.
    by eapply substring_split.
  - intros (pre & post & ->).
    destruct (String.index 0 needle _) as [m|] eqn:Hidx; [lia|].
    exfalso. eapply (String.index_correct3 0 (String.length pre)); eauto.
    + lia.
    + apply substring_app_middle.
Qed.

Lemma protocolFunc_policy path type :
  (protocolFunc path type = Some CreateHlsStreamingProtocol
     ↔ hlsSignature path type) ∧
  (protocolFunc path type = Some CreateDashStreamingProtocol
     ↔ ¬ hlsSignature path type ∧ dashSignature path type) ∧
  (protocolFunc path type = Some CreateSmoothStreamingProtocol
     ↔ ¬ hlsSignature path type ∧ ¬ dashSignature path type
       ∧ smoothSignature path type) ∧
  (protocolFunc path type = None
     ↔ ¬ hlsSignature path type ∧ ¬ dashSignature path type
       ∧ ¬ smoothSignature path type).
Proof.
  pose proof (indexOf_includes path ".ism" ltac:(done)) as Hism.
  unfold protocolFunc, hlsSignature, dashSignature, smoothSignature.
  repeat case_decide; split_and!; split; try (intros ?; simplify_eq; tauto); try tauto.
Qed.

(** Claim C1.  The protocol chosen for a media description is a function
    of the path of its URL and of its content type alone, and follows the
    priority order of the policy: HLS exactly when the HLS signature
    matches; DASH exactly when HLS does not match and the DASH signature
    does; Smooth Streaming exactly when neither matches and the path
    includes [.ism] or the Smooth content type is given; the media
    element otherwise.  The extension is compared in lower case, so a
    path ending in [.M3U8] or [.Mpd] is selected like its lower-case
    spelling. *)
Theorem protocol_selection_policy (getPath_ : string → string)
    (m : MediaInformation) :
  let path := getPath_ (Js.orEmpty (contentId m)) in
  let type := Js.orEmpty (contentType m) in
  (selectProtocol getPath_ m = Some CreateHlsStreamingProtocol
     ↔ hlsSignature path type) ∧
  (selectProtocol getPath_ m = Some CreateDashStreamingProtocol
     ↔ ¬ hlsSignature path type ∧ dashSignature path type) ∧
  (selectProtocol getPath_ m = Some CreateSmoothStreamingProtocol
     ↔ ¬ hlsSignature path type ∧ ¬ dashSignature path type
       ∧ smoothSignature path type) ∧
  (selectProtocol getPath_ m = None
     ↔ ¬ hlsSignature path type ∧ ¬ dashSignature path type
       ∧ ¬ smoothSignature path type) ∧
  (∀ stem ext, stem ≠ "" → Js.lacks "." ext = true →
     path = stem +:+ String "." ext →
     (Js.toLowerCase ext = "m3u8" →
        selectProtocol getPath_ m = Some CreateHlsStreamingProtocol) ∧
     (Js.toLowerCase ext = "mpd" →
        type ≠ "application/x-mpegurl" →
        type ≠ "application/vnd.apple.mpegurl" →
        selectProtocol getPath_ m = Some CreateDashStreamingProtocol)).
Proof.
  intros path type. unfold selectProtocol. fold path type.
  destruct (protocolFunc_policy path type) as (Hh & Hd & Hs & Hn).
  split_and!; try done.
  intros stem ext Hstem Hl Hpath.
  assert (getExtension_ path = Js.toLowerCase ext) as Hext.
  { rewrite Hpath, (getExtension_last_dot stem ext Hl). by rewrite decide_False. }
  split.
  - intros Hlow. apply Hh. left. congruence.
  - intros Hlow Ht1 Ht2. apply Hd. split.
    + unfold hlsSignature. rewrite Hext, Hlow. intros [?|[?|?]]; done.
    + left. congruence.
Qed.

Lemma protocol_selection_policy_witness :
  let m := {| contentId := Some "/media/Video.M3U8"; contentType := None;
              streamType := None; metadata := None |} in
  "/media/Video" ≠ "" ∧ Js.lacks "." "M3U8" = true ∧
  Js.toLowerCase "M3U8" = "m3u8" ∧
  selectProtocol (λ url, url) m = Some CreateHlsStreamingProtocol.
Proof.
  intros m. split_and!; [discriminate|reflexivity|reflexivity|].
  exact (proj1 (proj2 (proj2 (proj2 (proj2
           (protocol_selection_policy (λ url, url) m))))
           "/media/Video" "M3U8" ltac:(discriminate) eq_refl eq_refl)
           eq_refl).
Defined.

Lemma orEmpty_Some s : Js.orEmpty (Some s) = s.
Proof. by destruct s. Qed.

Lemma prefix_app t post : String.prefix t (t +:+ post) = true.
Proof.
  induction t as [|c t IH]; rewrite ?append_nil_l, ?append_cons; simpl.
  - by destruct post.
  - by destruct (ascii_dec c c).
Qed.

Lemma extended_mime_differs mime suffix c :
  mime ∈ streamingMimes → c ∈ streamingMimes → suffix ≠ "" →
  mime +:+ suffix ≠ c.
Proof.
  unfold streamingMimes. intros Hm Hc Hs H.
  apply list_elem_of_In in Hm, Hc. simpl in Hm, Hc.
  destruct Hm as [<-|[<-|[<-|[<-|[]]]]];
    destruct Hc as [<-|[<-|[<-|[<-|[]]]]];
    vm_compute in H; simplify_eq.
Qed.

Lemma extended_mime_video getPath_ m mime suffix :
  mime ∈ streamingMimes → contentType m = Some (mime +:+ suffix) →
  getType_ getPath_ m = VIDEO.
Proof.
  unfold streamingMimes, getType_. intros Hm ->. rewrite orEmpty_Some.
  pose proof (λ t, proj2 (indexOf_zero_prefix (t +:+ suffix) t) (prefix_app t suffix)) as Hp.
  apply list_elem_of_In in Hm. simpl in Hm.
  destruct Hm as [<-|[<-|[<-|[<-|[]]]]];
    repeat case_decide; try done; exfalso; eauto.
Qed.

Lemma player_resetMediaElement_ p : player_ (resetMediaElement_ p) = None.
Proof. unfold resetMediaElement_. by destruct (player_ p) eqn:E. Qed.

(** Claim C9.  A content type that extends one of the streaming content
    types by a non-empty suffix is classified as video, because
    [getType_] compares by prefix, but matches none of the equality tests
    of [loadVideo_]; when the path has neither a matching extension nor
    [.ism] in it, the load takes the media-element path: the original
    load handler is called and no player is created. *)
Theorem extended_content_type_plays_natively (getPath_ : string → string)
    (m : MediaInformation) (mime suffix : string) :
  mime ∈ streamingMimes → suffix ≠ "" →
  contentType m = Some (mime +:+ suffix) →
  let path := getPath_ (Js.orEmpty (contentId m)) in
  getExtension_ path ≠ "m3u8" → getExtension_ path ≠ "mpd" →
  ¬ Js.includes path ".ism" →
  getType_ getPath_ m = VIDEO ∧ selectProtocol getPath_ m = None ∧
  ∀ info p, media (message info) = Some m → Js.truthy (contentId m) = true →
    player_ (load getPath_ info p) = None ∧
    last (calls (load getPath_ info p))
    = Some (OnLoadOrig {| etype := LOAD; data := message info;
                          eventSenderId := senderId info |}).
Proof.
  intros Hm Hs Hct path He1 He2 Hism.
  assert (getType_ getPath_ m = VIDEO) as Hty by by eapply extended_mime_video.
  assert (selectProtocol getPath_ m = None) as Hsel.
  { unfold selectProtocol. fold path. apply protocolFunc_policy.
    rewrite Hct, orEmpty_Some.
    unfold hlsSignature, dashSignature, smoothSignature.
    pose proof (λ c Hc, extended_mime_differs mime suffix c Hm Hc Hs) as Hne.
    unfold streamingMimes in Hne.
    split_and!; [intros [?|[?|?]]|intros [?|?]|intros [?|?]]; try done;
      (eapply Hne; [|done]); by repeat constructor. }
  split_and!; [done..|].
  intros info p Hmedia Htr. unfold load. rewrite Hmedia. simpl.
  rewrite Htr, Hty. simpl. unfold loadVideo_. rewrite Hmedia. simpl.
  rewrite Hsel. unfold preload_.
  destruct (Js.truthy (getMediaImageUrl_ m)); simpl;
    (split; [|by rewrite last_snoc]).
  all: apply player_resetMediaElement_.
Qed.

Lemma extended_content_type_witness :
  let m := {| contentId := Some "/live/stream";
              contentType := Some "application/x-mpegurl;charset=UTF-8";
              streamType := None; metadata := None |} in
  "application/x-mpegurl" ∈ streamingMimes ∧ ";charset=UTF-8" ≠ "" ∧
  getType_ (λ url, url) m = VIDEO ∧ selectProtocol (λ url, url) m = None.
Proof.
  intros m.
  assert ("application/x-mpegurl" ∈ streamingMimes) as Hmime
    by (by repeat constructor).
  assert (";charset=UTF-8" ≠ "") as Hsuffix by discriminate.
  assert (¬ Js.includes "/live/stream" ".ism") as Hism.
  { intros Hinc%indexOf_includes; [|done]. vm_compute in Hinc. discriminate. }
  destruct (extended_content_type_plays_natively (λ url, url) m
              "application/x-mpegurl" ";charset=UTF-8" Hmime Hsuffix eq_refl
              ltac:(vm_compute; discriminate) ltac:(vm_compute; discriminate)
              Hism) as (Hvideo & Hnative & _).
  done.
Defined.

Example protocol_ISM_upper : protocolFunc "/x.ISM/Manifest" "" = None.
Proof. reflexivity. Qed.

(** ** The idle timer *)

Lemma idleTimers_lookup p id t :
  idleTimers p !! id = Some t
  ↔ timers p !! id = Some t ∧ callback t = IdleCallback.
Proof. unfold idleTimers. by rewrite map_lookup_filter_Some. Qed.

Lemma keepsIdle_refl p : keepsIdle p p.
Proof. by repeat split. Qed.

Lemma keepsIdle_trans p q r : keepsIdle p q → keepsIdle q r → keepsIdle p r.
Proof.
  intros (Hs1 & Hi1 & Ht1) (Hs2 & Hi2 & Ht2).
  repeat split; [congruence..|]. eauto.
Qed.

Lemma keepsIdle_inv p p' : keepsIdle p p' → idleTimerInv p → idleTimerInv p'.
Proof.
  intros (Hs & Hi & Ht) Hinv id t Hl. rewrite Hs, Hi. eauto.
Qed.

Lemma keepsIdle_same p p' :
  state_ p' = state_ p → idleTimerId_ p' = idleTimerId_ p →
  timers p' = timers p → keepsIdle p p'.
Proof.
  intros Hs Hi Ht. repeat split; [done..|].
  intros id t. unfold idleTimers. by rewrite Ht.
Qed.

Lemma keepsIdle_clearTimeout id p : keepsIdle p (clearTimeout id p).
Proof.
  destruct id as [i|]; [|apply keepsIdle_refl].
  repeat split. intros id t. rewrite !idleTimers_lookup. simpl.
  intros [[_ ?]%lookup_delete_Some ?]. done.
Qed.

Lemma keepsIdle_setTimeout cb t p :
  cb ≠ IdleCallback → keepsIdle p (setTimeout cb t p).2.
Proof.
  intros Hcb. repeat split. intros id tm. rewrite !idleTimers_lookup. simpl.
  intros [[[_ <-]|[_ ?]]%lookup_insert_Some ?]; done.
Qed.

Lemma keepsIdle_call c p : keepsIdle p (call c p).
Proof. by apply keepsIdle_same. Qed.

Lemma keepsIdle_transition_ f p : keepsIdle p (transition_ f p).
Proof. by apply keepsIdle_same. Qed.

Lemma keepsIdle_updateApplicationState_ env p :
  keepsIdle p (updateApplicationState_ env p).
Proof.
  unfold updateApplicationState_.
  destruct (mediaManager_ p); [|apply keepsIdle_refl].
  case_decide; [by apply keepsIdle_same|apply keepsIdle_refl].
Qed.

Lemma keepsIdle_cancelPlayerAutoPlay_ p : keepsIdle p (cancelPlayerAutoPlay_ p).
Proof.
  unfold cancelPlayerAutoPlay_.
  destruct (playerAutoPlayTimerId_ p) as [i|]; [|apply keepsIdle_refl].
  eapply keepsIdle_trans; [apply (keepsIdle_clearTimeout (Some i))|].
  by apply keepsIdle_same.
Qed.

Lemma keepsIdle_resetMediaElement_ p : keepsIdle p (resetMediaElement_ p).
Proof.
  unfold resetMediaElement_.
  destruct (player_ p); [by apply keepsIdle_same|apply keepsIdle_refl].
Qed.

Lemma keepsIdle_onError_ e p : keepsIdle p (onError_ e p).
Proof. apply keepsIdle_transition_. Qed.

Lemma keepsIdle_onLoadMetadataError_ e p : keepsIdle p (onLoadMetadataError_ e p).
Proof. apply keepsIdle_transition_. Qed.

Lemma keepsIdle_hostOnError p : keepsIdle p (hostOnError p).
Proof.
  unfold hostOnError.
  destruct (player_ p); [by apply keepsIdle_same|apply keepsIdle_refl].
Qed.

Lemma keepsIdle_loadVideo_ getPath_ info p : keepsIdle p (loadVideo_ getPath_ info p).
Proof.
  unfold loadVideo_. destruct (selectProtocol _ _); by apply keepsIdle_same.
Qed.

Lemma keepsIdle_preload_ m p : keepsIdle p (preload_ m p).
Proof. unfold preload_. destruct (Js.truthy _); by apply keepsIdle_same. Qed.

Lemma keepsIdle_load getPath_ info p : keepsIdle p (load getPath_ info p).
Proof.
  unfold load.
  eapply keepsIdle_trans; [apply (keepsIdle_clearTimeout (idleTimerId_ p))|].
  destruct (negb _); [apply keepsIdle_onLoadMetadataError_|].
  case_decide; [apply keepsIdle_onLoadMetadataError_|].
  eapply keepsIdle_trans; [apply keepsIdle_resetMediaElement_|].
  eapply keepsIdle_trans; [|apply keepsIdle_preload_].
  destruct (getType_ _ _).
  - eapply keepsIdle_trans; [|apply keepsIdle_loadVideo_]. by apply keepsIdle_same.
  - by apply keepsIdle_same.
Qed.

Lemma keepsIdle_onLoad_ getPath_ ev p : keepsIdle p (onLoad_ getPath_ ev p).
Proof.
  unfold onLoad_.
  eapply keepsIdle_trans; [apply keepsIdle_cancelPlayerAutoPlay_|apply keepsIdle_load].
Qed.

Lemma keepsIdle_doPlayerAutoPlay_ env p : keepsIdle p (doPlayerAutoPlay_ env p).
Proof.
  unfold doPlayerAutoPlay_. destruct (Num.ge _ _); [by apply keepsIdle_same|].
  eapply keepsIdle_trans; [by apply (keepsIdle_setTimeout AutoPlayHandler)|].
  by apply keepsIdle_same.
Qed.

Lemma keepsIdle_onLoadSuccess_ env p : keepsIdle p (onLoadSuccess_ env p).
Proof.
  unfold onLoadSuccess_. destruct (player_ p); [|apply keepsIdle_refl].
  destruct (playerAutoPlay_ p); [|apply keepsIdle_refl].
  by apply keepsIdle_setTimeout.
Qed.

Lemma keepsIdle_onStop_ ev p : keepsIdle p (onStop_ ev p).
Proof.
  unfold onStop_.
  eapply keepsIdle_trans; [apply keepsIdle_cancelPlayerAutoPlay_|apply keepsIdle_transition_].
Qed.

Lemma keepsIdle_onVisibilityChanged_ v p : keepsIdle p (onVisibilityChanged_ v p).
Proof.
  unfold onVisibilityChanged_. destruct (negb v); [by apply keepsIdle_same|apply keepsIdle_refl].
Qed.

Lemma keepsIdle_onImageLoad i p : keepsIdle p (onImageLoad i p).
Proof.
  unfold onImageLoad. destruct (_ !! _); [by apply keepsIdle_same|apply keepsIdle_refl].
Qed.

Lemma keepsIdle_onSenderDisconnected_ senders event p :
  keepsIdle p (onSenderDisconnected_ senders event p).
Proof.
  unfold onSenderDisconnected_.
  destruct (_ && _); [apply keepsIdle_call|apply keepsIdle_refl].
Qed.

Lemma idleTimerInv_named p : idleTimerInv p → idleNamed p.
Proof. intros H id t Hl. by destruct (H id t Hl). Qed.

Lemma idleNamed_clear p :
  idleNamed p → idleTimers (clearTimeout (idleTimerId_ p) p) = ∅.
Proof.
  intros Hn. apply map_eq. intros i. rewrite lookup_empty.
  destruct (idleTimers _ !! i) as [t|] eqn:Hl; [exfalso|done].
  apply idleTimers_lookup in Hl as [Hl Hc].
  destruct (idleTimerId_ p) as [j|] eqn:Hj; simpl in Hl.
  - apply lookup_delete_Some in Hl as [Hne Hl].
    assert (Some j = Some i) by (rewrite <-Hj; eapply Hn, idleTimers_lookup; eauto).
    congruence.
  - assert (None = Some i) by (rewrite <-Hj; eapply Hn, idleTimers_lookup; eauto).
    done.
Qed.

Lemma setIdleTimeout_rearms state p :
  idleNamed p → rearmedFor state (setIdleTimeout_ (IDLE_TIMEOUT state) p).
Proof.
  intros Hn. pose proof (idleNamed_clear p Hn) as Hclr.
  unfold rearmedFor, setIdleTimeout_.
  destruct (IDLE_TIMEOUT state) as [ms|] eqn:Hms; [|done].
  rewrite decide_False by (by destruct state; simplify_eq/=).
  eexists. split; [done|]. unfold idleTimers in *. simpl.
  rewrite map_filter_insert_True by done. rewrite Hclr. done.
Qed.

Lemma setIdleTimeout_state_ o p : state_ (setIdleTimeout_ o p) = state_ p.
Proof.
  unfold setIdleTimeout_. destruct o as [ms|]; [case_decide|];
    by destruct (idleTimerId_ p).
Qed.

Lemma rearmedFor_inv p : rearmedFor (state_ p) p → idleTimerInv p.
Proof.
  unfold rearmedFor. intros H id t Hl.
  destruct (IDLE_TIMEOUT (state_ p)) as [ms|].
  - destruct H as (i & Hi & Hm). rewrite Hm in Hl.
    apply lookup_singleton_Some in Hl as [<- <-]. done.
  - by rewrite H in Hl.
Qed.

(** A completed transition: the non-crossfaded, undelayed [setState_]. *)
Lemma setState_completes env state p :
  idleNamed p →
  let p' := setState_ env state false None p in
  state_ p' = state ∧ rearmedFor state p'.
Proof.
  intros Hn p'. subst p'. unfold setState_. simpl.
  set (p1 := updateApplicationState_ env _).
  assert (idleNamed p1 ∧ state_ p1 = state) as [Hn1 Hs1].
  { subst p1.
    destruct (keepsIdle_updateApplicationState_ env
                (call (ElementSetState state)
                   (set_state_ state (clearTimeout (delay_ p) p))))
      as (Hs & Hi & Ht).
    destruct (keepsIdle_clearTimeout (delay_ p) p) as (_ & Hi' & Ht').
    split; [|by rewrite Hs].
    intros id t Hl. rewrite Hi. simpl. rewrite Hi'.
    apply Ht in Hl. eapply Hn, Ht', Hl. }
  split; [by rewrite setIdleTimeout_state_|by apply setIdleTimeout_rearms].
Qed.

Lemma inv_setState_ env state crossfade delay p :
  idleTimerInv p → idleTimerInv (setState_ env state crossfade delay p).
Proof.
  intros Hinv.
  destruct (decide (crossfade = false ∧ (delay = None ∨ delay = Some 0%Z)))
    as [[-> Hd]|Hnot].
  - assert (setState_ env state false delay p = setState_ env state false None p)
      as -> by (by destruct Hd as [->| ->]).
    destruct (setState_completes env state p (idleTimerInv_named _ Hinv)) as [Hs Hr].
    apply rearmedFor_inv. by rewrite Hs.
  - eapply keepsIdle_inv; [|done]. unfold setState_.
    eapply keepsIdle_trans; [apply (keepsIdle_clearTimeout (delay_ p))|].
    destruct delay as [d|]; [destruct (decide (d = 0%Z)) as [->|]|]; simpl.
    + destruct crossfade; [apply keepsIdle_transition_|]. exfalso. eauto.
    + eapply keepsIdle_trans;
        [by apply (keepsIdle_setTimeout (DelayCallback state crossfade) d)|].
      by apply keepsIdle_same.
    + destruct crossfade; [apply keepsIdle_transition_|]. exfalso. eauto.
Qed.

Lemma inv_keeps (f : CastPlayer → CastPlayer) p :
  idleTimerInv p → keepsIdle p (f p) → idleTimerInv (f p).
Proof. intros Hinv Hk. by eapply keepsIdle_inv. Qed.

Lemma inv_doPlayerAutoPlay_ env p :
  idleTimerInv p → idleTimerInv (doPlayerAutoPlay_ env p).
Proof.
  intros Hinv.
  by apply (inv_keeps (doPlayerAutoPlay_ env)), keepsIdle_doPlayerAutoPlay_.
Qed.

Lemma inv_runTimerCallback env cb p :
  idleTimerInv p → idleTimerInv (runTimerCallback env cb p).
Proof.
  intros Hinv. destruct cb; simpl.
  - by apply (inv_keeps (call ReceiverStop)), keepsIdle_call.
  - by apply inv_setState_.
  - destruct (_ && _); [by apply inv_doPlayerAutoPlay_|].
    by apply (inv_keeps (call MediaPlay)), keepsIdle_call.
  - by apply inv_doPlayerAutoPlay_.
Qed.

Lemma inv_fireTimer env id p : idleTimerInv p → idleTimerInv (fireTimer env id p).
Proof.
  intros Hinv. unfold fireTimer. destruct (timers p !! id); [|done].
  apply inv_runTimerCallback.
  by apply (inv_keeps (clearTimeout (Some id))), keepsIdle_clearTimeout.
Qed.

Lemma inv_runSomething env f p :
  idleTimerInv p → idleTimerInv (runSomething env f p).
Proof.
  intros Hinv.
  destruct f; simpl; [by apply inv_setState_|..];
    (eapply keepsIdle_inv; [apply keepsIdle_call|by apply inv_setState_]).
Qed.

Lemma inv_onTransitionEnd env p :
  idleTimerInv p → idleTimerInv (onTransitionEnd env p).
Proof.
  intros Hinv. unfold onTransitionEnd.
  assert (idleTimerInv (set_transitionEnd [] p)) as Hinv' by done.
  revert Hinv'. generalize (set_transitionEnd [] p). clear Hinv.
  induction (transitionEnd p) as [|f fs IH]; intros q Hq; simpl; [done|].
  by apply IH, inv_runSomething.
Qed.

Lemma inv_onBuffering_ env p : idleTimerInv p → idleTimerInv (onBuffering_ env p).
Proof.
  intros Hinv. unfold onBuffering_. destruct (_ && _); [|done].
  by apply inv_setState_.
Qed.

Lemma inv_onPause_ env p : idleTimerInv p → idleTimerInv (onPause_ env p).
Proof.
  intros Hinv. unfold onPause_. cbv zeta.
  pose proof (keepsIdle_inv _ _ (keepsIdle_cancelPlayerAutoPlay_ p) Hinv) as Hc.
  destruct (match player_ _ with Some _ => _ | None => _ end).
  - apply (inv_keeps (call (BroadcastStatus false))); [|apply keepsIdle_call].
    by apply inv_setState_.
  - destruct (_ && _); [by apply inv_setState_|done].
Qed.

Lemma inv_handle getPath_ env s p :
  idleTimerInv p → idleTimerInv (handle getPath_ env s p).
Proof.
  intros Hinv. destruct s; simpl.
  - by apply inv_setState_.
  - by apply (inv_keeps (onLoad_ getPath_ event)), keepsIdle_onLoad_.
  - by apply (inv_keeps (onStop_ event)), keepsIdle_onStop_.
  - by apply (inv_keeps (onError_ error)), keepsIdle_onError_.
  - by apply (inv_keeps (onLoadMetadataError_ info)), keepsIdle_onLoadMetadataError_.
  - by apply (inv_keeps hostOnError), keepsIdle_hostOnError.
  - apply inv_setState_.
    by apply (inv_keeps cancelPlayerAutoPlay_), keepsIdle_cancelPlayerAutoPlay_.
  - by apply inv_onPause_.
  - by apply inv_setState_.
  - unfold onProgress_. destruct (_ || _); [by apply inv_setState_|done].
  - by apply (inv_keeps (onLoadSuccess_ env)), keepsIdle_onLoadSuccess_.
  - induction (bufferingListeners p) as [|n IH]; simpl; [done|].
    by apply inv_onBuffering_.
  - by apply (inv_keeps (onVisibilityChanged_ isVisible)), keepsIdle_onVisibilityChanged_.
  - by apply inv_fireTimer.
  - by apply inv_onTransitionEnd.
  - by apply (inv_keeps (onImageLoad i)), keepsIdle_onImageLoad.
  - by apply (inv_keeps (onSenderDisconnected_ senders event)),
         keepsIdle_onSenderDisconnected_.
Qed.

Lemma inv_constructor env : idleTimerInv (constructor env).
Proof.
  apply rearmedFor_inv. simpl. exists 1%positive. split; [done|].
  unfold idleTimers. simpl. rewrite insert_empty.
  by rewrite map_filter_singleton_True.
Qed.

Lemma inv_run getPath_ sigs p :
  idleTimerInv p → idleTimerInv (run getPath_ sigs p).
Proof.
  revert p. induction sigs as [|[env s] sigs IH]; intros p Hinv; simpl; [done|].
  by apply IH, inv_handle.
Qed.

Lemma idleNamed_size p : idleNamed p → size (idleTimers p) ≤ 1.
Proof.
  intros Hn. rewrite <-size_dom.
  destruct (idleTimerId_ p) as [i|] eqn:Hi.
  - rewrite <-(size_singleton (C:=gset positive) i). apply subseteq_size.
    intros j [t Hj]%elem_of_dom. apply Hn in Hj. set_solver.
  - assert (dom (idleTimers p) = ∅) as ->; [|rewrite size_empty; lia].
    apply set_eq. intros j. split; [|set_solver].
    intros [t Hj]%elem_of_dom. apply Hn in Hj. congruence.
Qed.

(** ** Timer ids *)

Lemma timersGrow_refl p : timersGrow p p.
Proof. split; [lia|eauto]. Qed.

Lemma timersGrow_trans p q r : timersGrow p q → timersGrow q r → timersGrow p r.
Proof.
  intros [Hn1 Ht1] [Hn2 Ht2]. split; [lia|].
  intros id t Hl. destruct (Ht2 id t Hl) as [Hq|?]; [|right; lia].
  destruct (Ht1 id t Hq) as [?|?]; [by left|right; lia].
Qed.

Lemma timersGrow_fresh p p' : timersGrow p p' → timersFresh p → timersFresh p'.
Proof.
  intros [Hn Ht] Hf id t Hl. destruct (Ht id t Hl) as [Hp|?]; [|lia].
  specialize (Hf id t Hp). lia.
Qed.

Lemma timersGrow_same p p' :
  timers p' = timers p → nextTimerId p' = nextTimerId p → timersGrow p p'.
Proof. intros Ht Hn. split; [lia|]. intros id t. rewrite Ht. eauto. Qed.

Lemma timersGrow_clearTimeout id p : timersGrow p (clearTimeout id p).
Proof.
  destruct id as [i|]; [|apply timersGrow_refl].
  split; [simpl; lia|]. simpl. intros id t [_ ?]%lookup_delete_Some. eauto.
Qed.

Lemma timersGrow_setTimeout cb t p : timersGrow p (setTimeout cb t p).2.
Proof.
  split; [simpl; lia|]. simpl.
  intros id tm [[<- _]|[_ ?]]%lookup_insert_Some; [right; lia|eauto].
Qed.

Lemma timersGrow_setIdleTimeout_ o p : timersGrow p (setIdleTimeout_ o p).
Proof.
  unfold setIdleTimeout_.
  eapply timersGrow_trans; [apply (timersGrow_clearTimeout (idleTimerId_ p))|].
  destruct o as [ms|]; [|apply timersGrow_refl].
  case_decide; [apply timersGrow_refl|].
  eapply timersGrow_trans; [apply (timersGrow_setTimeout IdleCallback ms)|].
  by apply timersGrow_same.
Qed.

Lemma timersGrow_updateApplicationState_ env p :
  timersGrow p (updateApplicationState_ env p).
Proof.
  unfold updateApplicationState_.
  destruct (mediaManager_ p); [|apply timersGrow_refl].
  case_decide; [by apply timersGrow_same|apply timersGrow_refl].
Qed.

Lemma timersGrow_setState_ env state crossfade delay p :
  timersGrow p (setState_ env state crossfade delay p).
Proof.
  unfold setState_.
  eapply timersGrow_trans; [apply (timersGrow_clearTimeout (delay_ p))|].
  generalize (clearTimeout (delay_ p) p). intros q.
  destruct (match delay with Some _ => _ | None => _ end) as [d|].
  - eapply timersGrow_trans;
      [apply (timersGrow_setTimeout (DelayCallback state crossfade) d)|].
    by apply timersGrow_same.
  - destruct crossfade; simpl; [by apply timersGrow_same|].
    eapply timersGrow_trans; [|apply timersGrow_setIdleTimeout_].
    eapply timersGrow_trans; [|apply timersGrow_updateApplicationState_].
    by apply timersGrow_same.
Qed.

Lemma timersGrow_cancelPlayerAutoPlay_ p : timersGrow p (cancelPlayerAutoPlay_ p).
Proof.
  unfold cancelPlayerAutoPlay_.
  destruct (playerAutoPlayTimerId_ p) as [i|]; [|apply timersGrow_refl].
  eapply timersGrow_trans; [apply (timersGrow_clearTimeout (Some i))|].
  by apply timersGrow_same.
Qed.

Lemma timersGrow_resetMediaElement_ p : timersGrow p (resetMediaElement_ p).
Proof.
  unfold resetMediaElement_.
  destruct (player_ p); [by apply timersGrow_same|apply timersGrow_refl].
Qed.

Lemma timersGrow_loadVideo_ getPath_ info p :
  timersGrow p (loadVideo_ getPath_ info p).
Proof.
  unfold loadVideo_. destruct (selectProtocol _ _); by apply timersGrow_same.
Qed.

Lemma timersGrow_preload_ m p : timersGrow p (preload_ m p).
Proof. unfold preload_. destruct (Js.truthy _); by apply timersGrow_same. Qed.

Lemma timersGrow_load getPath_ info p : timersGrow p (load getPath_ info p).
Proof.
  unfold load.
  eapply timersGrow_trans; [apply (timersGrow_clearTimeout (idleTimerId_ p))|].
  generalize (clearTimeout (idleTimerId_ p) p). intros q.
  destruct (negb _); [by apply timersGrow_same|].
  case_decide; [by apply timersGrow_same|].
  eapply timersGrow_trans; [apply timersGrow_resetMediaElement_|].
  eapply timersGrow_trans; [|apply timersGrow_preload_].
  destruct (getType_ _ _).
  - eapply timersGrow_trans; [|apply timersGrow_loadVideo_].
    by apply timersGrow_same.
  - by apply timersGrow_same.
Qed.

Lemma timersGrow_doPlayerAutoPlay_ env p : timersGrow p (doPlayerAutoPlay_ env p).
Proof.
  unfold doPlayerAutoPlay_. destruct (Num.ge _ _); [by apply timersGrow_same|].
  eapply timersGrow_trans;
    [apply (timersGrow_setTimeout AutoPlayHandler PUMP_POLLING_INTERVAL_)|].
  by apply timersGrow_same.
Qed.

Lemma timersGrow_runTimerCallback env cb p :
  timersGrow p (runTimerCallback env cb p).
Proof.
  destruct cb; simpl.
  - by apply timersGrow_same.
  - apply timersGrow_setState_.
  - destruct (_ && _); [apply timersGrow_doPlayerAutoPlay_|by apply timersGrow_same].
  - apply timersGrow_doPlayerAutoPlay_.
Qed.

Lemma timersGrow_call c p q : timersGrow p q → timersGrow p (call c q).
Proof.
  intros Hq. eapply timersGrow_trans; [exact Hq|]. by apply timersGrow_same.
Qed.

Lemma timersGrow_runSomething env f p : timersGrow p (runSomething env f p).
Proof.
  destruct f; simpl; [apply timersGrow_setState_|..];
    apply timersGrow_call, timersGrow_setState_.
Qed.

Lemma timersGrow_onTransitionEnd env p : timersGrow p (onTransitionEnd env p).
Proof.
  unfold onTransitionEnd.
  eapply timersGrow_trans; [by apply (timersGrow_same p (set_transitionEnd [] p))|].
  generalize (set_transitionEnd [] p). intros q.
  revert q. induction (transitionEnd p) as [|f fs IH]; intros q; simpl;
    [apply timersGrow_refl|].
  eapply timersGrow_trans; [apply timersGrow_runSomething|apply IH].
Qed.

Lemma timersGrow_onBuffering_ env p : timersGrow p (onBuffering_ env p).
Proof.
  unfold onBuffering_.
  destruct (_ && _); [apply timersGrow_setState_|apply timersGrow_refl].
Qed.

Lemma timersGrow_handle getPath_ env s p : timersGrow p (handle getPath_ env s p).
Proof.
  destruct s; simpl.
  - apply timersGrow_setState_.
  - eapply timersGrow_trans;
      [apply timersGrow_cancelPlayerAutoPlay_|apply timersGrow_load].
  - eapply timersGrow_trans;
      [apply timersGrow_cancelPlayerAutoPlay_|by apply timersGrow_same].
  - by apply timersGrow_same.
  - by apply timersGrow_same.
  - unfold hostOnError. destruct (player_ p);
      [by apply timersGrow_same|apply timersGrow_refl].
  - eapply timersGrow_trans;
      [apply timersGrow_cancelPlayerAutoPlay_|apply timersGrow_setState_].
  - unfold onPause_. cbv zeta.
    eapply timersGrow_trans; [apply timersGrow_cancelPlayerAutoPlay_|].
    generalize (cancelPlayerAutoPlay_ p). intros q.
    destruct (match player_ q with Some _ => _ | None => _ end).
    + apply timersGrow_call, timersGrow_setState_.
    + destruct (_ && _); [apply timersGrow_setState_|apply timersGrow_refl].
  - apply timersGrow_setState_.
  - unfold onProgress_.
    destruct (_ || _); [apply timersGrow_setState_|apply timersGrow_refl].
  - unfold onLoadSuccess_. destruct (player_ p); [|apply timersGrow_refl].
    destruct (playerAutoPlay_ p); [|apply timersGrow_refl].
    apply timersGrow_setTimeout.
  - induction (bufferingListeners p) as [|n IH]; simpl; [apply timersGrow_refl|].
    eapply timersGrow_trans; [apply IH|apply timersGrow_onBuffering_].
  - unfold onVisibilityChanged_.
    destruct (negb _); [by apply timersGrow_same|apply timersGrow_refl].
  - unfold fireTimer. destruct (timers p !! id); [|apply timersGrow_refl].
    eapply timersGrow_trans; [apply (timersGrow_clearTimeout (Some id))|].
    apply timersGrow_runTimerCallback.
  - apply timersGrow_onTransitionEnd.
  - unfold onImageLoad.
    destruct (_ !! _); [by apply timersGrow_same|apply timersGrow_refl].
  - unfold onSenderDisconnected_.
    destruct (_ && _); [by apply timersGrow_same|apply timersGrow_refl].
Qed.

Lemma timersFresh_constructor env : timersFresh (constructor env).
Proof.
  intros id t. simpl. rewrite insert_empty.
  intros [<- _]%lookup_singleton_Some. done.
Qed.

Lemma timersFresh_run getPath_ sigs p :
  timersFresh p → timersFresh (run getPath_ sigs p).
Proof.
  revert p. induction sigs as [|[env s] sigs IH]; intros p Hf; simpl; [done|].
  apply IH. eapply timersGrow_fresh; [apply timersGrow_handle|done].
Qed.

(** Claim C2.  After any sequence of signals from the constructed player
    at most one idle timer is pending, it is the one [idleTimerId_]
    names and it runs for the time the table gives for the current
    state; the ids of pending timers are never handed out again.
    Completing a transition sets the state and leaves exactly
    the idle timer of the new state pending: 5 minutes for launching,
    loading, done and idle, 20 minutes for paused, 30 seconds for
    stalled, and none for buffering and playing. *)
Theorem idle_timer_policy :
  (∀ (getPath_ : string → string) env0 sigs,
     let p := run getPath_ sigs (constructor env0) in
     size (idleTimers p) ≤ 1 ∧ idleTimerInv p ∧ timersFresh p) ∧
  (∀ p env state,
     idleTimerInv p →
     let p' := setState_ env state false None p in
     state_ p' = state ∧ rearmedFor state p' ∧ idleTimerInv p') ∧
  IDLE_TIMEOUT LAUNCHING = Some (5 * 60 * 1000)%Z ∧
  IDLE_TIMEOUT LOADING = Some (5 * 60 * 1000)%Z ∧
  IDLE_TIMEOUT DONE = Some (5 * 60 * 1000)%Z ∧
  IDLE_TIMEOUT IDLE = Some (5 * 60 * 1000)%Z ∧
  IDLE_TIMEOUT PAUSED = Some (20 * 60 * 1000)%Z ∧
  IDLE_TIMEOUT STALLED = Some (30 * 1000)%Z ∧
  IDLE_TIMEOUT BUFFERING = None ∧
  IDLE_TIMEOUT PLAYING = None.
Proof.
  split_and!; try reflexivity.
  - intros getPath_ env0 sigs p.
    assert (idleTimerInv p) as Hinv by (subst p; apply inv_run, inv_constructor).
    split_and!; [|done|subst p; apply timersFresh_run, timersFresh_constructor].
    by apply idleNamed_size, idleTimerInv_named.
  - intros p env state Hinv p'.
    destruct (setState_completes env state p (idleTimerInv_named _ Hinv)) as [Hs Hr].
    split_and!; [done..|]. by apply inv_setState_.
Qed.

Lemma idle_timer_policy_witness :
  let p := setState_ env0 PAUSED false None (constructor env0) in
  idleTimerInv (constructor env0) ∧
  state_ p = PAUSED ∧
  idleTimers p = {[ 2%positive := {| delay := 1200000; callback := IdleCallback |} ]}.
Proof.
  intros p.
  destruct idle_timer_policy as (Hreach & Hstep & _).
  pose proof (proj1 (proj2 (Hreach (λ url, url) env0 []))) as Hinv.
  change (idleTimerInv (constructor env0)) in Hinv.
  destruct (Hstep (constructor env0) env0 PAUSED Hinv) as (Hs & Hr & _).
  fold p in Hs, Hr. destruct Hr as (id & Hid & Hr).
  split_and!; [done..|].
  rewrite Hr. vm_compute in Hid. by simplify_eq.
Defined.

(** ** State transitions *)

Lemma state_setState_ env state p :
  state_ (setState_ env state false None p) = state.
Proof.
  unfold setState_. simpl. rewrite setIdleTimeout_state_.
  by destruct (keepsIdle_updateApplicationState_ env
                 (call (ElementSetState state)
                    (set_state_ state (clearTimeout (delay_ p) p)))) as [-> _].
Qed.

Lemma player_clearTimeout id p : player_ (clearTimeout id p) = player_ p.
Proof. by destruct id. Qed.

Lemma calls_clearTimeout id p : calls (clearTimeout id p) = calls p.
Proof. by destruct id. Qed.

Lemma state_cancelPlayerAutoPlay_ p : state_ (cancelPlayerAutoPlay_ p) = state_ p.
Proof. unfold cancelPlayerAutoPlay_. by destruct (playerAutoPlayTimerId_ p). Qed.

Lemma player_cancelPlayerAutoPlay_ p : player_ (cancelPlayerAutoPlay_ p) = player_ p.
Proof. unfold cancelPlayerAutoPlay_. by destruct (playerAutoPlayTimerId_ p). Qed.

Lemma calls_cancelPlayerAutoPlay_ p : calls (cancelPlayerAutoPlay_ p) = calls p.
Proof. unfold cancelPlayerAutoPlay_. by destruct (playerAutoPlayTimerId_ p). Qed.

(** Claim C5.  On a pause signal: with a backend that reports underflow
    the state becomes buffering and the last call is a status broadcast
    without media; otherwise, in the idle state or with the play position
    equal to the duration, the state and the trace stay as they are;
    otherwise the state becomes paused. *)
Theorem pause_signal (env : Env) (p : CastPlayer) :
  let isUnderflow := match player_ p with
                     | Some _ => underflow env
                     | None => false
                     end in
  let isDone := Num.eq (currentTime env) (duration env) in
  let p' := onPause_ env p in
  (isUnderflow = true →
     state_ p' = BUFFERING ∧ last (calls p') = Some (BroadcastStatus false)) ∧
  (isUnderflow = false → state_ p = IDLE ∨ isDone = true →
     state_ p' = state_ p ∧ calls p' = calls p) ∧
  (isUnderflow = false → state_ p ≠ IDLE → isDone = false →
     state_ p' = PAUSED).
Proof.
  intros isUnderflow isDone p'. subst p'. unfold onPause_. cbv zeta.
  rewrite player_cancelPlayerAutoPlay_, state_cancelPlayerAutoPlay_.
  fold isUnderflow isDone. split_and!.
  - intros ->. split; [apply state_setState_|]. simpl. apply last_snoc.
  - intros -> Hnoop.
    assert (negb (bool_decide (state_ p = IDLE)) && negb isDone = false) as ->.
    { destruct Hnoop as [->| ->]; [done|]. apply andb_false_r. }
    by rewrite state_cancelPlayerAutoPlay_, calls_cancelPlayerAutoPlay_.
  - intros -> Hidle ->. rewrite bool_decide_eq_false_2 by done.
    cbn [negb andb]. apply state_setState_.
Qed.

Lemma pause_signal_witness :
  let env := {| currentTime := Num.ofZ 7; duration := Num.ofZ 60;
                buffered := []; readyState := 4; underflow := true;
                mediaInformation := None |} in
  let host := {| hostUrl := "/a.m3u8"; protocol := CreateHlsStreamingProtocol |} in
  let p := set_player_ (Some host) (set_state_ PLAYING (constructor env)) in
  state_ (onPause_ env p) = BUFFERING ∧
  last (calls (onPause_ env p)) = Some (BroadcastStatus false).
Proof.
  intros env host p.
  exact (proj1 (pause_signal env p) eq_refl).
Defined.

(** Claim C8.  A progress signal in the playing state changes nothing:
    the player, its state, its timers and its trace are as before, so no
    idle timer is started and no application state is broadcast.
    Besides, [updateApplicationState_] does nothing when the string it
    computes is the one broadcast last. *)
Theorem progress_while_playing (env : Env) (p : CastPlayer) :
  state_ p = PLAYING →
  let p' := onProgress_ env p in
  p' = p ∧ state_ p' = PLAYING ∧ timers p' = timers p ∧
  idleTimerId_ p' = idleTimerId_ p ∧ calls p' = calls p ∧
  (applicationState_ p = Some (getApplicationState_ (mediaInformation env)) →
   updateApplicationState_ env p = p).
Proof.
  intros Hs p'. subst p'. unfold onProgress_. rewrite Hs. simpl.
  split_and!; [done..|].
  intros Happ. unfold updateApplicationState_. rewrite Hs. simpl.
  destruct (mediaManager_ p); [|done]. by rewrite decide_False by (by intros []).
Qed.

Lemma progress_while_playing_witness :
  let p := set_state_ PLAYING (constructor env0) in
  state_ p = PLAYING ∧ onProgress_ env0 p = p.
Proof.
  intros p. split; [reflexivity|].
  exact (proj1 (progress_while_playing env0 p eq_refl)).
Defined.

(** ** Auto-play *)

(** ** Rounding to the nearest double *)


Lemma scaled_nonneg n d e :
  (0 < n)%Z → (0 < d)%Z →
  (0 < (Double.scaled n d e).1)%Z ∧ (0 < (Double.scaled n d e).2)%Z.
Proof.
  intros Hn Hd. unfold Double.scaled.
  destruct (Z.leb_spec 0 e); simpl; split; try done.
  - apply Z.mul_pos_pos; [done|]. by apply Z.pow_pos_nonneg.
  - apply Z.mul_pos_pos; [done|]. apply Z.pow_pos_nonneg; lia.
Qed.

Lemma atLeastPow2_mono n d k k' :
  (0 < n)%Z → (0 < d)%Z → (k' ≤ k)%Z →
  Double.atLeastPow2 k n d = true → Double.atLeastPow2 k' n d = true.
Proof.
  intros Hn Hd Hk. unfold Double.atLeastPow2, Double.scaled.
  destruct (Z.leb_spec 0 k), (Z.leb_spec 0 k'); try lia;
    intros Hle%Z.leb_le; apply Z.leb_le.
  - assert (2 ^ k' ≤ 2 ^ k)%Z by (apply Z.pow_le_mono_r; lia). nia.
  - assert (0 < 2 ^ k)%Z by (by apply Z.pow_pos_nonneg).
    assert (0 < 2 ^ (- k'))%Z by (apply Z.pow_pos_nonneg; lia). nia.
  - assert (2 ^ (- k) ≤ 2 ^ (- k'))%Z by (apply Z.pow_le_mono_r; lia). nia.
Qed.

Lemma ilog2_lower n d :
  (0 < n)%Z → (0 < d)%Z → Double.atLeastPow2 (Double.ilog2 n d) n d = true.
Proof.
  intros Hn Hd. unfold Double.ilog2.
  destruct (Double.atLeastPow2 (Z.log2 n - Z.log2 d) n d) eqn:E; [done|].
  clear E. unfold Double.atLeastPow2, Double.scaled.
  destruct (Z.log2_spec n Hn) as [Hn1 _].
  destruct (Z.log2_spec d Hd) as [_ Hd2].
  pose proof (Z.log2_nonneg n) as Ha. pose proof (Z.log2_nonneg d) as Hb.
  set (a := Z.log2 n) in *. set (b := Z.log2 d) in *.
  destruct (Z.leb_spec 0 (a - b - 1)); apply Z.leb_le.
  - assert (2 ^ a = 2 ^ (Z.succ b) * 2 ^ (a - b - 1))%Z as Hp
      by (rewrite <-Z.pow_add_r by lia; f_equal; lia).
    assert (0 < 2 ^ (a - b - 1))%Z by (by apply Z.pow_pos_nonneg). nia.
  - assert (2 ^ (Z.succ b) = 2 ^ a * 2 ^ (- (a - b - 1)))%Z as Hp
      by (rewrite <-Z.pow_add_r by lia; f_equal; lia).
    assert (0 < 2 ^ (- (a - b - 1)))%Z by (apply Z.pow_pos_nonneg; lia). nia.
Qed.

Lemma rne_lower N D : (0 < D)%Z → (N / D ≤ Double.rne N D)%Z.
Proof.
  intros HD. unfold Double.rne. generalize (N / D)%Z. intros q.
  destruct (2 * (N mod D) ?= D)%Z; [destruct (Z.even _)|..]; lia.
Qed.

Lemma rne_upper N D : (0 < D)%Z → (Double.rne N D ≤ N / D + 1)%Z.
Proof.
  intros HD. unfold Double.rne. generalize (N / D)%Z. intros q.
  destruct (2 * (N mod D) ?= D)%Z; [destruct (Z.even _)|..]; lia.
Qed.

Lemma value_pos m e : (0 < m)%Z → (0 < Double.value m e)%Qc.
Proof.
  intros Hm. unfold Double.value, Qclt.
  change (this (Q2Qc ?x)) with (Qred x). rewrite !Qred_correct.
  destruct (Z.leb_spec 0 e); unfold Qlt; simpl.
  - assert (0 < m * 2 ^ e)%Z
      by (apply Z.mul_pos_pos; [lia|by apply Z.pow_pos_nonneg]).
    lia.
  - lia.
Qed.

(** A positive rational that is at least the least positive double is
    rounded to a positive double or to infinity. *)
Lemma roundPos_pos n d :
  (0 < n)%Z → (0 < d)%Z → Double.atLeastPow2 (-1074) n d = true →
  match Double.roundPos n d with Some r => (0 < r)%Qc | None => True end.
Proof.
  intros Hn Hd Hgrid. unfold Double.roundPos.
  set (e := Double.exponent n d).
  assert (Double.atLeastPow2 e n d = true) as He.
  { subst e. unfold Double.exponent.
    destruct (Z.max_spec (Double.ilog2 n d - 52) (-1074)) as [[_ ->]|[_ ->]];
      [done|].
    apply (atLeastPow2_mono n d (Double.ilog2 n d)); [done|done|lia|].
    by apply ilog2_lower. }
  unfold Double.atLeastPow2 in He.
  destruct (scaled_nonneg n d e Hn Hd) as [HN HD].
  destruct (Double.scaled n d e) as [N D]. simpl in *.
  apply Z.leb_le in He.
  destruct (2 ^ 1024 <=? _)%Z; [done|].
  apply value_pos. pose proof (rne_lower N D HD).
  assert (1 ≤ N / D)%Z by (apply Z.div_le_lower_bound; lia). lia.
Qed.

Lemma ilog2_upper n d :
  (0 < n)%Z → (0 < d)%Z → Double.atLeastPow2 (Double.ilog2 n d + 1) n d = false.
Proof.
  intros Hn Hd. unfold Double.ilog2.
  destruct (Double.atLeastPow2 (Z.log2 n - Z.log2 d) n d) eqn:E;
    [|by replace (Z.log2 n - Z.log2 d - 1 + 1)%Z with (Z.log2 n - Z.log2 d)%Z by lia].
  clear E. unfold Double.atLeastPow2, Double.scaled.
  destruct (Z.log2_spec n Hn) as [_ Hn2].
  destruct (Z.log2_spec d Hd) as [Hd1 _].
  pose proof (Z.log2_nonneg n) as Ha. pose proof (Z.log2_nonneg d) as Hb.
  set (a := Z.log2 n) in *. set (b := Z.log2 d) in *.
  destruct (Z.leb_spec 0 (a - b + 1)); apply Z.leb_gt.
  - assert (2 ^ (Z.succ a) = 2 ^ b * 2 ^ (a - b + 1))%Z as Hp
      by (rewrite <-Z.pow_add_r by lia; f_equal; lia).
    assert (0 < 2 ^ (a - b + 1))%Z by (by apply Z.pow_pos_nonneg). nia.
  - assert (2 ^ b = 2 ^ (Z.succ a) * 2 ^ (- (a - b + 1)))%Z as Hp
      by (rewrite <-Z.pow_add_r by lia; f_equal; lia).
    assert (0 < 2 ^ (- (a - b + 1)))%Z by (apply Z.pow_pos_nonneg; lia). nia.
Qed.

(** Rounding reaches an even integer exactly from half below it on. *)
Lemma rne_ge_even N D K :
  (0 < D)%Z → Z.even K = true →
  (K ≤ Double.rne N D)%Z ↔ ((2 * K - 1) * D ≤ 2 * N)%Z.
Proof.
  intros HD HK. unfold Double.rne.
  pose proof (Z.div_mod N D ltac:(lia)) as Hdm.
  pose proof (Z.mod_pos_bound N D HD) as Hr.
  set (q := (N / D)%Z) in *. set (r := (N mod D)%Z) in *.
  apply Z.even_spec in HK as [K' ->].
  destruct (Z.compare_spec (2 * r) D) as [Heq|Hlt|Hgt].
  - destruct (Z.even q) eqn:Hq.
    + apply Z.even_spec in Hq as [q' Hq']. nia.
    + assert (Z.odd q = true) as [q' Hq']%Z.odd_spec
        by (by rewrite <-Z.negb_even, Hq). nia.
  - nia.
  - nia.
Qed.

Lemma value_ge m e c :
  (Qc_of_Z c ≤ Double.value m e)%Qc
  ↔ if (0 <=? e)%Z then (c ≤ m * 2 ^ e)%Z else (c * 2 ^ (- e) ≤ m)%Z.
Proof.
  unfold Double.value, Qcle.
  change (this (Q2Qc ?x)) with (Qred x). rewrite !Qred_correct.
  destruct (Z.leb_spec 0 e); unfold Qle; simpl.
  - lia.
  - assert (0 < 2 ^ (- e))%Z by (apply Z.pow_pos_nonneg; lia).
    rewrite Z2Pos.id by done. lia.
Qed.

Lemma roundPos_reaches5 n d :
  (0 < n)%Z → (0 < d)%Z →
  match Double.roundPos n d with
  | Some r => (Qc_of_Z 5 ≤ r)%Qc
  | None => True
  end ↔ ((5 * 2 ^ 51 - 1) * d ≤ 2 ^ 51 * n)%Z.
Proof.
  intros Hn Hd.
  pose proof (ilog2_lower n d Hn Hd) as Hlo.
  pose proof (ilog2_upper n d Hn Hd) as Hhi.
  unfold Double.roundPos, Double.exponent.
  set (k := Double.ilog2 n d) in *. clearbody k.
  change (2 ^ 51)%Z with 2251799813685248%Z.
  destruct (Z_lt_le_dec k 2) as [Hk|Hk]; [|destruct (Z_lt_le_dec 2 k) as [Hk'|Hk']].
  - (* below 4 *)
    assert (n < 4 * d)%Z as Hlt.
    { destruct (Double.atLeastPow2 2 n d) eqn:E.
      - rewrite (atLeastPow2_mono n d 2 (k + 1)) in Hhi by (done || lia). done.
      - unfold Double.atLeastPow2, Double.scaled in E. simpl in E.
        apply Z.leb_gt in E. lia. }
    set (e := Z.max (k - 52) (-1074)).
    assert (e < 0)%Z as He by lia.
    unfold Double.scaled. rewrite (proj2 (Z.leb_gt 0 e) He).
    rewrite (Z.pow_neg_r 2 e He), Z.mul_0_r. change (2 ^ 1024 <=? 0)%Z with false. cbv iota.
    rewrite value_ge, (proj2 (Z.leb_gt 0 e) He).
    assert (0 < 2 ^ (- e))%Z as HP by (apply Z.pow_pos_nonneg; lia).
    set (P := (2 ^ (- e))%Z) in *.
    pose proof (rne_upper (n * P) d Hd) as Hm.
    assert (n * P / d < 4 * P)%Z by (apply Z.div_lt_upper_bound; nia).
    split; intros; lia.
  - (* from 8 on *)
    assert (8 * d ≤ n)%Z as Hge.
    { pose proof (atLeastPow2_mono n d k 3 Hn Hd ltac:(lia) Hlo) as E.
      unfold Double.atLeastPow2, Double.scaled in E. simpl in E.
      apply Z.leb_le in E. lia. }
    split; [intros _; lia|intros _].
    rewrite Z.max_l by lia. set (e := (k - 52)%Z) in *.
    unfold Double.scaled. destruct (Z.leb_spec 0 e) as [He|He]; cbv beta iota zeta.
    + destruct (2 ^ 1024 <=? _)%Z; [done|].
      rewrite value_ge, (proj2 (Z.leb_le 0 e) He).
      unfold Double.atLeastPow2, Double.scaled in Hlo.
      rewrite (proj2 (Z.leb_le 0 k)) in Hlo by lia. apply Z.leb_le in Hlo.
      replace k with (e + 52)%Z in Hlo by lia.
      rewrite Z.pow_add_r in Hlo by lia.
      assert (0 < 2 ^ e)%Z as HP by (by apply Z.pow_pos_nonneg).
      change (2 ^ 52)%Z with 4503599627370496%Z in Hlo.
      set (P := (2 ^ e)%Z) in *.
      pose proof (rne_lower n (d * P) ltac:(nia)) as Hm.
      assert (4503599627370496 ≤ n / (d * P))%Z
        by (apply Z.div_le_lower_bound; nia).
      nia.
    + rewrite (Z.pow_neg_r 2 e He), Z.mul_0_r. change (2 ^ 1024 <=? 0)%Z with false. cbv iota.
      rewrite value_ge, (proj2 (Z.leb_gt 0 e) He).
      assert (0 < 2 ^ (- e))%Z as HP by (apply Z.pow_pos_nonneg; lia).
      set (P := (2 ^ (- e))%Z) in *.
      pose proof (rne_lower (n * P) d Hd) as Hm.
      assert (8 * P ≤ n * P / d)%Z by (apply Z.div_le_lower_bound; nia).
      lia.
  - (* from 4 up to 8: the last place is 2 ^ -50 *)
    assert (k = 2%Z) as -> by lia.
    change (Z.max (2 - 52) (-1074)) with (-50)%Z.
    unfold Double.scaled. change (0 <=? -50)%Z with false. cbv beta iota zeta.
    change (2 ^ (-50))%Z with 0%Z. rewrite Z.mul_0_r.
    change (2 ^ 1024 <=? 0)%Z with false. cbv iota.
    rewrite value_ge. change (0 <=? -50)%Z with false.
    cbv iota. change (2 ^ (- (-50)))%Z with 1125899906842624%Z.
    rewrite (rne_ge_even (n * 1125899906842624) d (5 * 1125899906842624))
      by (done || reflexivity).
    lia.
Qed.

Lemma this_Q2Qc (x : Q) : this (Q2Qc x) = Qred x.
Proof. reflexivity. Qed.

Lemma Qc_pos_num (x : Qc) : (0 < x)%Qc → (0 < Qnum x)%Z.
Proof. intros Hx. unfold Qclt, Qlt in Hx. simpl in Hx. lia. Qed.

(** The double nearest to a positive difference is at least 5 exactly
    when the difference is at least [leastLeadPumped]. *)
Lemma round_reaches (x : Qc) :
  (0 < x)%Qc →
  Num.ge (Double.round x) (Fin INITIAL_PUMP_DURATION_) = true
  ↔ (leastLeadPumped ≤ x)%Qc.
Proof.
  intros Hx.
  pose proof (Qc_pos_num x Hx) as Hn.
  assert (Num.ge (Double.round x) (Fin INITIAL_PUMP_DURATION_) = true
          ↔ match Double.roundPos (Qnum x) (Zpos (Qden x)) with
            | Some r => (Qc_of_Z 5 ≤ r)%Qc
            | None => True
            end) as ->.
  { unfold Double.round. destruct (Qnum x) as [|n|n]; try lia.
    destruct (Double.roundPos _ _) as [r|]; [|done].
    unfold Num.ge, Num.le, Num.lt, Num.eq, INITIAL_PUMP_DURATION_.
    rewrite Qcle_alt.
    destruct (Qc_of_Z 5 ?= r)%Qc; simpl; split; done. }
  rewrite roundPos_reaches5 by lia.
  unfold Qcle.
  change (this leastLeadPumped) with (11258999068426239 # 2251799813685248).
  unfold Qle. simpl. lia.
Qed.

Lemma doPlayerAutoPlay_wait env p :
  hasEnoughDataPumped env = false →
  pollPending (doPlayerAutoPlay_ env p) ∧ calls (doPlayerAutoPlay_ env p) = calls p.
Proof.
  unfold doPlayerAutoPlay_, hasEnoughDataPumped. intros ->. simpl.
  split; [|done]. eexists. split; [done|]. simpl. apply lookup_insert_eq.
Qed.

Lemma doPlayerAutoPlay_play env p :
  hasEnoughDataPumped env = true →
  playerAutoPlayTimerId_ (doPlayerAutoPlay_ env p) = None ∧
  calls (doPlayerAutoPlay_ env p) = calls p ++ [MediaPlay] ∧
  timers (doPlayerAutoPlay_ env p) = timers p.
Proof. unfold doPlayerAutoPlay_, hasEnoughDataPumped. by intros ->. Qed.

Lemma firePoll_wait env p :
  pollPending p → hasEnoughDataPumped env = false →
  pollPending (firePoll env p) ∧ calls (firePoll env p) = calls p.
Proof.
  intros (id & Hid & Ht) Henv. unfold firePoll, fireTimer. rewrite Hid, Ht.
  simpl.
  by destruct (doPlayerAutoPlay_wait env (set_timers (delete id (timers p)) p) Henv).
Qed.

Lemma firePoll_play env p :
  pollPending p → hasEnoughDataPumped env = true →
  playerAutoPlayTimerId_ (firePoll env p) = None ∧
  calls (firePoll env p) = calls p ++ [MediaPlay].
Proof.
  intros (id & Hid & Ht) Henv. unfold firePoll, fireTimer. rewrite Hid, Ht.
  simpl. destruct (doPlayerAutoPlay_play env (set_timers (delete id (timers p)) p) Henv)
    as (? & ? & ?). done.
Qed.

Lemma polls_wait envs p :
  pollPending p → Forall (λ env, hasEnoughDataPumped env = false) envs →
  pollPending (foldl (λ p env, firePoll env p) p envs) ∧
  calls (foldl (λ p env, firePoll env p) p envs) = calls p.
Proof.
  intros Hp Hall. revert p Hp.
  induction Hall as [|env envs Henv _ IH]; intros p Hp; simpl; [done|].
  destruct (firePoll_wait env p Hp Henv) as [Hp' Hc'].
  destruct (IH _ Hp') as [? ?]. split; [done|congruence].
Qed.

Lemma bufferedFrom_none ranges t :
  Forall (λ range, holds t range = false) ranges →
  bufferedFrom ranges t = Num.ofZ 0.
Proof.
  induction 1 as [|[s e] ranges Hh _ IH]; [done|].
  change (bufferedFrom ((s, e) :: ranges) t)
    with (if holds t (s, e) then Num.sub e t else bufferedFrom ranges t).
  by rewrite Hh.
Qed.

Lemma bufferedFrom_first before range after t :
  Forall (λ range, holds t range = false) before →
  holds t range = true →
  bufferedFrom (before ++ range :: after) t = Num.sub range.2 t.
Proof.
  intros Hb Hr. induction Hb as [|[s e] before Hh _ IH].
  - destruct range as [s e].
    change (bufferedFrom ([] ++ (s, e) :: after) t)
      with (if holds t (s, e) then Num.sub e t else bufferedFrom after t).
    by rewrite Hr.
  - change (bufferedFrom (((s, e) :: before) ++ range :: after) t)
      with (if holds t (s, e) then Num.sub e t
            else bufferedFrom (before ++ range :: after) t).
    by rewrite Hh.
Qed.

(** A finite position in a range with a finite end: the lead reaches
    the threshold exactly when the exact difference is at least
    [leastLeadPumped]. *)
Lemma lead_reaches start e t :
  holds (Fin t) (start, Fin e) = true →
  Num.ge (Num.sub (Fin e) (Fin t)) (Fin INITIAL_PUMP_DURATION_) = true
  ↔ (leastLeadPumped ≤ e - t)%Qc.
Proof.
  intros Hh. apply round_reaches.
  unfold holds in Hh. apply andb_prop in Hh as [_ Hgt].
  unfold Num.gt, Num.lt in Hgt. simpl in Hgt.
  assert ((t ?= e)%Qc = Lt) as Hte by (by destruct (t ?= e)%Qc).
  apply Qclt_alt in Hte. by apply Qclt_minus_iff in Hte.
Qed.

(** Claim C4.  After [loadVideo_] attached a streaming protocol with
    autoplay true or not given, the loaded-metadata signal starts one
    timer of 2000 ms and plays nothing.  When it expires and the duration
    is a number above 5 seconds, the buffered lead is read at once and
    then every 200 ms: as long as the lead is below the threshold a poll
    stays pending and nothing is played, and the first reading that
    reaches the threshold calls play and ends the polling.  When the
    duration is NaN or at most 5 seconds, play is called when the timer
    expires and no poll is started.  The lead that is read is the double
    nearest to the end of the first buffered range that holds the
    position minus the position: for a finite position and end it
    reaches the threshold exactly when the exact difference is at least
    5 - 2^-51, and with no range that holds the position the threshold
    is not reached. *)
Theorem deferred_auto_play (getPath_ : string → string) (info : LoadInfo)
    (p : CastPlayer) (envM : Env) :
  let m := default emptyMedia (media (message info)) in
  selectProtocol getPath_ m ≠ None →
  autoplay (message info) ≠ Some false →
  let p1 := loadVideo_ getPath_ info p in
  let p2 := onLoadSuccess_ envM p1 in
  let id := nextTimerId p1 in
  let totalTime := duration envM in
  let long := negb (Num.isNaN totalTime)
              && Num.gt totalTime (Fin INITIAL_PUMP_DURATION_) in
  (MEDIA_INFO_DURATION_ = 2000%Z ∧ PUMP_POLLING_INTERVAL_ = 200%Z
   ∧ INITIAL_PUMP_DURATION_ = Qc_of_Z 5) ∧
  (timers p2 = <[id := {| delay := MEDIA_INFO_DURATION_;
                          callback := MediaInfoCallback totalTime |}]>
                 (timers p1)
   ∧ calls p2 = calls p1) ∧
  (long = true →
   ∀ (waits : list Env) (envOk : Env),
     Forall (λ env, hasEnoughDataPumped env = false) waits →
     hasEnoughDataPumped envOk = true →
     (waits ≠ [] →
      pollPending (displayThenPoll id waits p2) ∧
      calls (displayThenPoll id waits p2) = calls p2) ∧
     playerAutoPlayTimerId_ (displayThenPoll id (waits ++ [envOk]) p2) = None ∧
     calls (displayThenPoll id (waits ++ [envOk]) p2) = calls p2 ++ [MediaPlay]) ∧
  (long = false →
   ∀ env, let p3 := fireTimer env id p2 in
     calls p3 = calls p2 ++ [MediaPlay] ∧
     timers p3 = delete id (timers p2) ∧
     playerAutoPlayTimerId_ p3 = playerAutoPlayTimerId_ p2) ∧
  (∀ env,
     (Forall (λ range, holds (currentTime env) range = false) (buffered env) →
      hasEnoughDataPumped env = false) ∧
     (∀ t before start e after,
        currentTime env = Fin t →
        buffered env = before ++ (start, Fin e) :: after →
        Forall (λ range, holds (Fin t) range = false) before →
        holds (Fin t) (start, Fin e) = true →
        hasEnoughDataPumped env = true ↔ (leastLeadPumped ≤ e - t)%Qc)).
Proof.
  intros m Hsel Hauto p1 p2 id totalTime long.
  assert (player_ p1 ≠ None ∧ playerAutoPlay_ p1 = true) as [Hpl Hap].
  { subst p1. unfold loadVideo_. fold m.
    destruct (selectProtocol getPath_ m); [|done]. simpl.
    split; [done|]. by destruct (autoplay (message info)) as [[]|]. }
  assert (p2 = (setTimeout (MediaInfoCallback totalTime) MEDIA_INFO_DURATION_ p1).2)
    as Hp2.
  { subst p2. unfold onLoadSuccess_. rewrite Hap. by destruct (player_ p1). }
  assert (∀ env, fireTimer env id p2
                 = runTimerCallback env (MediaInfoCallback totalTime)
                     (set_timers (delete id (timers p2)) p2)) as Hfire.
  { intros env. unfold fireTimer. rewrite Hp2. simpl. by rewrite lookup_insert_eq. }
  split_and!; try reflexivity; [| | | |intros env; split].
  - by rewrite Hp2.
  - by rewrite Hp2.
  - intros Hlong waits envOk Hwaits Hok.
    assert (∀ env, fireTimer env id p2
                   = doPlayerAutoPlay_ env (set_timers (delete id (timers p2)) p2))
      as Hfire'.
    { intros env. rewrite Hfire. unfold runTimerCallback. fold long.
      by rewrite Hlong. }
    destruct Hwaits as [|env waits Henv Hwaits]; simpl.
    + split; [done|]. rewrite Hfire'.
      by destruct (doPlayerAutoPlay_play envOk
                     (set_timers (delete id (timers p2)) p2) Hok) as (? & ? & ?).
    + rewrite !Hfire'.
      destruct (doPlayerAutoPlay_wait env
                  (set_timers (delete id (timers p2)) p2) Henv) as [Hpend Hcalls].
      destruct (polls_wait waits _ Hpend Hwaits) as [Hpend' Hcalls'].
      split; [intros _; split; [done|by rewrite Hcalls', Hcalls]|].
      rewrite foldl_app. simpl.
      destruct (firePoll_play envOk _ Hpend' Hok) as [? Hc].
      split; [done|]. by rewrite Hc, Hcalls', Hcalls.
  - intros Hshort env p3. subst p3. rewrite Hfire. unfold runTimerCallback.
    fold long. by rewrite Hshort.
  - intros Hnone. unfold hasEnoughDataPumped, getBufferedDuration_.
    by rewrite bufferedFrom_none.
  - intros t before start e after Ht Hb Hbefore Hh.
    unfold hasEnoughDataPumped, getBufferedDuration_.
    rewrite Hb, Ht, (bufferedFrom_first before (start, Fin e) after) by done.
    by apply (lead_reaches start).
Qed.

Lemma deferred_auto_play_witness :
  let p1 := loadVideo_ (λ url, url) hlsLoad (constructor env0) in
  let p2 := onLoadSuccess_ env60 p1 in
  selectProtocol (λ url, url) hlsMedia ≠ None ∧
  autoplay (message hlsLoad) ≠ Some false ∧
  calls (displayThenPoll (nextTimerId p1) [envLead 0; envLead 2] p2) = calls p2 ∧
  calls (displayThenPoll (nextTimerId p1) [envLead 0; envLead 2; envLead 5] p2)
  = calls p2 ++ [MediaPlay] ∧
  hasEnoughDataPumped (envAt double_0_1 double_5_1) = true ∧
  ¬ (hasEnoughDataPumped (envAt (Qc_of_Z 10) (Qc_of_Z 12)) = true).
Proof.
  intros p1 p2.
  assert (selectProtocol (λ url, url) hlsMedia ≠ None) as Hsel by done.
  assert (autoplay (message hlsLoad) ≠ Some false) as Hauto by done.
  destruct (deferred_auto_play (λ url, url) hlsLoad (constructor env0) env60
              Hsel Hauto) as (_ & _ & Hlong & _ & Hlead).
  destruct (Hlong eq_refl [envLead 0; envLead 2] (envLead 5)
              ltac:(by repeat constructor) eq_refl) as (Hw & _ & Hp).
  destruct (Hlead (envAt double_0_1 double_5_1)) as [_ Hnear].
  destruct (Hlead (envAt (Qc_of_Z 10) (Qc_of_Z 12))) as [_ Hfar].
  split_and!; [exact Hsel|exact Hauto|by destruct Hw|exact Hp| |].
  - apply (Hnear double_0_1 [] (Num.ofZ 0) double_5_1 []);
      [reflexivity|reflexivity|constructor|reflexivity|by vm_compute].
  - rewrite (Hfar (Qc_of_Z 10) [] (Num.ofZ 0) (Qc_of_Z 12) []);
      [by vm_compute|reflexivity|reflexivity|constructor|reflexivity].
Defined.

(** ** Errors *)

Lemma sessionKept_refl p : sessionKept p p.
Proof. repeat split. exists []. by rewrite app_nil_r. Qed.

Lemma sessionKept_trans p q r :
  sessionKept p q → sessionKept q r → sessionKept p r.
Proof.
  intros (Hp1 & Ht1 & e1 & Hc1 & He1) (Hp2 & Ht2 & e2 & Hc2 & He2).
  repeat split; [congruence..|]. exists (e1 ++ e2).
  split; [by rewrite Hc2, Hc1, app_assoc|by apply Forall_app].
Qed.

Lemma sessionKept_same p p' :
  player_ p' = player_ p → type_ p' = type_ p → calls p' = calls p →
  sessionKept p p'.
Proof. intros ? ? Hc. repeat split; [done..|]. exists []. by rewrite app_nil_r. Qed.

Lemma sessionKept_call c p : isSessionCall c = false → sessionKept p (call c p).
Proof. intros Hc. repeat split. exists [c]. split; [done|by constructor]. Qed.

Lemma sessionKept_clearTimeout id p : sessionKept p (clearTimeout id p).
Proof. destruct id; by apply sessionKept_same. Qed.

Lemma sessionKept_setIdleTimeout_ o p : sessionKept p (setIdleTimeout_ o p).
Proof.
  unfold setIdleTimeout_.
  eapply sessionKept_trans; [apply (sessionKept_clearTimeout (idleTimerId_ p))|].
  destruct o as [ms|]; [case_decide|]; by apply sessionKept_same.
Qed.

Lemma sessionKept_updateApplicationState_ env p :
  sessionKept p (updateApplicationState_ env p).
Proof.
  unfold updateApplicationState_.
  destruct (mediaManager_ p); [|apply sessionKept_refl].
  case_decide; [|apply sessionKept_refl].
  eapply sessionKept_trans; [|by apply sessionKept_call]. by apply sessionKept_same.
Qed.

Lemma sessionKept_setState_ env state crossfade delay p :
  sessionKept p (setState_ env state crossfade delay p).
Proof.
  unfold setState_.
  eapply sessionKept_trans; [apply (sessionKept_clearTimeout (delay_ p))|].
  generalize (clearTimeout (delay_ p) p). intros q.
  destruct (match delay with Some _ => _ | None => _ end);
    [by apply sessionKept_same|].
  destruct crossfade; simpl; [by apply sessionKept_same|].
  eapply sessionKept_trans; [|apply sessionKept_setIdleTimeout_].
  eapply sessionKept_trans; [|apply sessionKept_updateApplicationState_].
  eapply sessionKept_trans; [|by apply sessionKept_call]. by apply sessionKept_same.
Qed.

Lemma sessionKept_runSomething env f p : sessionKept p (runSomething env f p).
Proof.
  destruct f; simpl; [apply sessionKept_setState_|..];
    (eapply sessionKept_trans; [apply sessionKept_setState_|by apply sessionKept_call]).
Qed.

Lemma sessionKept_foldl env fs p :
  sessionKept p (foldl (λ p f, runSomething env f p) p fs).
Proof.
  revert p. induction fs as [|f fs IH]; intros p; simpl; [apply sessionKept_refl|].
  eapply sessionKept_trans; [apply sessionKept_runSomething|apply IH].
Qed.

Lemma sessionKept_onTransitionEnd env p : sessionKept p (onTransitionEnd env p).
Proof.
  unfold onTransitionEnd.
  eapply sessionKept_trans; [|apply sessionKept_foldl]. by apply sessionKept_same.
Qed.

(** The listener registered last runs last. *)
Lemma onTransitionEnd_transition_ env f p :
  onTransitionEnd env (transition_ f p)
  = runSomething env f
      (foldl (λ p f, runSomething env f p) (set_transitionEnd [] p) (transitionEnd p)).
Proof. unfold onTransitionEnd, transition_. simpl. by rewrite foldl_app. Qed.

Lemma transitionEnd_call c p : transitionEnd (call c p) = transitionEnd p.
Proof. done. Qed.

(** A crossfaded transition to [state] that is requested while the
    listeners run is completed by the next transition end. *)
Lemma crossfade_completes env env' state hook q :
  let p2 := call hook (setState_ env state true None q) in
  last (calls p2) = Some hook ∧ state_ p2 = state_ q ∧
  calls p2 = calls q ++ [hook] ∧
  state_ (onTransitionEnd env' p2) = state.
Proof.
  intros p2. subst p2. unfold setState_. simpl.
  split_and!; [apply last_snoc|by destruct (delay_ q)|
               by rewrite calls_clearTimeout|].
  change (call hook (transition_ (SetStateFn state) (clearTimeout (delay_ q) q)))
    with (transition_ (SetStateFn state) (call hook (clearTimeout (delay_ q) q))).
  rewrite onTransitionEnd_transition_. simpl. apply state_setState_.
Qed.

Lemma load_invalid getPath_ info p :
  Js.truthy (contentId (default emptyMedia (media (message info)))) = false
  ∨ getType_ getPath_ (default emptyMedia (media (message info))) = UNKNOWN →
  load getPath_ info p
  = onLoadMetadataError_ info (clearTimeout (idleTimerId_ p) p).
Proof.
  intros Hbad. unfold load.
  destruct (Js.truthy _); simpl; [|done].
  destruct Hbad as [?| ->]; [done|]. by rewrite decide_True.
Qed.

(** Claim C6.  A load whose content id is empty or missing, or whose
    media is classified as unknown, only registers the metadata-error
    function: the backend handle, the type, the state and the trace stay
    as they are.  The first transition end calls the original
    metadata-error handler with the load info, the second one sets the
    state to idle, and up to then the handle and the type are unchanged
    and no player is created, unloaded or loaded. *)
Theorem invalid_load_goes_idle (getPath_ : string → string) (info : LoadInfo)
    (p : CastPlayer) :
  let m := default emptyMedia (media (message info)) in
  Js.truthy (contentId m) = false ∨ getType_ getPath_ m = UNKNOWN →
  let p1 := load getPath_ info p in
  (player_ p1 = player_ p ∧ type_ p1 = type_ p ∧ state_ p1 = state_ p ∧
   calls p1 = calls p ∧
   transitionEnd p1 = transitionEnd p ++ [LoadMetadataErrorFn info]) ∧
  ∀ env1 env2,
    let p2 := onTransitionEnd env1 p1 in
    let p3 := onTransitionEnd env2 p2 in
    last (calls p2) = Some (OnLoadMetadataErrorOrig info) ∧
    state_ p3 = IDLE ∧ sessionKept p p3.
Proof.
  intros m Hbad p1. subst p1. rewrite (load_invalid getPath_ info p Hbad).
  unfold onLoadMetadataError_. split.
  - by destruct (idleTimerId_ p).
  - intros env1 env2. cbv zeta.
    rewrite onTransitionEnd_transition_. simpl runSomething.
    match goal with
    | |- context [setState_ env1 IDLE true None ?q0] => set (q := q0)
    end.
    destruct (crossfade_completes env1 env2 IDLE (OnLoadMetadataErrorOrig info) q)
      as (Hlast & _ & _ & Hidle).
    split_and!; [done..|].
    eapply sessionKept_trans; [|apply sessionKept_onTransitionEnd].
    eapply sessionKept_trans;
      [|eapply sessionKept_trans;
          [apply sessionKept_setState_|by apply sessionKept_call]].
    subst q. eapply sessionKept_trans; [|apply sessionKept_foldl].
    by destruct (idleTimerId_ p); apply sessionKept_same.
Qed.

Lemma invalid_load_goes_idle_witness :
  let p := constructor env0 in
  let p3 := onTransitionEnd env0 (onTransitionEnd env0 (load (λ url, url) unknownLoad p)) in
  getType_ (λ url, url) (default emptyMedia (media (message unknownLoad))) = UNKNOWN ∧
  state_ p3 = IDLE ∧ player_ p3 = player_ p.
Proof.
  intros p p3.
  assert (getType_ (λ url, url) (default emptyMedia (media (message unknownLoad)))
          = UNKNOWN) as Hunk by reflexivity.
  destruct (invalid_load_goes_idle (λ url, url) unknownLoad p (or_intror Hunk))
    as [_ Hlater].
  destruct (Hlater env0 env0) as (_ & Hidle & Hplayer & _).
  split_and!; [exact Hunk|exact Hidle|exact Hplayer].
Defined.

(** Claim C3, as amended.  [onError_] and [onLoadMetadataError_] change
    nothing at once; when the fade-out ends they request a crossfaded
    transition to idle and call the original handler with the payload
    they were given, and the next transition end sets the state to idle.
    A backend error with a player present unloads and clears the player
    and then takes the same path with a newly made error event; with no
    player present it does nothing. *)
Theorem error_recovery :
  (∀ error p env1 env2,
     let p1 := onError_ error p in
     let p2 := onTransitionEnd env1 p1 in
     let p3 := onTransitionEnd env2 p2 in
     (calls p1 = calls p ∧ state_ p1 = state_ p) ∧
     last (calls p2) = Some (OnErrorOrig error) ∧
     (transitionEnd p = [] →
        state_ p2 = state_ p ∧ calls p2 = calls p ++ [OnErrorOrig error]) ∧
     state_ p3 = IDLE) ∧
  (∀ info p env1 env2,
     let p1 := onLoadMetadataError_ info p in
     let p2 := onTransitionEnd env1 p1 in
     let p3 := onTransitionEnd env2 p2 in
     (calls p1 = calls p ∧ state_ p1 = state_ p) ∧
     last (calls p2) = Some (OnLoadMetadataErrorOrig info) ∧
     (transitionEnd p = [] →
        state_ p2 = state_ p
        ∧ calls p2 = calls p ++ [OnLoadMetadataErrorOrig info]) ∧
     state_ p3 = IDLE) ∧
  (∀ host p env1 env2,
     player_ p = Some host →
     let p1 := hostOnError p in
     let p2 := onTransitionEnd env1 p1 in
     let p3 := onTransitionEnd env2 p2 in
     (player_ p1 = None ∧ calls p1 = calls p ++ [PlayerUnload]
      ∧ state_ p1 = state_ p) ∧
     last (calls p2) = Some (OnErrorOrig NewErrorEvent) ∧
     state_ p3 = IDLE) ∧
  (∀ p, player_ p = None → hostOnError p = p).
Proof.
  assert (∀ f hook p env1 env2,
            (∀ env q, runSomething env f q
                      = call hook (setState_ env IDLE true None q)) →
            let p1 := transition_ f p in
            let p2 := onTransitionEnd env1 p1 in
            let p3 := onTransitionEnd env2 p2 in
            (calls p1 = calls p ∧ state_ p1 = state_ p) ∧
            last (calls p2) = Some hook ∧
            (transitionEnd p = [] →
               state_ p2 = state_ p ∧ calls p2 = calls p ++ [hook]) ∧
            state_ p3 = IDLE) as Hgen.
  { intros f hook p env1 env2 Hf p1 p2 p3. subst p3 p2 p1.
    rewrite onTransitionEnd_transition_, Hf.
    match goal with
    | |- context [setState_ env1 IDLE true None ?q0] => set (q := q0)
    end.
    destruct (crossfade_completes env1 env2 IDLE hook q)
      as (Hlast & Hstate & Hcalls & Hidle).
    split_and!; [done..| |done].
    intros Hnone. rewrite Hstate, Hcalls. subst q. by rewrite Hnone. }
  split_and!.
  - intros error p env1 env2. by apply Hgen.
  - intros info p env1 env2. by apply Hgen.
  - intros host p env1 env2 Hhost p1 p2 p3.
    assert (p1 = onError_ NewErrorEvent (set_player_ None (call PlayerUnload p)))
      as Hp1 by (subst p1; unfold hostOnError; by rewrite Hhost).
    destruct (Hgen (ErrorFn NewErrorEvent) (OnErrorOrig NewErrorEvent)
                (set_player_ None (call PlayerUnload p)) env1 env2
                ltac:(done)) as (_ & Hlast & _ & Hidle).
    subst p3 p2. rewrite Hp1. split_and!; done.
  - intros p Hnone. unfold hostOnError. by rewrite Hnone.
Qed.

Lemma error_recovery_witness :
  let host := {| hostUrl := "/media/a.m3u8"; protocol := CreateHlsStreamingProtocol |} in
  let p := set_player_ (Some host) (set_state_ PLAYING (constructor env0)) in
  let p1 := hostOnError p in
  player_ p = Some host ∧ player_ p1 = None ∧
  state_ (onTransitionEnd env0 (onTransitionEnd env0 p1)) = IDLE.
Proof.
  intros host p p1.
  destruct error_recovery as (_ & _ & Hhost & _).
  destruct (Hhost host p env0 env0 eq_refl) as ((Hnone & _) & _ & Hidle).
  done.
Defined.

(** Claim C3, as stated, fails: an error of the media element while an
    HLS stream is polled for auto-play leaves the poll pending and the
    player loaded, and the original handler is called before the state
    is set to idle. *)
Lemma error_policy_counterexample :
  let error := Reported "decode" in
  let p' := run (λ url, url)
              [(env0, MediaError error); (env0, TransitionEnd);
               (env0, TransitionEnd)] probing in
  playerAutoPlayTimerId_ probing = Some 5%positive ∧
  playerAutoPlayTimerId_ p' = Some 5%positive ∧
  timers p' !! 5%positive
    = Some {| delay := 200; callback := AutoPlayHandler |} ∧
  player_ p' = player_ probing ∧ player_ p' ≠ None ∧
  state_ p' = IDLE ∧
  calls p' = calls probing ++ [OnErrorOrig error; ElementSetState IDLE] ∧
  ¬ handlesErrorAsClaimed probing p' (OnErrorOrig error).
Proof.
  split_and!; try (vm_compute; (reflexivity || discriminate)).
  intros (Hprobe & _). vm_compute in Hprobe. discriminate.
Qed.

(** Claim C7, on the code.  A stop that arrives during the display delay
    cancels nothing, and the timer of [onLoadSuccess_] then starts
    playback in the idle state, or starts to poll when too little is
    buffered; two loads in a row leave two polls pending, of which a stop
    clears one, and the other starts playback. *)
Theorem cancelled_auto_play_still_starts :
  let stopped := run (λ url, url)
      [(env0, Ready); (env0, SenderLoad loadEvent); (env0, TransitionEnd);
       (env60, LoadedMetadata); (env0, SenderStop stopEvent);
       (env0, TransitionEnd)]
      (constructor env0) in
  let twice := run (λ url, url)
      [(env0, Ready); (env0, SenderLoad loadEvent); (env60, LoadedMetadata);
       (env0, SenderLoad loadEvent); (env60, LoadedMetadata);
       (envLead 0, TimerFired 3); (envLead 0, TimerFired 4)]
      (constructor env0) in
  (state_ stopped = IDLE ∧ playerAutoPlayTimerId_ stopped = None ∧
   last (calls stopped) = Some (OnStopOrig stopEvent) ∧
   last (calls (handle (λ url, url) (envLead 5) (TimerFired 4) stopped))
   = Some MediaPlay ∧
   size (pollTimers stopped) = 0 ∧
   size (pollTimers (handle (λ url, url) (envLead 0) (TimerFired 4) stopped)) = 1) ∧
  (size (pollTimers twice) = 2 ∧
   size (pollTimers (handle (λ url, url) env0 (SenderStop stopEvent) twice)) = 1 ∧
   last (calls (run (λ url, url)
                  [(env0, SenderStop stopEvent); (envLead 5, TimerFired 5)]
                  twice))
   = Some MediaPlay).
Proof. vm_compute. repeat split. Qed.

(** * Further properties *)

(** ** Formatting durations *)

Lemma append_nil_r s : s +:+ "" = s.
Proof. induction s as [|c s IH]; [done|]. by rewrite append_cons, IH. Qed.

Lemma append_assoc a b c : (a +:+ b) +:+ c = a +:+ b +:+ c.
Proof.
  induction a as [|x a IH]; [done|]. by rewrite !append_cons, IH.
Qed.

Lemma length_append a b :
  String.length (a +:+ b) = (String.length a + String.length b)%nat.
Proof.
  induction a as [|x a IH]; [done|]. rewrite append_cons. simpl. by rewrite IH.
Qed.

Lemma pretty_N_go_app x s : pretty_N_go x s = pretty_N_go x "" +:+ s.
Proof.
  revert s. induction (N.lt_wf_0 x) as [x _ IH]; intros s.
  destruct (decide (x = 0%N)) as [->|Hx]; [by rewrite !pretty_N_go_0|].
  rewrite (pretty_N_go_step x s), (pretty_N_go_step x "") by lia.
  assert (x `div` 10 < x)%N as Hlt by (apply N.div_lt; lia).
  rewrite (IH _ Hlt (String _ s)), (IH _ Hlt (String _ "")).
  by rewrite append_assoc.
Qed.

Lemma sliceFromEnd_app n a b :
  String.length b = n → sliceFromEnd n (a +:+ b) = b.
Proof.
  intros <-. unfold sliceFromEnd. rewrite length_append.
  replace (String.length a + String.length b - String.length b)%nat
    with (String.length a) by lia.
  pose proof (substring_app_middle a b "") as H.
  by rewrite append_nil_r in H.
Qed.

Lemma digit_twoDigits (n : Z) :
  (0 ≤ n)%Z → digit n = twoDigits (Z.to_N n).
Proof.
  intros Hn. unfold digit, twoDigits.
  assert (pretty n = pretty (Z.to_N n)) as -> by (by destruct n).
  generalize (Z.to_N n). clear. intros x. unfold pretty, pretty_N.
  destruct (decide (x = 0%N)) as [->|Hx]; [done|].
  destruct (decide (x < 10)%N) as [Hlt|Hge].
  - rewrite pretty_N_go_step by lia.
    rewrite (N.div_small x 10), (N.mod_small x 10) by lia.
    by rewrite pretty_N_go_0.
  - rewrite pretty_N_go_step by lia.
    rewrite pretty_N_go_step by (apply N.div_str_pos; lia).
    rewrite pretty_N_go_app, <-append_assoc.
    by rewrite sliceFromEnd_app.
Qed.

(** The rounded quotient is within half a unit of the exact one. *)
Lemma rne_half N D :
  (0 < D)%Z → (2 * Double.rne N D * D ≤ 2 * N + D)%Z.
Proof.
  intros HD. unfold Double.rne.
  pose proof (Z.div_mod N D ltac:(lia)) as Hdm.
  pose proof (Z.mod_pos_bound N D HD) as Hr.
  set (q := (N / D)%Z) in *. set (r := (N mod D)%Z) in *. clearbody q r.
  destruct (Z.compare_spec (2 * r) D); [destruct (Z.even q)|..]; nia.
Qed.

(** Dividing a whole number below [2 ^ 53] by a whole number from 2 on
    and rounding the quotient to the nearest double does not change its
    integer part. *)
Lemma roundPos_floor n d dur c :
  (0 < n)%Z → (0 < d)%Z → (0 < dur < 2 ^ 53)%Z → (2 ≤ c < 2 ^ 53)%Z →
  (n * c = dur * d)%Z →
  ∃ m e, (e < 0)%Z ∧ Double.roundPos n d = Some (Double.value m e)
         ∧ (m / 2 ^ (- e) = dur / c)%Z.
Proof.
  intros Hn Hd Hdur Hc Heq.
  pose proof (ilog2_lower n d Hn Hd) as Hlo.
  pose proof (ilog2_upper n d Hn Hd) as Hhi.
  unfold Double.roundPos, Double.exponent.
  set (k := Double.ilog2 n d) in *. clearbody k.
  change (2 ^ 53)%Z with 9007199254740992%Z in *.
  assert (k ≤ 51)%Z as Hk1.
  { destruct (Z_le_gt_dec k 51) as [|Hgt]; [done|exfalso].
    pose proof (atLeastPow2_mono n d k 52 Hn Hd ltac:(lia) Hlo) as E.
    unfold Double.atLeastPow2, Double.scaled in E. simpl (0 <=? 52)%Z in E.
    cbv iota in E. apply Z.leb_le in E.
    change (2 ^ 52)%Z with 4503599627370496%Z in E. nia. }
  assert (-1022 ≤ k)%Z as Hk2.
  { destruct (Z_le_gt_dec (-1022) k) as [|Hlt]; [done|exfalso].
    destruct (Double.atLeastPow2 (-1022) n d) eqn:E.
    - rewrite (atLeastPow2_mono n d (-1022) (k + 1)) in Hhi by (done || lia).
      done.
    - unfold Double.atLeastPow2, Double.scaled in E.
      change (0 <=? -1022)%Z with false in E. cbv iota in E.
      apply Z.leb_gt in E. change (- (-1022))%Z with 1022%Z in E.
      assert (2 ^ 53 ≤ 2 ^ 1022)%Z as Hp by (apply Z.pow_le_mono_r; lia).
      change (2 ^ 53)%Z with 9007199254740992%Z in Hp.
      set (G := (2 ^ 1022)%Z) in *. clearbody G. nia. }
  rewrite Z.max_l by lia. set (e := (k - 52)%Z).
  assert (e < 0)%Z as He by lia.
  unfold Double.scaled. rewrite (proj2 (Z.leb_gt 0 e) He).
  rewrite (Z.pow_neg_r 2 e He), Z.mul_0_r.
  change (2 ^ 1024 <=? 0)%Z with false. cbv iota.
  eexists _, e. split; [done|]. split; [done|].
  assert (0 < 2 ^ (- e))%Z as HP by (apply Z.pow_pos_nonneg; lia).
  (* [c < 2 * P] *)
  assert (c < 2 * 2 ^ (- e))%Z as HcP.
  { assert (2 * 2 ^ (- e) = 2 ^ (53 - k))%Z as ->.
    { replace (53 - k)%Z with (1 + - e)%Z by lia.
      rewrite Z.pow_add_r by lia. done. }
    unfold Double.atLeastPow2, Double.scaled in Hlo.
    destruct (Z.leb_spec 0 k) as [Hk0|Hk0]; apply Z.leb_le in Hlo.
    - assert (2 ^ k * 2 ^ (53 - k) = 9007199254740992)%Z as Hp
        by (rewrite <-Z.pow_add_r by lia; by replace (k + (53 - k))%Z with 53%Z by lia).
      assert (0 < 2 ^ k)%Z by (by apply Z.pow_pos_nonneg).
      assert (0 < 2 ^ (53 - k))%Z by (apply Z.pow_pos_nonneg; lia).
      set (A := (2 ^ k)%Z) in *. set (B := (2 ^ (53 - k))%Z) in *.
      clearbody A B.
      assert (d * A * c ≤ n * c)%Z as Hx0
        by (apply Z.mul_le_mono_nonneg_r; lia).
      assert (d * (A * c) ≤ d * dur)%Z as Hx1 by lia.
      apply Z.mul_le_mono_pos_l in Hx1; [|done]. nia.
    - assert (2 ^ (53 - k) = 9007199254740992 * 2 ^ (- k))%Z as ->
        by (change 9007199254740992%Z with (2 ^ 53)%Z;
            rewrite <-Z.pow_add_r by lia; f_equal; lia).
      assert (0 < 2 ^ (- k))%Z by (apply Z.pow_pos_nonneg; lia).
      set (A := (2 ^ (- k))%Z) in *. clearbody A.
      assert (d * c ≤ n * A * c)%Z as Hx0
        by (apply Z.mul_le_mono_nonneg_r; lia).
      assert (n * A * c = d * (dur * A))%Z as Hx0' by (rewrite <-Z.mul_assoc, (Z.mul_comm A c), Z.mul_assoc, Heq; ring).
      assert (d * c ≤ d * (dur * A))%Z as Hx1 by lia.
      apply Z.mul_le_mono_pos_l in Hx1; [|done]. nia. }
  set (P := (2 ^ (- e))%Z) in *. clearbody P.
  pose proof (rne_lower (n * P) d Hd) as Hm1.
  pose proof (rne_half (n * P) d Hd) as Hm2.
  set (m := Double.rne (n * P) d) in *. clearbody m.
  pose proof (Z.div_mod dur c ltac:(lia)) as Hdm.
  pose proof (Z.mod_pos_bound dur c ltac:(lia)) as Hr.
  set (q0 := (dur / c)%Z) in *. set (s := (dur mod c)%Z) in *. clearbody q0 s.
  assert (q0 * P ≤ n * P / d)%Z as Hlow.
  { apply Z.div_le_lower_bound; [done|].
    assert (d * (c * q0) ≤ d * dur)%Z as Hx0
      by (apply Z.mul_le_mono_nonneg_l; lia).
    assert (d * q0 * c ≤ n * c)%Z as Hx1 by lia.
    apply Z.mul_le_mono_pos_r in Hx1; [|lia].
    assert (d * q0 * P ≤ n * P)%Z by (apply Z.mul_le_mono_nonneg_r; lia).
    lia. }
  symmetry. apply Z.div_unique with (r := (m - q0 * P)%Z); [|lia].
  left. split; [lia|].
  destruct (Z_lt_le_dec (m - q0 * P) P) as [|Hge]; [done|exfalso].
  assert (2 * ((q0 + 1) * P) * d ≤ 2 * m * d)%Z as Hx1
    by (apply Z.mul_le_mono_nonneg_r; lia).
  assert (2 * ((q0 + 1) * P) * d * c ≤ (2 * (n * P) + d) * c)%Z as Hx2
    by (apply Z.mul_le_mono_nonneg_r; lia).
  assert ((2 * (n * P) + d) * c = (2 * dur * P + c) * d)%Z as Hx3.
  { transitivity (2 * P * (n * c) + d * c)%Z; [ring|]. rewrite Heq. ring. }
  assert ((2 * ((q0 + 1) * P) * c) * d ≤ (2 * dur * P + c) * d)%Z as Hx4 by lia.
  apply Z.mul_le_mono_pos_r in Hx4; [|done].
  assert (2 * P * (c * (q0 + 1) - dur) ≤ c)%Z as Hx5 by lia.
  assert (1 ≤ c * (q0 + 1) - dur)%Z as Hx6 by lia.
  assert (2 * P * 1 ≤ 2 * P * (c * (q0 + 1) - dur))%Z
    by (apply Z.mul_le_mono_nonneg_l; lia).
  lia.
Qed.

Lemma quotient_fraction (dur : Z) (c : positive) :
  (Qnum (Qc_of_Z dur / Qc_of_Z (Zpos c))%Qc * Zpos c
   = dur * Zpos (Qden (Qc_of_Z dur / Qc_of_Z (Zpos c))%Qc))%Z.
Proof.
  assert (this (Qc_of_Z dur / Qc_of_Z (Zpos c))%Qc == dur # c)%Q as Heq.
  { unfold Qcdiv, Qcmult, Qcinv.
    rewrite !this_Q2Qc, !Qred_correct. unfold Qeq. simpl. lia. }
  exact Heq.
Qed.

Lemma floorDiv_exact (dur : Z) (c : positive) :
  (0 ≤ dur < 2 ^ 53)%Z → (2 ≤ Zpos c < 2 ^ 53)%Z →
  floorDiv dur c = (dur / Zpos c)%Z.
Proof.
  intros Hdur Hc. unfold floorDiv.
  pose proof (quotient_fraction dur c) as Heq.
  set (x := (Qc_of_Z dur / Qc_of_Z (Zpos c))%Qc) in *. clearbody x.
  unfold Double.round.
  destruct (Qnum x) as [|n|n] eqn:En.
  - assert (dur = 0%Z) as -> by lia.
    unfold Qfloor. destruct x as [[nx dx] cx]. simpl in *. by subst nx.
  - destruct (roundPos_floor (Zpos n) (Zpos (Qden x)) dur (Zpos c))
      as (m & e & He & -> & Hm); [lia..|].
    unfold Double.value. rewrite (proj2 (Z.leb_gt 0 e) He).
    rewrite this_Q2Qc, Qred_correct. unfold Qfloor.
    assert (0 < 2 ^ (- e))%Z by (apply Z.pow_pos_nonneg; lia).
    by rewrite Z2Pos.id.
  - lia.
Qed.

Lemma formatDuration_nonneg (dur : Z) :
  (0 ≤ dur < 2 ^ 53)%Z →
  formatDuration_ dur
  = let hr := Z.to_N (dur `div` 3600) in
    let min := Z.to_N ((dur `div` 60) `mod` 60) in
    let sec := Z.to_N (dur `mod` 60) in
    if decide (hr = 0%N) then twoDigits min +:+ ":" +:+ twoDigits sec
    else twoDigits hr +:+ ":" +:+ twoDigits min +:+ ":" +:+ twoDigits sec.
Proof.
  intros Hdur. unfold formatDuration_. cbv zeta.
  rewrite !floorDiv_exact by (done || (split; [lia|reflexivity])).
  assert (0 ≤ dur `div` 60)%Z by (apply Z.div_pos; lia).
  assert (0 ≤ dur `div` 3600)%Z by (apply Z.div_pos; lia).
  rewrite (Z.rem_mod_nonneg (dur `div` 60) 60), (Z.rem_mod_nonneg dur 60) by lia.
  rewrite !digit_twoDigits by (try apply Z.mod_pos_bound; lia).
  destruct (decide (dur `div` 3600 = 0)%Z) as [->|Hhr].
  - by rewrite decide_True.
  - rewrite decide_False by lia. done.
Qed.

Lemma twoDigits_inj (x y : N) :
  (x < 100)%N → (y < 100)%N → twoDigits x = twoDigits y → x = y.
Proof.
  intros Hx Hy [= H1 H0].
  apply pretty_N_char_inj in H1, H0; [|by apply N.mod_lt..].
  assert (x `div` 10 < 10 ∧ y `div` 10 < 10)%N as [Hx' Hy']
    by (split; apply N.Div0.div_lt_upper_bound; lia).
  rewrite !N.mod_small in H1 by done.
  rewrite (N.div_mod x 10), (N.div_mod y 10) by done. congruence.
Qed.

Lemma twoDigits_wrap (x : N) : twoDigits (x + 100) = twoDigits x.
Proof.
  unfold twoDigits.
  replace (x + 100)%N with (x + 10 * 10)%N by lia.
  rewrite N.div_add by done.
  replace (x `div` 10 + 10)%N with (x `div` 10 + 1 * 10)%N by lia.
  rewrite (N.Div0.mod_add (x `div` 10) 1 10), (N.Div0.mod_add x 10 10). done.
Qed.

Lemma twoDigits_length x : String.length (twoDigits x) = 2%nat.
Proof. done. Qed.

(** Property X1.  For a whole duration from 0 up to 100 hours,
    [formatDuration_] gives five characters below one hour and eight from
    one hour on, and different durations give different texts, so the
    text shown determines the duration. *)
Theorem formatDuration_injective (a b : Z) :
  (0 ≤ a < 360000)%Z → (0 ≤ b < 360000)%Z →
  String.length (formatDuration_ a) = (if decide (a < 3600)%Z then 5 else 8)%nat ∧
  (formatDuration_ a = formatDuration_ b → a = b).
Proof.
  intros Ha Hb. rewrite !formatDuration_nonneg by lia. cbv zeta.
  assert (∀ d, 0 ≤ d < 360000 →
            let hr := Z.to_N (d `div` 3600) in
            let min := Z.to_N ((d `div` 60) `mod` 60) in
            let sec := Z.to_N (d `mod` 60) in
            (hr < 100)%N ∧ (min < 100)%N ∧ (sec < 100)%N ∧
            (hr = 0%N ↔ d < 3600) ∧
            d = Z.of_N hr * 3600 + Z.of_N min * 60 + Z.of_N sec)%Z as Hparts.
  { intros d Hd. cbv zeta.
    pose proof (Z.mod_pos_bound (d `div` 60) 60 ltac:(lia)).
    pose proof (Z.mod_pos_bound d 60 ltac:(lia)).
    assert (0 ≤ d `div` 3600 < 100)%Z
      by (split; [apply Z.div_pos|apply Z.div_lt_upper_bound]; lia).
    pose proof (Z.div_mod d 60 ltac:(lia)).
    pose proof (Z.div_mod (d `div` 60) 60 ltac:(lia)).
    assert (d `div` 3600 = (d `div` 60) `div` 60)%Z
      by (rewrite Z.div_div by lia; done).
    rewrite !Z2N.id by lia.
    split_and!; lia. }
  destruct (Hparts a Ha) as (Ha1 & Ha2 & Ha3 & Ha4 & Ha5).
  destruct (Hparts b Hb) as (Hb1 & Hb2 & Hb3 & Hb4 & Hb5).
  revert Ha1 Ha2 Ha3 Ha4 Ha5 Hb1 Hb2 Hb3 Hb4 Hb5.
  generalize (Z.to_N (a `div` 3600)) (Z.to_N ((a `div` 60) `mod` 60))
    (Z.to_N (a `mod` 60)) (Z.to_N (b `div` 3600))
    (Z.to_N ((b `div` 60) `mod` 60)) (Z.to_N (b `mod` 60)).
  intros ha ma sa hb mb sb Ha1 Ha2 Ha3 Ha4 Ha5 Hb1 Hb2 Hb3 Hb4 Hb5.
  split.
  - destruct (decide (ha = 0%N)) as [->|Hha].
    + rewrite decide_True by (by apply Ha4). done.
    + rewrite decide_False by (by rewrite <-Ha4). done.
  - destruct (decide (ha = 0%N)) as [->|Hha], (decide (hb = 0%N)) as [->|Hhb];
      unfold twoDigits; rewrite ?append_cons, ?append_nil_l; intros Heq;
      simplify_eq.
    + assert (ma = mb) by (apply twoDigits_inj; [done..|unfold twoDigits; congruence]).
      assert (sa = sb) by (apply twoDigits_inj; [done..|unfold twoDigits; congruence]).
      lia.
    + assert (ha = hb) by (apply twoDigits_inj; [done..|unfold twoDigits; congruence]).
      assert (ma = mb) by (apply twoDigits_inj; [done..|unfold twoDigits; congruence]).
      assert (sa = sb) by (apply twoDigits_inj; [done..|unfold twoDigits; congruence]).
      lia.
Qed.

Lemma formatDuration_injective_witness :
  (0 ≤ 3725 < 360000)%Z ∧ (0 ≤ 59 < 360000)%Z ∧
  String.length (formatDuration_ 3725) = 8%nat.
Proof.
  split_and!; [lia..|].
  exact (proj1 (formatDuration_injective 3725 59 ltac:(lia) ltac:(lia))).
Defined.

(** Property X2.  From one hour on, only the last two digits of the
    hours are shown: a whole duration and the same duration 100 hours
    later have the same text, as long as both are below 2^53 seconds.
    (Far beyond, the rounding of the divisions breaks this.) *)
Theorem formatDuration_hours_wrap (dur : Z) :
  (3600 ≤ dur)%Z → (dur + 360000 < 2 ^ 53)%Z →
  formatDuration_ (dur + 360000) = formatDuration_ dur.
Proof.
  intros Hdur Hmax. rewrite !formatDuration_nonneg by lia. cbv zeta.
  assert ((dur + 360000) `div` 3600 = dur `div` 3600 + 100)%Z as ->.
  { replace (dur + 360000)%Z with (dur + 100 * 3600)%Z by lia.
    by rewrite Z.div_add by lia. }
  assert (((dur + 360000) `div` 60) `mod` 60 = (dur `div` 60) `mod` 60)%Z as ->.
  { replace (dur + 360000)%Z with (dur + 6000 * 60)%Z by lia.
    rewrite Z.div_add by lia.
    replace (dur `div` 60 + 6000)%Z with (dur `div` 60 + 100 * 60)%Z by lia.
    by rewrite Z_mod_plus_full. }
  assert ((dur + 360000) `mod` 60 = dur `mod` 60)%Z as ->.
  { replace (dur + 360000)%Z with (dur + 6000 * 60)%Z by lia.
    by rewrite Z_mod_plus_full. }
  assert (1 ≤ dur `div` 3600)%Z by (apply Z.div_le_lower_bound; lia).
  rewrite Z2N.inj_add by lia.
  rewrite !decide_False by lia.
  change (Z.to_N 100) with 100%N. by rewrite twoDigits_wrap.
Qed.

Lemma formatDuration_hours_wrap_witness :
  (3600 ≤ 3725)%Z ∧ (3725 + 360000 < 2 ^ 53)%Z ∧
  formatDuration_ (3725 + 360000) = formatDuration_ 3725 ∧
  formatDuration_ 253327479039586784 = "62:59:44" ∧
  formatDuration_ (253327479039586784 + 360000) = "63:59:44".
Proof.
  split_and!; [lia|lia| |by vm_compute|by vm_compute].
  exact (formatDuration_hours_wrap 3725 ltac:(lia) ltac:(lia)).
Defined.

(** ** The buffered lead *)

Lemma Qc_of_Z_0 : Qc_of_Z 0 = 0%Qc.
Proof. by apply Qc_is_canon. Qed.

Lemma value_nonneg m e : (0 ≤ m)%Z → (0 ≤ Double.value m e)%Qc.
Proof.
  intros Hm. unfold Double.value, Qcle.
  change (this (Q2Qc ?x)) with (Qred x). rewrite !Qred_correct.
  destruct (Z.leb_spec 0 e); unfold Qle; simpl.
  - assert (0 ≤ m * 2 ^ e)%Z by (apply Z.mul_nonneg_nonneg; lia). lia.
  - lia.
Qed.

Lemma roundPos_nonneg n d :
  (0 < n)%Z → (0 < d)%Z →
  match Double.roundPos n d with Some r => (0 ≤ r)%Qc | None => True end.
Proof.
  intros Hn Hd. unfold Double.roundPos.
  destruct (scaled_nonneg n d (Double.exponent n d) Hn Hd) as [HN HD].
  destruct (Double.scaled n d _) as [N D]. simpl in *.
  destruct (2 ^ 1024 <=? _)%Z; [done|].
  apply value_nonneg. pose proof (rne_lower N D HD).
  assert (0 ≤ N / D)%Z by (apply Z.div_pos; lia). lia.
Qed.

Lemma gt_zero r : Num.gt (Fin r) (Num.ofZ 0) = true ↔ (0 < r)%Qc.
Proof.
  unfold Num.gt, Num.lt, Num.ofZ. rewrite Qc_of_Z_0, Qclt_alt.
  destruct (0 ?= r)%Qc; split; done.
Qed.

Lemma ge_zero r : Num.ge (Fin r) (Num.ofZ 0) = true ↔ (0 ≤ r)%Qc.
Proof.
  unfold Num.ge, Num.le, Num.lt, Num.eq, Num.ofZ.
  rewrite Qc_of_Z_0, Qcle_alt.
  destruct (0 ?= r)%Qc; split; done.
Qed.

(** The exact difference of two numbers on the grid of the doubles is
    on the grid, so a positive one is at least [2 ^ -1074]. *)
Lemma difference_on_grid (e t : Qc) :
  onGrid (Fin e) → onGrid (Fin t) → (t < e)%Qc →
  Double.atLeastPow2 (-1074) (Qnum (e - t)%Qc) (Zpos (Qden (e - t)%Qc)) = true.
Proof.
  intros [ke Hke] [kt Hkt] Hlt.
  assert (0 < e - t)%Qc as Hpos by (by apply Qclt_minus_iff in Hlt).
  pose proof (Qc_pos_num _ Hpos) as Hn.
  assert (this (e - t)%Qc == this e + - this t)%Q as Heq.
  { unfold Qcminus, Qcplus, Qcopp.
    rewrite !this_Q2Qc, !Qred_correct. reflexivity. }
  set (x := (e - t)%Qc) in *. clearbody x. clear Hpos Hlt.
  destruct e as [[ne de] ce], t as [[nt dt] ct], x as [[n d] cx].
  unfold Qeq in Heq. cbn [this Qnum Qden Qplus Qopp] in *.
  rewrite Pos2Z.inj_mul in Heq.
  unfold Double.atLeastPow2, Double.scaled.
  change (0 <=? -1074)%Z with false. cbv iota.
  apply Z.leb_le. change (- (-1074))%Z with 1074%Z.
  set (G := (2 ^ 1074)%Z) in *.
  assert (0 < G)%Z as HG by (subst G; by apply Z.pow_pos_nonneg).
  clearbody G.
  pose proof (Pos2Z.is_pos d) as Hd. pose proof (Pos2Z.is_pos de) as Hde.
  pose proof (Pos2Z.is_pos dt) as Hdt.
  set (D := Z.pos d) in *. set (De := Z.pos de) in *. set (Dt := Z.pos dt) in *.
  clearbody D De Dt.
  assert (n * G * (De * Dt) = (ke - kt) * D * (De * Dt))%Z as Hk.
  { transitivity (n * (De * Dt) * G)%Z; [ring|]. rewrite Heq.
    transitivity ((ne * G * Dt - nt * G * De) * D)%Z; [ring|].
    rewrite Hke, Hkt. ring. }
  assert (n * G = (ke - kt) * D)%Z as Hk'
    by (apply (Z.mul_reg_r _ _ (De * Dt)); [nia|exact Hk]).
  assert (0 < ke - kt)%Z by nia. nia.
Qed.

Lemma holds_finite_order s e t :
  holds (Fin t) (s, Fin e) = true → (t < e)%Qc.
Proof.
  unfold holds. intros [_ Hgt]%andb_prop.
  unfold Num.gt, Num.lt in Hgt. simpl in Hgt.
  assert ((t ?= e)%Qc = Lt) as Hte by (by destruct (t ?= e)%Qc).
  by apply Qclt_alt in Hte.
Qed.

(** The lead of a range that holds the position is not below 0, and
    above 0 when both readings are on the grid of the doubles. *)
Lemma holds_lead_positive t range :
  holds t range = true →
  Num.ge (Num.sub range.2 t) (Num.ofZ 0) = true ∧
  (onGrid t → onGrid range.2 → Num.gt (Num.sub range.2 t) (Num.ofZ 0) = true).
Proof.
  destruct range as [s e]. intros Hh.
  assert (t ≠ NaN ∧ t ≠ PosInf ∧ e ≠ NaN ∧ e ≠ NegInf) as (Ht1 & Ht2 & He1 & He2).
  { unfold holds, Num.gt, Num.le, Num.lt, Num.eq in Hh. simpl in Hh.
    destruct s, e, t; simpl in Hh; try done;
      rewrite ?andb_false_r in Hh; done. }
  destruct t as [| |t|]; try done; destruct e as [| |e|]; try done.
  simpl snd.
  pose proof (holds_finite_order s e t Hh) as Hlt.
  assert (0 < e - t)%Qc as Hpos by (by apply Qclt_minus_iff in Hlt).
  pose proof (Qc_pos_num _ Hpos) as Hn.
  unfold Num.sub, Double.round.
  destruct (Qnum (e - t)%Qc) as [|n|n] eqn:En; try lia.
  split.
  - pose proof (roundPos_nonneg (Z.pos n) (Zpos (Qden (e - t)%Qc))
                  ltac:(lia) ltac:(lia)) as Hr.
    destruct (Double.roundPos _ _) as [r|]; [|done]. by apply ge_zero.
  - intros Hgt Hge.
    pose proof (difference_on_grid e t Hge Hgt Hlt) as Hgrid.
    rewrite En in Hgrid.
    pose proof (roundPos_pos (Z.pos n) (Zpos (Qden (e - t)%Qc))
                  ltac:(lia) ltac:(lia) Hgrid) as Hr.
    destruct (Double.roundPos _ _) as [r|]; [|done]. by apply gt_zero.
Qed.

(** Property X3.  The buffered lead is 0 when no buffered range holds
    the play position (none at all, a position at the end of a range, a
    NaN position); otherwise it is the double nearest to the end of the
    first range that holds the position minus the position.  That lead
    is never below 0, and it is above 0 whenever position and end are
    whole multiples of 2^-1074, as all finite doubles are. *)
Theorem getBufferedDuration_first_range (env : Env) :
  let t := currentTime env in
  let lead := getBufferedDuration_ env in
  (Forall (λ range, holds t range = false) (buffered env) ∧ lead = Num.ofZ 0)
  ∨ ∃ before range after,
      buffered env = before ++ range :: after ∧
      Forall (λ range, holds t range = false) before ∧
      holds t range = true ∧
      lead = Num.sub range.2 t ∧
      Num.ge lead (Num.ofZ 0) = true ∧
      (onGrid t → onGrid range.2 → Num.gt lead (Num.ofZ 0) = true).
Proof.
  intros t lead. subst lead. unfold getBufferedDuration_. fold t.
  assert (Forall (λ range, holds t range = false) (buffered env)
          ∨ ∃ before range after,
              buffered env = before ++ range :: after ∧
              Forall (λ range, holds t range = false) before ∧
              holds t range = true) as [Hnone|Hsome].
  { induction (buffered env) as [|range ranges IH]; [by left|].
    destruct (holds t range) eqn:Hh.
    - right. by exists [], range, ranges.
    - destruct IH as [Hall|(before & r & after & -> & Hb & Hr)].
      + left. by constructor.
      + right. exists (range :: before), r, after.
        split_and!; [done| |done]. by constructor. }
  - left. split; [done|]. by apply bufferedFrom_none.
  - right. destruct Hsome as (before & range & after & Hb & Hbefore & Hr).
    exists before, range, after. rewrite Hb.
    rewrite (bufferedFrom_first before range after t) by done.
    destruct (holds_lead_positive t range Hr) as [Hge Hgt].
    by split_and!.
Qed.

(** ** What holds in every state the player reaches *)

Lemma lastBroadcast_quiet cs extra :
  Forall (λ c, quietCall c = true) extra →
  lastBroadcast (cs ++ extra) = lastBroadcast cs.
Proof.
  unfold lastBroadcast. rewrite foldl_app. intros Hq.
  match goal with |- foldl ?f ?a _ = _ => generalize a; set (g := f) end.
  induction Hq as [|c extra Hc _ IH]; intros acc; simpl; [done|].
  rewrite IH. subst g. by destruct c.
Qed.

Lemma loadedPlayer_quiet cs extra :
  Forall (λ c, quietCall c = true) extra →
  loadedPlayer (cs ++ extra) = loadedPlayer cs.
Proof.
  unfold loadedPlayer. rewrite foldl_app. intros Hq.
  generalize (foldl replayCall (Some None) cs).
  induction Hq as [|c extra Hc _ IH]; intros acc; simpl; [done|].
  rewrite IH. by destruct acc as [[?|]|], c.
Qed.

Lemma traceKept_refl p : traceKept p p.
Proof.
  split_and!; [done..|eauto|]. exists []. by rewrite app_nil_r.
Qed.

Lemma traceKept_trans p q r : traceKept p q → traceKept q r → traceKept p r.
Proof.
  intros (Hm1 & Ha1 & Hp1 & Hs1 & Hd1 & Hq1 & Ht1 & e1 & Hc1 & He1)
         (Hm2 & Ha2 & Hp2 & Hs2 & Hd2 & Hq2 & Ht2 & e2 & Hc2 & He2).
  split_and!; [congruence..| |].
  - intros id t Hl. destruct (Ht2 id t Hl) as [Hl'|?]; [eauto|by right].
  - exists (e1 ++ e2). split; [by rewrite Hc2, Hc1, app_assoc|by apply Forall_app].
Qed.

Lemma traceKept_plain p p' :
  mediaManager_ p' = mediaManager_ p →
  applicationState_ p' = applicationState_ p →
  player_ p' = player_ p → state_ p' = state_ p → delay_ p' = delay_ p →
  transitionEnd p' = transitionEnd p → timers p' = timers p →
  calls p' = calls p → traceKept p p'.
Proof.
  intros ?????? Ht Hc. split_and!; [done..| |].
  - intros id t. rewrite Ht. eauto.
  - exists []. by rewrite app_nil_r.
Qed.

Lemma traceKept_reachInv p p' : traceKept p p' → reachInv p → reachInv p'.
Proof.
  intros (Hm & Ha & Hp & Hs & Hd & Hq & Ht & extra & Hc & He)
         ((Hmm & Happ) & Hsess & Hst & Hdel & Hqueue & Htim).
  unfold reachInv, appInv, plainInv. split_and!.
  - congruence.
  - intros s. rewrite Ha, Hc, lastBroadcast_quiet by done. apply Happ.
  - unfold sessionInv. rewrite Hc, loadedPlayer_quiet, Hp by done. apply Hsess.
  - congruence.
  - congruence.
  - by rewrite Hq.
  - intros id t Hl. destruct (Ht id t Hl) as [Hl'|?]; [eauto|done].
Qed.

Lemma traceKept_call c p : quietCall c = true → traceKept p (call c p).
Proof.
  intros Hc. split_and!; [done..|eauto|]. exists [c]. split; [done|by constructor].
Qed.

Lemma traceKept_clearTimeout id p : traceKept p (clearTimeout id p).
Proof.
  destruct id as [i|]; [|apply traceKept_refl].
  split_and!; [done..| |exists []; by rewrite app_nil_r].
  simpl. intros id t [_ ?]%lookup_delete_Some. eauto.
Qed.

Lemma traceKept_setTimeout cb t p :
  notDelayed cb → traceKept p (setTimeout cb t p).2.
Proof.
  intros Hcb. split_and!; [done..| |exists []; by rewrite app_nil_r].
  simpl. intros id tm [[_ <-]|[_ ?]]%lookup_insert_Some; eauto.
Qed.

Lemma traceKept_cancelPlayerAutoPlay_ p : traceKept p (cancelPlayerAutoPlay_ p).
Proof.
  unfold cancelPlayerAutoPlay_.
  destruct (playerAutoPlayTimerId_ p) as [i|]; [|apply traceKept_refl].
  eapply traceKept_trans; [apply (traceKept_clearTimeout (Some i))|].
  by apply traceKept_plain.
Qed.

Lemma traceKept_doPlayerAutoPlay_ env p : traceKept p (doPlayerAutoPlay_ env p).
Proof.
  unfold doPlayerAutoPlay_. destruct (Num.ge _ _).
  - eapply traceKept_trans; [by apply (traceKept_call MediaPlay)|].
    by apply traceKept_plain.
  - eapply traceKept_trans;
      [by apply (traceKept_setTimeout AutoPlayHandler PUMP_POLLING_INTERVAL_)|].
    by apply traceKept_plain.
Qed.

Lemma traceKept_onLoadSuccess_ env p : traceKept p (onLoadSuccess_ env p).
Proof.
  unfold onLoadSuccess_. destruct (player_ p); [|apply traceKept_refl].
  destruct (playerAutoPlay_ p); [|apply traceKept_refl].
  by apply traceKept_setTimeout.
Qed.

Lemma traceKept_onVisibilityChanged_ v p :
  traceKept p (onVisibilityChanged_ v p).
Proof.
  unfold onVisibilityChanged_. destruct (negb v); [|apply traceKept_refl].
  eapply traceKept_trans; by apply traceKept_call.
Qed.

Lemma traceKept_setIdleTimeout_ o p : traceKept p (setIdleTimeout_ o p).
Proof.
  unfold setIdleTimeout_.
  eapply traceKept_trans; [apply (traceKept_clearTimeout (idleTimerId_ p))|].
  destruct o as [ms|]; [|apply traceKept_refl].
  case_decide; [apply traceKept_refl|].
  eapply traceKept_trans; [by apply (traceKept_setTimeout IdleCallback ms)|].
  by apply traceKept_plain.
Qed.

Lemma reachInv_keeps (f : CastPlayer → CastPlayer) p :
  reachInv p → traceKept p (f p) → reachInv (f p).
Proof. intros Hinv Hk. by eapply traceKept_reachInv. Qed.

Lemma reachInv_set_state_ state p :
  reachInv p → state ≠ STALLED → reachInv (set_state_ state p).
Proof.
  intros (Happ & Hsess & _ & Hdel & Hqueue & Htim) Hs.
  unfold reachInv, plainInv. by split_and!.
Qed.

Lemma reachInv_transition_ f p :
  reachInv p → f ≠ SetStateFn STALLED → reachInv (transition_ f p).
Proof.
  intros (Happ & Hsess & Hst & Hdel & Hqueue & Htim) Hf.
  unfold reachInv, plainInv. split_and!; [done..| |done].
  simpl. apply Forall_app. by split; [|constructor].
Qed.

Lemma lastBroadcast_snoc cs c :
  lastBroadcast (cs ++ [c])
  = match c with SetApplicationState s => Some s | _ => lastBroadcast cs end.
Proof. unfold lastBroadcast. by rewrite foldl_app. Qed.

Lemma loadedPlayer_snoc cs c :
  loadedPlayer (cs ++ [c]) = replayCall (loadedPlayer cs) c.
Proof. unfold loadedPlayer. by rewrite foldl_app. Qed.

Lemma reachInv_updateApplicationState_ env p :
  reachInv p → reachInv (updateApplicationState_ env p).
Proof.
  intros Hinv. unfold updateApplicationState_.
  destruct (mediaManager_ p) eqn:Hmm; [|done]. case_decide; [|done].
  destruct Hinv as ((_ & Happ) & Hsess & Hplain).
  unfold reachInv, appInv, sessionInv in *. split_and!.
  - done.
  - simpl. intros s [= <-]. by rewrite lastBroadcast_snoc.
  - simpl. rewrite loadedPlayer_snoc, Hsess. by destruct (player_ p).
  - done.
Qed.

Lemma reachInv_setState_ env state crossfade p :
  reachInv p → state ≠ STALLED →
  reachInv (setState_ env state crossfade None p).
Proof.
  intros Hinv Hs. unfold setState_.
  assert (reachInv (clearTimeout (delay_ p) p)) as Hinv0
    by (by apply (reachInv_keeps (clearTimeout (delay_ p))), traceKept_clearTimeout).
  revert Hinv0. generalize (clearTimeout (delay_ p) p). clear Hinv. intros q Hq.
  destruct crossfade; simpl.
  - apply reachInv_transition_; [done|]. by intros [= ->].
  - apply reachInv_keeps; [|apply traceKept_setIdleTimeout_].
    apply reachInv_updateApplicationState_.
    apply (reachInv_keeps (call (ElementSetState state)));
      [|by apply traceKept_call].
    by apply reachInv_set_state_.
Qed.

Lemma reachInv_resetMediaElement_ p :
  reachInv p → reachInv (resetMediaElement_ p).
Proof.
  intros ((Hmm & Happ) & Hsess & Hplain). unfold resetMediaElement_.
  destruct (player_ p) as [h|] eqn:Hp; [|done].
  unfold reachInv, appInv, sessionInv in *. split_and!.
  - done.
  - simpl. intros s Hs. rewrite lastBroadcast_snoc. by apply Happ.
  - simpl. by rewrite loadedPlayer_snoc, Hsess, Hp.
  - done.
Qed.

Lemma reachInv_loadVideo_ getPath_ info p :
  reachInv p → player_ p = None → reachInv (loadVideo_ getPath_ info p).
Proof.
  intros ((Hmm & Happ) & Hsess & Hplain) Hp. unfold loadVideo_.
  destruct (selectProtocol _ _) as [f|].
  - unfold reachInv, appInv, sessionInv in *. split_and!.
    + done.
    + simpl. intros s Hs. rewrite lastBroadcast_snoc. by apply Happ.
    + simpl. by rewrite loadedPlayer_snoc, Hsess, Hp.
    + done.
  - apply (reachInv_keeps (λ q, call _ (set_bufferingListeners _ q)));
      [done|].
    eapply traceKept_trans; [|by apply traceKept_call]. by apply traceKept_plain.
Qed.

Lemma reachInv_preload_ m p : reachInv p → reachInv (preload_ m p).
Proof.
  intros Hinv. unfold preload_. destruct (Js.truthy _).
  - by apply (reachInv_keeps (λ q, set_imageLoads _ q)), traceKept_plain.
  - by apply reachInv_transition_.
Qed.

Lemma reachInv_load getPath_ info p :
  reachInv p → reachInv (load getPath_ info p).
Proof.
  intros Hinv. unfold load.
  assert (reachInv (clearTimeout (idleTimerId_ p) p)) as Hinv0
    by (by apply (reachInv_keeps (clearTimeout (idleTimerId_ p))),
             traceKept_clearTimeout).
  revert Hinv0. generalize (clearTimeout (idleTimerId_ p) p). clear Hinv.
  intros q Hq.
  destruct (negb _); [by apply reachInv_transition_|].
  case_decide; [by apply reachInv_transition_|].
  apply reachInv_preload_.
  assert (reachInv (setType_ (getType_ getPath_ (default emptyMedia (media (message info))))
                      (bool_decide (streamType (default emptyMedia (media (message info))) = Some LIVE))
                      (resetMediaElement_ q))
          ∧ player_ (setType_ (getType_ getPath_ (default emptyMedia (media (message info))))
                      (bool_decide (streamType (default emptyMedia (media (message info))) = Some LIVE))
                      (resetMediaElement_ q)) = None) as [Hinv1 Hnone].
  { split; [|apply player_resetMediaElement_].
    apply (reachInv_keeps (setType_ _ _)); [by apply reachInv_resetMediaElement_|].
    unfold setType_. eapply traceKept_trans; [|by apply traceKept_call].
    by apply traceKept_plain. }
  destruct (getType_ _ _); [by apply reachInv_loadVideo_|done].
Qed.

Lemma reachInv_hostOnError p : reachInv p → reachInv (hostOnError p).
Proof.
  intros Hinv. unfold hostOnError.
  pose proof (reachInv_resetMediaElement_ p Hinv) as Hr.
  unfold resetMediaElement_ in Hr. destruct (player_ p); [|done].
  by apply reachInv_transition_.
Qed.

Lemma reachInv_runSomething env f p :
  reachInv p → f ≠ SetStateFn STALLED → reachInv (runSomething env f p).
Proof.
  intros Hinv Hf. destruct f; simpl.
  - apply reachInv_setState_; [done|]. by intros ->.
  - apply (reachInv_keeps (call _)); [by apply reachInv_setState_|].
    by apply traceKept_call.
  - apply (reachInv_keeps (call _)); [by apply reachInv_setState_|].
    by apply traceKept_call.
  - apply (reachInv_keeps (call _)); [by apply reachInv_setState_|].
    by apply traceKept_call.
  - apply (reachInv_keeps (call _)); [by apply reachInv_setState_|].
    by apply traceKept_call.
Qed.

Lemma reachInv_onTransitionEnd env p :
  reachInv p → reachInv (onTransitionEnd env p).
Proof.
  intros Hinv. unfold onTransitionEnd.
  assert (Forall (λ f, f ≠ SetStateFn STALLED) (transitionEnd p)) as Hq
    by apply Hinv.
  assert (reachInv (set_transitionEnd [] p)) as Hinv'.
  { destruct Hinv as (Happ & Hsess & Hst & Hdel & _ & Htim).
    unfold reachInv, plainInv. by split_and!. }
  revert Hinv'. generalize (set_transitionEnd [] p). clear Hinv.
  induction Hq as [|f fs Hf _ IH]; intros q Hinv; simpl; [done|].
  by apply IH, reachInv_runSomething.
Qed.

Lemma reachInv_fireTimer env id p : reachInv p → reachInv (fireTimer env id p).
Proof.
  intros Hinv. unfold fireTimer. destruct (timers p !! id) as [t|] eqn:Ht; [|done].
  assert (notDelayed (callback t)) as Hcb by (eapply Hinv; done).
  assert (reachInv (set_timers (delete id (timers p)) p)) as Hinv'
    by (by apply (reachInv_keeps (clearTimeout (Some id))), traceKept_clearTimeout).
  revert Hinv'. generalize (set_timers (delete id (timers p)) p). intros q Hq.
  destruct (callback t); simpl; [|done| |].
  - by apply (reachInv_keeps (call ReceiverStop)), traceKept_call.
  - destruct (_ && _).
    + by apply (reachInv_keeps (doPlayerAutoPlay_ env)), traceKept_doPlayerAutoPlay_.
    + by apply (reachInv_keeps (call MediaPlay)), traceKept_call.
  - by apply (reachInv_keeps (doPlayerAutoPlay_ env)), traceKept_doPlayerAutoPlay_.
Qed.

Lemma reachInv_onBuffering_ env p : reachInv p → reachInv (onBuffering_ env p).
Proof.
  intros Hinv. unfold onBuffering_. destruct (_ && _); [|done].
  by apply reachInv_setState_.
Qed.

Lemma reachInv_handle getPath_ env s p :
  reachInv p → reachInv (handle getPath_ env s p).
Proof.
  intros Hinv. destruct s; simpl.
  - by apply reachInv_setState_.
  - apply reachInv_load.
    by apply (reachInv_keeps cancelPlayerAutoPlay_), traceKept_cancelPlayerAutoPlay_.
  - apply reachInv_transition_; [|done].
    by apply (reachInv_keeps cancelPlayerAutoPlay_), traceKept_cancelPlayerAutoPlay_.
  - by apply reachInv_transition_.
  - by apply reachInv_transition_.
  - by apply reachInv_hostOnError.
  - apply reachInv_setState_; [|done].
    by apply (reachInv_keeps cancelPlayerAutoPlay_), traceKept_cancelPlayerAutoPlay_.
  - unfold onPause_. cbv zeta.
    assert (reachInv (cancelPlayerAutoPlay_ p)) as Hc
      by (by apply (reachInv_keeps cancelPlayerAutoPlay_),
               traceKept_cancelPlayerAutoPlay_).
    revert Hc. generalize (cancelPlayerAutoPlay_ p). intros q Hq.
    destruct (match player_ q with Some _ => _ | None => _ end).
    + apply (reachInv_keeps (call _)); [by apply reachInv_setState_|].
      by apply traceKept_call.
    + destruct (_ && _); [by apply reachInv_setState_|done].
  - by apply reachInv_setState_.
  - unfold onProgress_. destruct (_ || _); [by apply reachInv_setState_|done].
  - by apply (reachInv_keeps (onLoadSuccess_ env)), traceKept_onLoadSuccess_.
  - induction (bufferingListeners p) as [|n IH]; simpl; [done|].
    by apply reachInv_onBuffering_.
  - by apply (reachInv_keeps (onVisibilityChanged_ isVisible)),
         traceKept_onVisibilityChanged_.
  - by apply reachInv_fireTimer.
  - by apply reachInv_onTransitionEnd.
  - unfold onImageLoad. destruct (_ !! _); [|done].
    apply reachInv_transition_; [|done].
    by apply (reachInv_keeps (λ q, set_imageLoads _ q)), traceKept_plain.
  - unfold onSenderDisconnected_. destruct (_ && _); [|done].
    by apply (reachInv_keeps (call ReceiverStop)), traceKept_call.
Qed.

Lemma reachInv_constructor env : reachInv (constructor env).
Proof.
  unfold reachInv, appInv, sessionInv, plainInv. split_and!; try done.
  simpl. rewrite insert_empty. by intros id t [_ <-]%lookup_singleton_Some.
Qed.

Lemma reachInv_run getPath_ sigs p :
  reachInv p → reachInv (run getPath_ sigs p).
Proof.
  revert p. induction sigs as [|[env s] sigs IH]; intros p Hinv; simpl; [done|].
  by apply IH, reachInv_handle.
Qed.

(** Property X4.  In every state the player reaches, a string kept in
    [applicationState_] is the one the receiver manager was given last.
    The field can be unset although a string was published: the
    constructor publishes without recording it, and while the field is
    unset [updateApplicationState_] publishes whatever the manager
    holds.  After [updateApplicationState_], whether it published or
    skipped the call, the field is set to the string for the current
    state and media, the manager holds that string, and at most that
    one call was made. *)
Theorem application_state_is_current (getPath_ : string → string)
    (env0 : Env) (sigs : list (Env * Signal)) (env : Env) :
  let p := run getPath_ sigs (constructor env0) in
  let p' := updateApplicationState_ env p in
  let media := if bool_decide (state_ p = IDLE) then None
               else mediaInformation env in
  (∀ s, applicationState_ p = Some s → lastBroadcast (calls p) = Some s) ∧
  (applicationState_ (constructor env0) = None ∧
   lastBroadcast (calls (constructor env0)) = Some (getApplicationState_ None)) ∧
  (applicationState_ p = None →
   calls p' = calls p ++ [SetApplicationState (getApplicationState_ media)]) ∧
  lastBroadcast (calls p') = Some (getApplicationState_ media) ∧
  applicationState_ p' = Some (getApplicationState_ media) ∧
  (calls p' = calls p
   ∨ calls p' = calls p ++ [SetApplicationState (getApplicationState_ media)]).
Proof.
  intros p p' media.
  assert (reachInv p) as ((Hmm & Happ) & _)
    by (subst p; apply reachInv_run, reachInv_constructor).
  split; [done|]. split; [done|].
  subst p'. unfold updateApplicationState_. rewrite Hmm.
  fold media. case_decide as Hne.
  - simpl. rewrite lastBroadcast_snoc. eauto 6.
  - assert (applicationState_ p = Some (getApplicationState_ media)) as Heq
      by (by destruct (decide (applicationState_ p
                               = Some (getApplicationState_ media)))).
    split_and!; [by rewrite Heq|by apply Happ|done|by left].
Qed.

(** Property X5.  In every state the player reaches, the backend
    players were loaded and unloaded in turn: none was loaded while
    another was loaded, none was unloaded twice, and [player_] is the
    player that is loaded now, if any. *)
Theorem backend_players_in_turn (getPath_ : string → string)
    (env0 : Env) (sigs : list (Env * Signal)) :
  let p := run getPath_ sigs (constructor env0) in
  loadedPlayer (calls p) = Some (player_ p).
Proof.
  intros p.
  assert (reachInv p) as (_ & Hsess & _)
    by (subst p; apply reachInv_run, reachInv_constructor).
  exact Hsess.
Qed.

(** Property X6.  The player never enters [STALLED] and never uses the
    delay of [setState_]: in every state it reaches the state is not
    [STALLED], no transition to it waits for a fade, [delay_] is unset
    and no delayed [setState_] is pending; so the 30 seconds of the
    table are never the time of a pending idle timer. *)
Theorem stalled_and_delay_unused (getPath_ : string → string)
    (env0 : Env) (sigs : list (Env * Signal)) :
  let p := run getPath_ sigs (constructor env0) in
  state_ p ≠ STALLED ∧
  Forall (λ f, f ≠ SetStateFn STALLED) (transitionEnd p) ∧
  delay_ p = None ∧
  (∀ id t state crossfade,
     timers p !! id = Some t → callback t ≠ DelayCallback state crossfade) ∧
  (∀ id t, idleTimers p !! id = Some t → delay t ≠ (30 * 1000)%Z).
Proof.
  intros p.
  assert (reachInv p) as (_ & _ & Hst & Hdel & Hqueue & Htim)
    by (subst p; apply reachInv_run, reachInv_constructor).
  assert (idleTimerInv p) as Hidle by (subst p; apply inv_run, inv_constructor).
  split_and!; [done..| |].
  - intros id t state crossfade Hl Hcb. specialize (Htim id t Hl).
    by rewrite Hcb in Htim.
  - intros id t Hl Hd. destruct (Hidle id t Hl) as [_ Ht]. rewrite Hd in Ht.
    destruct (state_ p); try done; vm_compute in Ht; discriminate.
Qed.

(** ** Commands and media signals *)

Lemma calls_updateApplicationState_ env p :
  ∃ published, calls (updateApplicationState_ env p) = calls p ++ published
               ∧ Forall isBroadcast published.
Proof.
  unfold updateApplicationState_. destruct (mediaManager_ p);
    [case_decide|]; try (exists []; by rewrite app_nil_r).
  eexists [_]. split; [done|]. constructor; [by eexists|done].
Qed.

Lemma calls_setIdleTimeout_ o p : calls (setIdleTimeout_ o p) = calls p.
Proof.
  unfold setIdleTimeout_. destruct o as [ms|]; [case_decide|];
    by destruct (idleTimerId_ p).
Qed.

(** A completed transition writes the state attribute and then at most
    publishes the application state. *)
Lemma calls_setState_ env state p :
  ∃ published,
    calls (setState_ env state false None p)
    = calls p ++ ElementSetState state :: published
    ∧ Forall isBroadcast published.
Proof.
  unfold setState_. simpl. rewrite calls_setIdleTimeout_.
  destruct (calls_updateApplicationState_ env
              (call (ElementSetState state)
                 (set_state_ state (clearTimeout (delay_ p) p))))
    as (published & -> & Hpub).
  exists published. split; [|done]. simpl.
  by rewrite calls_clearTimeout, <-app_assoc.
Qed.

Lemma inv_foldl_runSomething env fs p :
  idleTimerInv p → idleTimerInv (foldl (λ p f, runSomething env f p) p fs).
Proof.
  revert p. induction fs as [|f fs IH]; intros p Hinv; simpl; [done|].
  by apply IH, inv_runSomething.
Qed.

Lemma timers_cancelPlayerAutoPlay_ p id :
  playerAutoPlayTimerId_ p = Some id →
  timers (cancelPlayerAutoPlay_ p) !! id = None.
Proof.
  intros Hid. unfold cancelPlayerAutoPlay_. rewrite Hid. simpl.
  apply lookup_delete_eq.
Qed.

Lemma playerAutoPlayTimerId_cancel p :
  playerAutoPlayTimerId_ (cancelPlayerAutoPlay_ p) = None.
Proof.
  unfold cancelPlayerAutoPlay_. by destruct (playerAutoPlayTimerId_ p) eqn:E.
Qed.

Lemma sessionKept_cancelPlayerAutoPlay_ p : sessionKept p (cancelPlayerAutoPlay_ p).
Proof.
  unfold cancelPlayerAutoPlay_.
  destruct (playerAutoPlayTimerId_ p); by apply sessionKept_same.
Qed.

Lemma state_call c p : state_ (call c p) = state_ p.
Proof. done. Qed.

Lemma calls_call c p : calls (call c p) = calls p ++ [c].
Proof. done. Qed.

Lemma rearmedFor_call state c p : rearmedFor state p → rearmedFor state (call c p).
Proof. done. Qed.

Lemma runSomething_StopFn env event q :
  runSomething env (StopFn event) q
  = call (OnStopOrig event) (setState_ env IDLE false None q).
Proof. done. Qed.

Lemma runSomething_LoadingFn env m q :
  runSomething env (LoadingFn m) q
  = call (LoadMetadata m) (setState_ env LOADING false None q).
Proof. done. Qed.

Lemma runSomething_SetStateFn env state q :
  runSomething env (SetStateFn state) q = setState_ env state false None q.
Proof. done. Qed.

(** Property X7.  A stop command cancels the poll that
    [playerAutoPlayTimerId_] names and changes neither the state nor the
    trace at once.  When the fade-out ends the state is set to idle with
    the idle timer of that state, and the original stop handler is
    called last, after the state was written.  The backend player is
    neither unloaded nor cleared by the player itself. *)
Theorem stop_goes_idle (getPath_ : string → string) (env0 : Env)
    (sigs : list (Env * Signal)) (event : ManagerEvent) (env : Env) :
  let p := run getPath_ sigs (constructor env0) in
  let p1 := onStop_ event p in
  let p2 := onTransitionEnd env p1 in
  (playerAutoPlayTimerId_ p1 = None ∧
   (∀ id, playerAutoPlayTimerId_ p = Some id → timers p1 !! id = None) ∧
   state_ p1 = state_ p ∧ calls p1 = calls p) ∧
  state_ p2 = IDLE ∧ rearmedFor IDLE p2 ∧
  (∃ ran published,
     calls p2 = calls p ++ ran ++ ElementSetState IDLE :: published
                ++ [OnStopOrig event]
     ∧ Forall isBroadcast published) ∧
  sessionKept p p2.
Proof.
  intros p p1 p2.
  assert (idleTimerInv p) as Hinv by (subst p; apply inv_run, inv_constructor).
  subst p2 p1. unfold onStop_. split_and!.
  - apply playerAutoPlayTimerId_cancel.
  - intros id Hid. by apply timers_cancelPlayerAutoPlay_.
  - apply state_cancelPlayerAutoPlay_.
  - apply calls_cancelPlayerAutoPlay_.
  - rewrite onTransitionEnd_transition_, runSomething_StopFn.
    rewrite state_call. apply state_setState_.
  - rewrite onTransitionEnd_transition_, runSomething_StopFn.
    match goal with
    | |- context [setState_ env IDLE false None ?q0] => set (q := q0)
    end.
    assert (idleTimerInv q) as Hq.
    { subst q. apply inv_foldl_runSomething.
      by apply (inv_keeps cancelPlayerAutoPlay_), keepsIdle_cancelPlayerAutoPlay_. }
    apply rearmedFor_call.
    exact (proj2 (setState_completes env IDLE q (idleTimerInv_named _ Hq))).
  - rewrite onTransitionEnd_transition_, runSomething_StopFn.
    match goal with
    | |- context [setState_ env IDLE false None ?q0] => set (q := q0)
    end.
    rewrite calls_call.
    destruct (calls_setState_ env IDLE q) as (published & -> & Hpub).
    destruct (sessionKept_foldl env (transitionEnd (cancelPlayerAutoPlay_ p))
                (set_transitionEnd [] (cancelPlayerAutoPlay_ p)))
      as (_ & _ & ran & Hran & _).
    exists ran, published. split; [|done]. fold q in Hran.
    rewrite Hran. simpl.
    rewrite calls_cancelPlayerAutoPlay_. by rewrite <-!app_assoc.
  - eapply sessionKept_trans; [apply sessionKept_cancelPlayerAutoPlay_|].
    eapply sessionKept_trans; [|apply sessionKept_onTransitionEnd].
    by apply sessionKept_same.
Qed.

Lemma timers_clearTimeout_None o p id :
  timers p !! id = None → timers (clearTimeout o p) !! id = None.
Proof.
  intros Hid. destruct o as [i|]; simpl; [|done].
  apply lookup_delete_None. by right.
Qed.

Lemma timers_updateApplicationState_ env p :
  timers (updateApplicationState_ env p) = timers p.
Proof.
  unfold updateApplicationState_. destruct (mediaManager_ p); [|done].
  by case_decide.
Qed.

(** A transition to a state without idle timeout starts no timer. *)
Lemma timers_setState_None env state crossfade p id :
  IDLE_TIMEOUT state = None → timers p !! id = None →
  timers (setState_ env state crossfade None p) !! id = None.
Proof.
  intros Hst Hid. unfold setState_. simpl. destruct crossfade; simpl.
  - by apply timers_clearTimeout_None.
  - rewrite Hst. unfold setIdleTimeout_. apply timers_clearTimeout_None.
    rewrite timers_updateApplicationState_. simpl.
    by apply timers_clearTimeout_None.
Qed.

Lemma playerAutoPlayTimerId_clearTimeout o p :
  playerAutoPlayTimerId_ (clearTimeout o p) = playerAutoPlayTimerId_ p.
Proof. by destruct o. Qed.

Lemma playerAutoPlayTimerId_setState_ env state crossfade p :
  playerAutoPlayTimerId_ (setState_ env state crossfade None p)
  = playerAutoPlayTimerId_ p.
Proof.
  unfold setState_. simpl. destruct crossfade; simpl.
  - apply playerAutoPlayTimerId_clearTimeout.
  - set (q := updateApplicationState_ env _).
    assert (playerAutoPlayTimerId_ q = playerAutoPlayTimerId_ p) as <-.
    { subst q. unfold updateApplicationState_. simpl.
      destruct (mediaManager_ _); [case_decide|]; simpl;
        apply playerAutoPlayTimerId_clearTimeout. }
    unfold setIdleTimeout_. destruct (IDLE_TIMEOUT state) as [ms|];
      [case_decide|]; simpl; apply playerAutoPlayTimerId_clearTimeout.
Qed.

Lemma onBuffering_iter env n p :
  Nat.iter (S n) (onBuffering_ env) p = onBuffering_ env p.
Proof.
  induction n as [|n IH]; [done|].
  change (Nat.iter (S (S n)) (onBuffering_ env) p)
    with (onBuffering_ env (Nat.iter (S n) (onBuffering_ env) p)).
  rewrite IH. unfold onBuffering_ at 2 3.
  destruct (bool_decide (state_ p = PLAYING) && _) eqn:E.
  - unfold onBuffering_. by rewrite state_setState_.
  - unfold onBuffering_. by rewrite E.
Qed.

(** Property X8.  However many buffering listeners the video loads have
    left on the element, a stalled or waiting event has the effect of
    one listener, and of none before the first video load.  It changes
    the player only in the Playing state with a ready state below
    [HAVE_ENOUGH_DATA]; then the state is Buffering and no idle timer is
    pending.  In the Buffering state a further event changes nothing,
    and the next time update sets the state back to Playing, again with
    no idle timer. *)
Theorem waiting_signal (getPath_ : string → string) (env0 : Env)
    (sigs : list (Env * Signal)) (env env' : Env) :
  let p := run getPath_ sigs (constructor env0) in
  let p1 := handle getPath_ env Waiting p in
  let p2 := handle getPath_ env' TimeUpdate p1 in
  p1 = (if bool_decide (bufferingListeners p = 0) then p else onBuffering_ env p) ∧
  (p1 = p ∨
   state_ p = PLAYING ∧ readyState env < HAVE_ENOUGH_DATA ∧ state_ p1 = BUFFERING) ∧
  (state_ p1 = BUFFERING →
   idleTimers p1 = ∅ ∧ handle getPath_ env' Waiting p1 = p1 ∧
   state_ p2 = PLAYING ∧ idleTimers p2 = ∅).
Proof.
  intros p p1 p2.
  assert (idleTimerInv p) as Hinv by (subst p; apply inv_run, inv_constructor).
  assert (idleTimerInv p1) as Hinv1 by (by apply inv_handle).
  assert (p1 = if bool_decide (bufferingListeners p = 0) then p
               else onBuffering_ env p) as Hp1.
  { subst p1. simpl. destruct (bufferingListeners p) as [|n]; [done|].
    by rewrite onBuffering_iter. }
  split_and!; [done|..].
  - rewrite Hp1. case_bool_decide; [by left|].
    unfold onBuffering_.
    destruct (bool_decide (state_ p = PLAYING)) eqn:Hpl; simpl; [|by left].
    destruct (readyState env <? HAVE_ENOUGH_DATA)%nat eqn:Hrs; [|by left].
    right. apply bool_decide_eq_true in Hpl. apply Nat.ltb_lt in Hrs.
    split_and!; [done..|]. apply state_setState_.
  - intros Hst. split_and!.
    + apply map_eq. intros id. rewrite lookup_empty.
      destruct (idleTimers p1 !! id) as [t|] eqn:E; [|done].
      destruct (Hinv1 id t E) as [_ Ht]. by rewrite Hst in Ht.
    + simpl. clear p2. generalize (bufferingListeners p1). intros n.
      induction n as [|n IH]; simpl; [done|].
      rewrite IH. unfold onBuffering_. by rewrite Hst.
    + subst p2. simpl. unfold onProgress_. rewrite Hst. simpl.
      apply state_setState_.
    + subst p2. simpl. unfold onProgress_. rewrite Hst. simpl.
      exact (proj2 (setState_completes env' PLAYING p1 (idleTimerInv_named _ Hinv1))).
Qed.

(** Property X9.  A playing event cancels the poll that
    [playerAutoPlayTimerId_] names.  In the Loading state it only
    requests a fade: the state is Playing when the fade-out ends.  In
    every other state the state is Playing at once.  Once the state is
    Playing no idle timer is pending, and the cancelled poll is still
    gone. *)
Theorem playing_signal (getPath_ : string → string) (env0 : Env)
    (sigs : list (Env * Signal)) (env env' : Env) :
  let p := run getPath_ sigs (constructor env0) in
  let p1 := onPlaying_ env p in
  let p2 := if bool_decide (state_ p = LOADING) then onTransitionEnd env' p1
            else p1 in
  playerAutoPlayTimerId_ p1 = None ∧
  (∀ id, playerAutoPlayTimerId_ p = Some id → timers p1 !! id = None) ∧
  (state_ p = LOADING → state_ p1 = LOADING ∧ calls p1 = calls p) ∧
  state_ p2 = PLAYING ∧ idleTimers p2 = ∅.
Proof.
  intros p p1 p2.
  assert (idleTimerInv p) as Hinv by (subst p; apply inv_run, inv_constructor).
  assert (idleTimerInv p1) as Hinv1 by (apply (inv_handle getPath_ env MediaPlaying), Hinv).
  assert (state_ (cancelPlayerAutoPlay_ p) = state_ p) as Hc
    by apply state_cancelPlayerAutoPlay_.
  split_and!.
  - subst p1. unfold onPlaying_. rewrite playerAutoPlayTimerId_setState_.
    apply playerAutoPlayTimerId_cancel.
  - intros id Hid. subst p1. unfold onPlaying_.
    apply timers_setState_None; [done|].
    by apply timers_cancelPlayerAutoPlay_.
  - intros Hst. subst p1. unfold onPlaying_. rewrite Hc, Hst. simpl.
    unfold setState_. simpl. split.
    + rewrite <-Hst, <-Hc. by destruct (delay_ _).
    + by rewrite calls_clearTimeout, calls_cancelPlayerAutoPlay_.
  - subst p2 p1. unfold onPlaying_. rewrite Hc.
    case_bool_decide; [|apply state_setState_].
    unfold setState_. simpl. rewrite onTransitionEnd_transition_.
    rewrite runSomething_SetStateFn. apply state_setState_.
  - subst p2. case_bool_decide as Hst.
    + subst p1. unfold onPlaying_. rewrite Hc, Hst. simpl.
      unfold setState_ at 1. simpl. rewrite onTransitionEnd_transition_.
      rewrite runSomething_SetStateFn.
      match goal with
      | |- context [setState_ env' PLAYING false None ?q0] => set (q := q0)
      end.
      assert (idleTimerInv q) as Hq.
      { subst q. apply inv_foldl_runSomething.
        apply (inv_keeps (λ x, clearTimeout (delay_ x) x));
          [|apply keepsIdle_clearTimeout].
        by apply (inv_keeps cancelPlayerAutoPlay_), keepsIdle_cancelPlayerAutoPlay_. }
      exact (proj2 (setState_completes env' PLAYING q (idleTimerInv_named _ Hq))).
    + subst p1. unfold onPlaying_. rewrite Hc.
      rewrite bool_decide_eq_false_2 by done.
      set (q := cancelPlayerAutoPlay_ p).
      assert (idleTimerInv q) as Hq
        by (by apply (inv_keeps cancelPlayerAutoPlay_), keepsIdle_cancelPlayerAutoPlay_).
      exact (proj2 (setState_completes env PLAYING q (idleTimerInv_named _ Hq))).
Qed.

(** ** Loading *)

Lemma load_valid getPath_ info p :
  let m := default emptyMedia (media (message info)) in
  Js.truthy (contentId m) = true → getType_ getPath_ m = VIDEO →
  load getPath_ info p
  = preload_ m
      (loadVideo_ getPath_ info
         (setType_ VIDEO (bool_decide (streamType m = Some LIVE))
            (resetMediaElement_ (clearTimeout (idleTimerId_ p) p)))).
Proof. intros m Hid Hty. unfold load. fold m. by rewrite Hid, Hty. Qed.

Lemma timers_load getPath_ info p :
  timers (load getPath_ info p) = timers (clearTimeout (idleTimerId_ p) p).
Proof.
  unfold load, onLoadMetadataError_, preload_, loadVideo_, resetMediaElement_.
  set (q := clearTimeout (idleTimerId_ p) p).
  destruct (negb _); [done|]. case_decide; [done|].
  destruct (getType_ _ _); destruct (Js.truthy (getMediaImageUrl_ _));
    destruct (player_ q); simpl; try done;
    destruct (selectProtocol _ _); done.
Qed.

Lemma idleTimers_load getPath_ info p :
  idleNamed p → idleTimers (load getPath_ info p) = ∅.
Proof.
  intros Hn. unfold idleTimers. rewrite timers_load. by apply idleNamed_clear.
Qed.

(** The immediate effect of a valid load on any player. *)
Lemma valid_load_effect getPath_ info p :
  let m := default emptyMedia (media (message info)) in
  let live := bool_decide (streamType m = Some LIVE) in
  let host f := {| hostUrl := Js.orEmpty (contentId m); protocol := f |} in
  let p1 := load getPath_ info p in
  Js.truthy (contentId m) = true → getType_ getPath_ m = VIDEO →
  state_ p1 = state_ p ∧ type_ p1 = VIDEO ∧
  player_ p1 = host <$> selectProtocol getPath_ m ∧
  calls p1 = calls p ++ match player_ p with Some _ => [PlayerUnload] | None => [] end
             ++ [ElementSetType VIDEO live;
                 match selectProtocol getPath_ m with
                 | Some f => PlayerLoad (host f)
                 | None => OnLoadOrig {| etype := LOAD; data := message info;
                                         eventSenderId := senderId info |}
                 end] ∧
  if Js.truthy (getMediaImageUrl_ m)
  then imageLoads p1 = imageLoads p ++ [m] ∧ transitionEnd p1 = transitionEnd p
  else imageLoads p1 = imageLoads p ∧
       transitionEnd p1 = transitionEnd p ++ [LoadingFn m].
Proof.
  intros m live host p1 Hid Hty.
  split_and!.
  - by destruct (keepsIdle_load getPath_ info p).
  - subst p1. rewrite load_valid by done. fold m.
    unfold preload_, loadVideo_. fold m.
    by destruct (Js.truthy (getMediaImageUrl_ m)), (selectProtocol getPath_ m).
  - subst p1. rewrite load_valid by done. fold m.
    unfold preload_, loadVideo_. fold m.
    destruct (Js.truthy (getMediaImageUrl_ m)), (selectProtocol getPath_ m); simpl.
    all: try done; apply player_resetMediaElement_.
  - subst p1. rewrite load_valid by done. fold m live.
    unfold preload_, loadVideo_, setType_, resetMediaElement_. fold m.
    rewrite player_clearTimeout.
    destruct (Js.truthy (getMediaImageUrl_ m)), (selectProtocol getPath_ m),
      (player_ p); simpl; rewrite calls_clearTimeout;
      by rewrite <-?app_assoc.
  - subst p1. rewrite load_valid by done. fold m live.
    unfold preload_, loadVideo_, setType_, resetMediaElement_. fold m.
    rewrite player_clearTimeout.
    destruct (Js.truthy (getMediaImageUrl_ m)), (selectProtocol getPath_ m),
      (player_ p); simpl; by destruct (idleTimerId_ p).
Qed.

(** Property X10.  A load request with a non-empty content id that is
    classified as video keeps the state, sets the type to video and
    leaves no idle timer pending.  It unloads the backend player in use,
    if there is one, before it writes the type and then either loads a
    new backend player for the selected protocol or, with no protocol,
    calls the original load handler.  The function that enters the
    Loading state is not run: it waits for the artwork when the metadata
    has an image, and for the end of a fade-out otherwise. *)
Theorem valid_load (getPath_ : string → string) (env0 : Env)
    (sigs : list (Env * Signal)) (info : LoadInfo) :
  let p := run getPath_ sigs (constructor env0) in
  let m := default emptyMedia (media (message info)) in
  let live := bool_decide (streamType m = Some LIVE) in
  let host f := {| hostUrl := Js.orEmpty (contentId m); protocol := f |} in
  let p1 := load getPath_ info p in
  Js.truthy (contentId m) = true → getType_ getPath_ m = VIDEO →
  state_ p1 = state_ p ∧ type_ p1 = VIDEO ∧ idleTimers p1 = ∅ ∧
  player_ p1 = host <$> selectProtocol getPath_ m ∧
  calls p1 = calls p ++ match player_ p with Some _ => [PlayerUnload] | None => [] end
             ++ [ElementSetType VIDEO live;
                 match selectProtocol getPath_ m with
                 | Some f => PlayerLoad (host f)
                 | None => OnLoadOrig {| etype := LOAD; data := message info;
                                         eventSenderId := senderId info |}
                 end] ∧
  if Js.truthy (getMediaImageUrl_ m)
  then imageLoads p1 = imageLoads p ++ [m] ∧ transitionEnd p1 = transitionEnd p
  else imageLoads p1 = imageLoads p ∧
       transitionEnd p1 = transitionEnd p ++ [LoadingFn m].
Proof.
  intros p m live host p1 Hid Hty.
  assert (idleTimerInv p) as Hinv by (subst p; apply inv_run, inv_constructor).
  destruct (valid_load_effect getPath_ info p Hid Hty)
    as (Hst & Hty1 & Hpl & Hcalls & Himg).
  split_and!; [done..| |done|done|done].
  by apply idleTimers_load, idleTimerInv_named.
Qed.

Lemma valid_load_witness :
  let p := constructor env0 in
  let p1 := load (λ url, url) hlsLoad p in
  state_ p1 = state_ p ∧ type_ p1 = VIDEO ∧ idleTimers p1 = ∅.
Proof.
  intros p p1.
  destruct (valid_load (λ url, url) env0 [] hlsLoad eq_refl eq_refl)
    as (Hst & Hty & Hidle & _).
  split_and!; [exact Hst|exact Hty|exact Hidle].
Defined.

Lemma player_call c p : player_ (call c p) = player_ p.
Proof. done. Qed.

Lemma type_call c p : type_ (call c p) = type_ p.
Proof. done. Qed.

(** What a function handed to [transition_] finds when the fade-out
    ends: the listeners registered before it have run. *)
Lemma transition_completes env f q :
  idleTimerInv q →
  ∃ q', onTransitionEnd env (transition_ f q) = runSomething env f q'
        ∧ idleTimerInv q' ∧ sessionKept q q'.
Proof.
  intros Hinv. eexists. split; [apply onTransitionEnd_transition_|]. split.
  - by apply inv_foldl_runSomething.
  - eapply sessionKept_trans; [|apply sessionKept_foldl]. by apply sessionKept_same.
Qed.

(** Property X11.  After a valid load the Loading state is entered when
    the fade-out ends that follows the artwork, or that follows the load
    itself when the metadata has no image.  Until the artwork has loaded
    the state is unchanged and no idle timer is pending.  At the end of
    the fade-out the state is Loading with the idle timer of that state,
    the metadata is rendered last, after the state was written, and the
    backend player and the type are those the load has set. *)
Theorem load_reaches_loading (getPath_ : string → string) (env0 : Env)
    (sigs : list (Env * Signal)) (info : LoadInfo) (env : Env) :
  let p := run getPath_ sigs (constructor env0) in
  let m := default emptyMedia (media (message info)) in
  let p1 := load getPath_ info p in
  let p2 := if Js.truthy (getMediaImageUrl_ m)
            then onImageLoad (length (imageLoads p)) p1 else p1 in
  let p3 := onTransitionEnd env p2 in
  Js.truthy (contentId m) = true → getType_ getPath_ m = VIDEO →
  (state_ p2 = state_ p ∧ idleTimers p2 = ∅ ∧ calls p2 = calls p1) ∧
  state_ p3 = LOADING ∧ rearmedFor LOADING p3 ∧
  (∃ ran published,
     calls p3 = calls p1 ++ ran ++ ElementSetState LOADING :: published
                ++ [LoadMetadata m]
     ∧ Forall isBroadcast published) ∧
  player_ p3 = player_ p1 ∧ type_ p3 = VIDEO.
Proof.
  intros p m p1 p2 p3 Hid Hty.
  assert (idleTimerInv p) as Hinv by (subst p; apply inv_run, inv_constructor).
  destruct (valid_load_effect getPath_ info p Hid Hty)
    as (Hst1 & Hty1 & _ & _ & Himg).
  fold m p1 in Hst1, Hty1, Himg.
  assert (idleTimers p1 = ∅) as Hidle1
    by (by apply idleTimers_load, idleTimerInv_named).
  assert (idleTimerInv p1) as Hinv1
    by (by apply (inv_keeps (load getPath_ info)), keepsIdle_load).
  assert (∃ q, p2 = transition_ (LoadingFn m) q ∧ keepsIdle p1 q
               ∧ sessionKept p1 q) as (q & Hp2 & Hkq & Hsq).
  { subst p2. destruct (Js.truthy (getMediaImageUrl_ m)).
    - destruct Himg as [Himg _]. unfold onImageLoad.
      rewrite Himg, lookup_app_r, Nat.sub_diag by done. simpl.
      eexists. split; [done|]. split; [by apply keepsIdle_same|].
      by apply sessionKept_same.
    - subst p1. rewrite load_valid by done. fold m. unfold preload_.
      destruct (Js.truthy (getMediaImageUrl_ m)) eqn:E.
      + destruct Himg as [_ Himg]. exfalso. revert Himg.
        rewrite load_valid by done. fold m. unfold preload_. rewrite E.
        simpl. intros Himg. apply (f_equal length) in Himg.
        rewrite length_app in Himg. simpl in Himg.
        revert Himg. unfold loadVideo_. destruct (selectProtocol _ _); simpl;
          unfold resetMediaElement_; rewrite player_clearTimeout;
          destruct (player_ p), (idleTimerId_ p); simpl; lia.
      + eexists. split; [done|]. split; [by apply keepsIdle_same|].
        by apply sessionKept_same. }
  assert (idleTimerInv q) as Hinvq by (by eapply keepsIdle_inv).
  destruct Hkq as (Hstq & _ & Hidq).
  destruct Hsq as (Hplq & Htyq & extra & Hcq & _).
  destruct (transition_completes env (LoadingFn m) q Hinvq)
    as (q' & Hp3 & Hinv' & Hpl' & Hty' & ran & Hran & _).
  assert (calls p2 = calls q) as Hc2 by (by rewrite Hp2).
  assert (calls q = calls p1) as Hcq1.
  { subst p2. destruct (Js.truthy (getMediaImageUrl_ m)).
    - destruct Himg as [Himg _]. revert Hp2. unfold onImageLoad.
      rewrite Himg, lookup_app_r, Nat.sub_diag by done. simpl.
      intros Hp2. apply (f_equal calls) in Hp2. by simpl in Hp2.
    - apply (f_equal calls) in Hp2. by simpl in Hp2. }
  subst p3. rewrite Hp2, Hp3, runSomething_LoadingFn. split_and!.
  - change (state_ q = state_ p). by rewrite Hstq.
  - apply map_eq. intros id. rewrite lookup_empty.
    destruct (idleTimers (transition_ (LoadingFn m) q) !! id) as [t|] eqn:E;
      [|done].
    change (idleTimers q !! id = Some t) in E. apply Hidq in E.
    by rewrite Hidle1 in E.
  - exact Hcq1.
  - rewrite state_call. apply state_setState_.
  - apply rearmedFor_call.
    exact (proj2 (setState_completes env LOADING q' (idleTimerInv_named _ Hinv'))).
  - rewrite calls_call.
    destruct (calls_setState_ env LOADING q') as (published & -> & Hpub).
    exists ran, published. split; [|done]. rewrite Hran, Hcq1.
    by rewrite <-!app_assoc.
  - rewrite player_call.
    destruct (sessionKept_runSomething env (SetStateFn LOADING) q') as (Hpl & _).
    rewrite runSomething_SetStateFn in Hpl. by rewrite Hpl, Hpl', Hplq.
  - rewrite type_call.
    destruct (sessionKept_runSomething env (SetStateFn LOADING) q') as (_ & Ht & _).
    rewrite runSomething_SetStateFn in Ht. by rewrite Ht, Hty', Htyq.
Qed.

Lemma load_reaches_loading_witness :
  let p := run (λ url, url) [] (constructor env0) in
  let p1 := load (λ url, url) hlsLoad p in
  let p3 := onTransitionEnd env0 p1 in
  state_ p3 = LOADING ∧ player_ p3 = player_ p1.
Proof.
  intros p p1 p3.
  pose proof (load_reaches_loading (λ url, url) env0 [] hlsLoad env0
                eq_refl eq_refl) as H.
  cbv zeta in H.
  change (Js.truthy (getMediaImageUrl_ (default emptyMedia (media (message hlsLoad)))))
    with false in H.
  cbv iota in H.
  destruct H as (_ & Hst & _ & _ & Hpl & _).
  split; [exact Hst|exact Hpl].
Defined.

(** ** Where the state is written *)

(** Property X12.  In a player made by the constructor and driven by
    signals, a load or stop command, an error, the end of the media, the
    loaded metadata, a visibility change, an expired timer, a loaded
    image and the disconnection of a sender never change the state at
    once: the state is written only by
    the ready, playing, pause, time update and waiting handlers and at
    the end of a fade-out. *)
Theorem state_written_only_by (getPath_ : string → string) (env0 : Env)
    (sigs : list (Env * Signal)) (env : Env) (s : Signal) :
  let p := run getPath_ sigs (constructor env0) in
  writesState s = false →
  state_ (handle getPath_ env s p) = state_ p.
Proof.
  intros p Hs.
  assert (reachInv p) as (_ & _ & _ & _ & _ & Hnd)
    by (subst p; apply reachInv_run, reachInv_constructor).
  destruct s; try discriminate Hs; simpl.
  - by destruct (keepsIdle_onLoad_ getPath_ event p).
  - by destruct (keepsIdle_onStop_ event p).
  - done.
  - done.
  - by destruct (keepsIdle_hostOnError p).
  - unfold onEnded_, setState_. simpl. by destruct (delay_ p).
  - by destruct (keepsIdle_onLoadSuccess_ env p).
  - by destruct (keepsIdle_onVisibilityChanged_ isVisible p).
  - unfold fireTimer. destruct (timers p !! id) as [t|] eqn:Ht; [|done].
    specialize (Hnd id t Ht). set (q := set_timers _ p).
    destruct (callback t); simpl; [done|done| |].
    + destruct (_ && _); [|done].
      by destruct (keepsIdle_doPlayerAutoPlay_ env q).
    + by destruct (keepsIdle_doPlayerAutoPlay_ env q).
  - by destruct (keepsIdle_onImageLoad i p).
  - by destruct (keepsIdle_onSenderDisconnected_ senders event p).
Qed.

Lemma state_written_only_by_witness :
  state_ (handle (λ url, url) env0 (SenderLoad loadEvent) (constructor env0))
  = state_ (constructor env0).
Proof. exact (state_written_only_by (λ url, url) env0 [] env0 (SenderLoad loadEvent) eq_refl). Defined.

(** ** The type test of [load] against the protocol choice of [loadVideo_] *)

(** Property X13.  The only media for which [loadVideo_] would select
    a protocol and which [getType_] classifies as unknown are those it
    would play with Smooth Streaming because their path includes
    [.ism].  Conversely, when the path includes
    [.ism], no content type is given and the extension is none of m3u8,
    mp4, ogv, webm and mpd, Smooth Streaming would be selected, but the
    type is unknown and [load] only reports a metadata error. *)
Theorem smooth_by_path_needs_type (getPath_ : string → string)
    (m : MediaInformation) :
  let path := getPath_ (Js.orEmpty (contentId m)) in
  (∀ f, selectProtocol getPath_ m = Some f → getType_ getPath_ m = UNKNOWN →
        f = CreateSmoothStreamingProtocol ∧ Js.includes path ".ism") ∧
  (Js.includes path ".ism" → Js.orEmpty (contentType m) = "" →
   getExtension_ path ∉ ["m3u8"; "mp4"; "ogv"; "webm"; "mpd"] →
   selectProtocol getPath_ m = Some CreateSmoothStreamingProtocol ∧
   getType_ getPath_ m = UNKNOWN ∧
   ∀ info p, media (message info) = Some m →
     load getPath_ info p
     = onLoadMetadataError_ info (clearTimeout (idleTimerId_ p) p)).
Proof.
  intros path.
  pose proof (indexOf_includes path ".ism" ltac:(done)) as Hism.
  unfold selectProtocol, getType_, protocolFunc. fold path.
  set (type := Js.orEmpty (contentType m)). split.
  - intros f Hf Hty.
    repeat case_decide; simplify_eq; try tauto;
      match goal with
      | H : ?t = _, Hn : Js.indexOf ?t _ ≠ 0%Z |- _ =>
          exfalso; apply Hn; rewrite H; reflexivity
      end.
  - intros Hinc Htype Hext. apply Hism in Hinc.
    assert (getType_ getPath_ m = UNKNOWN) as Hunk.
    { unfold getType_. fold path type. rewrite Htype.
      repeat case_decide; try done;
        try (match goal with
             | H : Js.indexOf "" _ = 0%Z |- _ => by vm_compute in H
             end);
        exfalso; apply Hext;
        match goal with H : getExtension_ path = _ |- _ => rewrite H end;
        apply list_elem_of_In; simpl; tauto. }
    split_and!.
    + rewrite Htype. repeat case_decide; try done;
        exfalso; apply Hext;
        match goal with H : getExtension_ path = _ |- _ => rewrite H end;
        apply list_elem_of_In; simpl; tauto.
    + exact Hunk.
    + intros info p Hm. apply load_invalid. right. by rewrite Hm.
Qed.

Lemma smooth_by_path_needs_type_witness :
  let m := {| contentId := Some "/video/a.ism/Manifest"; contentType := None;
              streamType := None; metadata := None |} in
  selectProtocol (λ url, url) m = Some CreateSmoothStreamingProtocol ∧
  getType_ (λ url, url) m = UNKNOWN.
Proof.
  intros m.
  destruct (smooth_by_path_needs_type (λ url, url) m) as [_ H].
  destruct H as (Hsel & Hty & _).
  - by exists "/video/a", "/Manifest".
  - reflexivity.
  - vm_compute. intros H. apply list_elem_of_In in H. simpl in H.
    destruct H as [H|[H|[H|[H|[H|[]]]]]]; discriminate H.
  - split; [exact Hsel|exact Hty].
Defined.

(** ** The status reported to senders *)

(** Property X14.  When the media pauses because the backend player
    reports an underflow, the state is Buffering and the last call
    broadcasts the status without the media.  A status built while the
    player is in that state is never reported as paused: a paused player
    state is replaced by buffering, every other player state and all
    other fields are reported as they are, and applying the callback
    again changes nothing. *)
Theorem underflow_reported_as_buffering {Rest : Type} (env : Env)
    (p : CastPlayer) (mediaStatus : MediaStatus Rest) :
  is_Some (player_ p) → underflow env = true →
  let p' := onPause_ env p in
  let reported := customizedStatusCallback_ p' mediaStatus in
  state_ p' = BUFFERING ∧ last (calls p') = Some (BroadcastStatus false) ∧
  playerState reported
  = (if decide (playerState mediaStatus = PS_PAUSED) then PS_BUFFERING
     else playerState mediaStatus) ∧
  playerState reported ≠ PS_PAUSED ∧
  otherFields reported = otherFields mediaStatus ∧
  customizedStatusCallback_ p' reported = reported.
Proof.
  intros [h Hh] Hu p' reported.
  assert (p' = call (BroadcastStatus false)
                 (setState_ env BUFFERING false None (cancelPlayerAutoPlay_ p)))
    as Hp'.
  { subst p'. unfold onPause_. by rewrite player_cancelPlayerAutoPlay_, Hh, Hu. }
  assert (state_ p' = BUFFERING) as Hst
    by (rewrite Hp', state_call; apply state_setState_).
  subst reported. unfold customizedStatusCallback_. rewrite Hst.
  rewrite (bool_decide_eq_true_2 (BUFFERING = BUFFERING)) by done.
  rewrite !andb_true_r.
  split_and!; [done|by rewrite Hp', calls_call, last_snoc|..];
    destruct mediaStatus as [[] rest]; done.
Qed.

Lemma underflow_reported_as_buffering_witness :
  let env := {| currentTime := Num.ofZ 7; duration := Num.ofZ 60; buffered := [];
                readyState := 2; underflow := true; mediaInformation := None |} in
  let p' := onPause_ env probing in
  state_ p' = BUFFERING ∧
  playerState (customizedStatusCallback_ p'
                 {| playerState := PS_PAUSED; otherFields := 1%Z |}) = PS_BUFFERING.
Proof.
  intros env p'.
  assert (is_Some (player_ probing)) as Hpl by (vm_compute; eauto).
  destruct (underflow_reported_as_buffering env probing
              {| playerState := PS_PAUSED; otherFields := 1%Z |} Hpl eq_refl)
    as (Hst & _ & Hrep & _).
  split; [exact Hst|exact Hrep].
Defined.

(** ** The end of the media *)

(** Property X15.  The ended event changes neither the state nor the
    trace at once; it requests a fade, and when the fade-out ends the
    state is Done with the idle timer of that state, written after the
    functions that were already waiting have run.  The backend player is
    not unloaded. *)
Theorem ended_goes_done (getPath_ : string → string) (env0 : Env)
    (sigs : list (Env * Signal)) (env env' : Env) :
  let p := run getPath_ sigs (constructor env0) in
  let p1 := onEnded_ env p in
  let p2 := onTransitionEnd env' p1 in
  state_ p1 = state_ p ∧ calls p1 = calls p ∧
  transitionEnd p1 = transitionEnd p ++ [SetStateFn DONE] ∧
  state_ p2 = DONE ∧ rearmedFor DONE p2 ∧
  (∃ ran published,
     calls p2 = calls p ++ ran ++ ElementSetState DONE :: published
     ∧ Forall isBroadcast published) ∧
  player_ p2 = player_ p.
Proof.
  intros p p1 p2.
  assert (idleTimerInv p) as Hinv by (subst p; apply inv_run, inv_constructor).
  assert (p1 = transition_ (SetStateFn DONE) (clearTimeout (delay_ p) p)) as Hp1
    by done.
  assert (idleTimerInv (clearTimeout (delay_ p) p)) as Hinvc
    by (by apply (inv_keeps (clearTimeout (delay_ p))), keepsIdle_clearTimeout).
  destruct (transition_completes env' (SetStateFn DONE) _ Hinvc)
    as (q' & Hp2 & Hinv' & Hpl' & _ & ran & Hran & _).
  subst p2. rewrite Hp1, Hp2, runSomething_SetStateFn. split_and!.
  - by destruct (delay_ p).
  - simpl. apply calls_clearTimeout.
  - simpl. by destruct (delay_ p).
  - apply state_setState_.
  - exact (proj2 (setState_completes env' DONE q' (idleTimerInv_named _ Hinv'))).
  - destruct (calls_setState_ env' DONE q') as (published & -> & Hpub).
    exists ran, published. split; [|done].
    by rewrite Hran, calls_clearTimeout, <-app_assoc.
  - destruct (sessionKept_runSomething env' (SetStateFn DONE) q') as (Hpl & _).
    rewrite runSomething_SetStateFn in Hpl.
    by rewrite Hpl, Hpl', player_clearTimeout.
Qed.

(** ** The seeking indicator *)

Lemma seekInv_cleared u :
  seekInv u → classTimers (clearClassTimer (seekingTimeoutId_ u) u) = ∅.
Proof.
  intros [Hn _]. apply map_eq. intros i. rewrite lookup_empty.
  destruct (classTimers _ !! i) as [d|] eqn:E; [exfalso|done].
  destruct (seekingTimeoutId_ u) as [j|] eqn:Hj; simpl in E.
  - apply lookup_delete_Some in E as [Hne E].
    destruct (Hn i d E) as [Hi _]. congruence.
  - destruct (Hn i d E) as [Hi _]. congruence.
Qed.

Lemma seekingTimeoutId_clear o u :
  seekingTimeoutId_ (clearClassTimer o u) = seekingTimeoutId_ u.
Proof. by destruct o. Qed.

Lemma nextClassTimerId_clear o u :
  nextClassTimerId (clearClassTimer o u) = nextClassTimerId u.
Proof. by destruct o. Qed.

Lemma seekInv_onSeekStart_ u : seekInv u → seekInv (onSeekStart_ u).
Proof.
  intros Hinv. pose proof (seekInv_cleared u Hinv) as Hc.
  destruct Hinv as [_ Hlt]. unfold onSeekStart_. split; simpl.
  - intros id d. rewrite Hc. by rewrite lookup_empty.
  - intros id. rewrite seekingTimeoutId_clear, nextClassTimerId_clear. apply Hlt.
Qed.

Lemma onSeekEnd_timers u :
  seekInv u →
  seekingTimeoutId_ (onSeekEnd_ u) = Some (nextClassTimerId u) ∧
  classTimers (onSeekEnd_ u) = {[ nextClassTimerId u := 3000%Z ]} ∧
  nextClassTimerId (onSeekEnd_ u) = Pos.succ (nextClassTimerId u) ∧
  seeking (onSeekEnd_ u) = true.
Proof.
  intros Hinv. pose proof (seekInv_cleared u Hinv) as Hc.
  unfold onSeekEnd_, addClassWithTimeout_. simpl.
  by rewrite Hc, nextClassTimerId_clear, insert_empty.
Qed.

Lemma seekInv_onSeekEnd_ u : seekInv u → seekInv (onSeekEnd_ u).
Proof.
  intros Hinv. destruct (onSeekEnd_timers u Hinv) as (Hid & Ht & Hn & Hs).
  split.
  - intros id d. rewrite Ht, Hid, Hs. by intros [<- <-]%lookup_singleton_Some.
  - intros id. rewrite Hid, Hn. intros [= <-]. lia.
Qed.

Lemma seekInv_classTimerFired id u : seekInv u → seekInv (classTimerFired id u).
Proof.
  intros [Hn Hlt]. unfold classTimerFired.
  destruct (classTimers u !! id) as [d|] eqn:E; [|done].
  destruct (Hn id d E) as (Hid & _). split; simpl; [|done].
  intros i d' [Hne Hi]%lookup_delete_Some.
  destruct (Hn i d' Hi) as (Hid' & _). congruence.
Qed.

Lemma seekInv_seekRun sigs u : seekInv u → seekInv (seekRun sigs u).
Proof.
  revert u. induction sigs as [|s sigs IH]; intros u Hinv; simpl; [done|].
  apply IH. destruct s; simpl;
    [by apply seekInv_onSeekStart_|by apply seekInv_onSeekEnd_|
     by apply seekInv_classTimerFired].
Qed.

(** Property X16.  Whatever seeking and seeked events and timer expiries
    have occurred, at most one timer that removes the seeking indicator
    is pending; it is the one [seekingTimeoutId_] names, runs for 3000 ms
    and the indicator is shown while it is pending.  A seeking event
    shows the indicator and leaves no removal pending, so the indicator
    stays for as long as the seek lasts.  A seeked event shows the
    indicator and leaves exactly one removal pending, a new timer of
    3000 ms.  The indicator is hidden only by the expiry of the timer
    that [seekingTimeoutId_] names. *)
Theorem seeking_indicator (shown : bool) (sigs : list SeekSignal) :
  let u := seekRun sigs (seekInit shown) in
  (∀ id d, classTimers u !! id = Some d →
     seekingTimeoutId_ u = Some id ∧ d = 3000%Z ∧ seeking u = true) ∧
  size (classTimers u) ≤ 1 ∧
  (seeking (onSeekStart_ u) = true ∧ classTimers (onSeekStart_ u) = ∅) ∧
  (seeking (onSeekEnd_ u) = true ∧
   ∃ id, seekingTimeoutId_ (onSeekEnd_ u) = Some id ∧
         classTimers (onSeekEnd_ u) = {[ id := 3000%Z ]} ∧
         classTimers u !! id = None ∧ seekingTimeoutId_ u ≠ Some id) ∧
  (∀ id, seeking u = true → seeking (classTimerFired id u) = false →
         seekingTimeoutId_ u = Some id ∧ classTimers (classTimerFired id u) = ∅).
Proof.
  intros u.
  assert (seekInv u) as Hinv.
  { subst u. apply seekInv_seekRun. split; simpl; [|done].
    intros id d. by rewrite lookup_empty. }
  pose proof Hinv as [Hn Hlt]. split_and!.
  - exact Hn.
  - destruct (seekingTimeoutId_ u) as [j|] eqn:Hj.
    + assert (classTimers u ⊆ {[ j := 3000%Z ]}) as Hsub.
      { apply map_subseteq_spec. intros i d Hi.
        destruct (Hn i d Hi) as (Hij & -> & _).
        apply lookup_singleton_Some. split; congruence. }
      apply map_subseteq_size in Hsub. by rewrite map_size_singleton in Hsub.
    + assert (classTimers u = ∅) as ->; [|by rewrite map_size_empty; lia].
      apply map_eq. intros i. rewrite lookup_empty.
      destruct (classTimers u !! i) as [d|] eqn:E; [|done].
      by destruct (Hn i d E) as (? & _).
  - done.
  - unfold onSeekStart_. simpl. by apply seekInv_cleared.
  - by destruct (onSeekEnd_timers u Hinv) as (_ & _ & _ & ?).
  - destruct (onSeekEnd_timers u Hinv) as (Hid & Ht & _).
    exists (nextClassTimerId u). split_and!; [done|done| |].
    + destruct (classTimers u !! nextClassTimerId u) as [d|] eqn:E; [|done].
      destruct (Hn _ d E) as (Hnamed & _). apply Hlt in Hnamed. lia.
    + intros Hnamed. apply Hlt in Hnamed. lia.
  - intros id Hs Hf. unfold classTimerFired in *.
    destruct (classTimers u !! id) as [d|] eqn:E; [|congruence].
    destruct (Hn id d E) as (Hid & _). split; [done|]. simpl.
    apply map_eq. intros i. rewrite lookup_empty.
    destruct (delete id (classTimers u) !! i) as [d'|] eqn:E'; [|done].
    apply lookup_delete_Some in E' as [Hne Hi].
    destruct (Hn i d' Hi) as (Hid' & _). congruence.
Qed.

(** ** Stopping the receiver *)

Lemma noStop_refl p : noStop p p.
Proof. exists []. split; [by rewrite app_nil_r|]. by intros ?%elem_of_nil. Qed.

Lemma noStop_same p q q' : noStop p q → calls q' = calls q → noStop p q'.
Proof. intros (extra & Hc & Hn) Hq. exists extra. by rewrite Hq. Qed.

Lemma noStop_call c p q : noStop p q → c ≠ ReceiverStop → noStop p (call c q).
Proof.
  intros (extra & Hc & Hn) Hne. exists (extra ++ [c]). split.
  - by rewrite calls_call, Hc, <-app_assoc.
  - intros [?|Hin]%elem_of_app; [done|].
    apply list_elem_of_In in Hin. simpl in Hin. by destruct Hin as [Hin|[]].
Qed.

Lemma noStop_broadcasts p q q' published :
  noStop p q → calls q' = calls q ++ published → Forall isBroadcast published →
  noStop p q'.
Proof.
  intros (extra & Hc & Hn) Hq Hpub. exists (extra ++ published). split.
  - by rewrite Hq, Hc, <-app_assoc.
  - intros [?|Hin]%elem_of_app; [done|].
    rewrite Forall_forall in Hpub. by destruct (Hpub _ Hin).
Qed.

Lemma noStop_setState_ env state crossfade p q :
  noStop p q → noStop p (setState_ env state crossfade None q).
Proof.
  intros Hq. destruct crossfade.
  - eapply noStop_same; [exact Hq|].
    unfold setState_. simpl. apply calls_clearTimeout.
  - destruct (calls_setState_ env state q) as (published & Hc & Hpub).
    eapply (noStop_broadcasts p (call (ElementSetState state) q));
      [by apply noStop_call| |exact Hpub].
    by rewrite Hc, calls_call, <-app_assoc.
Qed.

Lemma noStop_cancelPlayerAutoPlay_ p q :
  noStop p q → noStop p (cancelPlayerAutoPlay_ q).
Proof. intros Hq. eapply noStop_same; [exact Hq|apply calls_cancelPlayerAutoPlay_]. Qed.

Lemma noStop_transition_ f p q : noStop p q → noStop p (transition_ f q).
Proof. intros Hq. by eapply noStop_same. Qed.

Lemma noStop_hostOnError p q : noStop p q → noStop p (hostOnError q).
Proof.
  intros Hq. unfold hostOnError. destruct (player_ q); [|done].
  unfold onError_. apply noStop_transition_.
  eapply noStop_same; [apply (noStop_call PlayerUnload p q Hq); done|done].
Qed.

Lemma noStop_clearTimeout id p q : noStop p q → noStop p (clearTimeout id q).
Proof. intros Hq. eapply noStop_same; [exact Hq|apply calls_clearTimeout]. Qed.

Lemma noStop_resetMediaElement_ p q : noStop p q → noStop p (resetMediaElement_ q).
Proof.
  intros Hq. unfold resetMediaElement_. destruct (player_ q); [|done].
  eapply noStop_same; [apply (noStop_call PlayerUnload p q Hq); done|done].
Qed.

Lemma noStop_setType_ type live p q : noStop p q → noStop p (setType_ type live q).
Proof.
  intros Hq. unfold setType_.
  eapply noStop_same; [apply (noStop_call (ElementSetType type live) p q Hq); done|done].
Qed.

Lemma noStop_loadVideo_ getPath_ info p q :
  noStop p q → noStop p (loadVideo_ getPath_ info q).
Proof.
  intros Hq. unfold loadVideo_. destruct (selectProtocol _ _) as [f|].
  - eapply noStop_same; [eapply (noStop_call (PlayerLoad _) p q Hq); done|done].
  - eapply noStop_same; [eapply (noStop_call (OnLoadOrig _) p q Hq); done|done].
Qed.

Lemma noStop_preload_ m p q : noStop p q → noStop p (preload_ m q).
Proof. intros Hq. unfold preload_. destruct (Js.truthy _); by eapply noStop_same. Qed.

Lemma noStop_load getPath_ info p q : noStop p q → noStop p (load getPath_ info q).
Proof.
  intros Hq. unfold load.
  pose proof (noStop_clearTimeout (idleTimerId_ q) p q Hq) as Hc.
  destruct (negb _); [by apply noStop_transition_|].
  case_decide; [by apply noStop_transition_|].
  apply noStop_preload_.
  destruct (getType_ _ _).
  - by apply noStop_loadVideo_, noStop_setType_, noStop_resetMediaElement_.
  - by apply noStop_setType_, noStop_resetMediaElement_.
Qed.

Lemma noStop_doPlayerAutoPlay_ env p q :
  noStop p q → noStop p (doPlayerAutoPlay_ env q).
Proof.
  intros Hq. unfold doPlayerAutoPlay_. destruct (Num.ge _ _).
  - eapply noStop_same; [apply (noStop_call MediaPlay _ _ Hq); done|done].
  - by eapply noStop_same.
Qed.

Lemma noStop_runSomething env f p q : noStop p q → noStop p (runSomething env f q).
Proof.
  intros Hq. destruct f; simpl runSomething;
    [by apply noStop_setState_|..];
    (apply noStop_call; [by apply noStop_setState_|done]).
Qed.

Lemma noStop_foldl env fs p q :
  noStop p q → noStop p (foldl (λ p f, runSomething env f p) q fs).
Proof.
  revert q. induction fs as [|f fs IH]; intros q Hq; simpl foldl; [done|].
  by apply IH, noStop_runSomething.
Qed.

Lemma noStop_onBuffering_ env p q : noStop p q → noStop p (onBuffering_ env q).
Proof.
  intros Hq. unfold onBuffering_. destruct (_ && _); [|done].
  by apply noStop_setState_.
Qed.

(** No handler but the expiry of a timer and the disconnection of a
    sender stops the receiver. *)
Lemma noStop_handle getPath_ env s p :
  (∀ id, s ≠ TimerFired id) →
  (∀ senders event, s ≠ SenderDisconnected senders event) →
  noStop p (handle getPath_ env s p).
Proof.
  intros Hs Hd. pose proof (noStop_refl p) as Hp. destruct s; simpl handle.
  - by apply noStop_setState_.
  - by apply noStop_load, noStop_cancelPlayerAutoPlay_.
  - by apply noStop_transition_, noStop_cancelPlayerAutoPlay_.
  - by apply noStop_transition_.
  - by apply noStop_transition_.
  - by apply noStop_hostOnError.
  - by apply noStop_setState_, noStop_cancelPlayerAutoPlay_.
  - unfold onPause_.
    pose proof (noStop_cancelPlayerAutoPlay_ p p Hp) as Hc.
    destruct (match player_ _ with Some _ => _ | None => _ end).
    + apply noStop_call; [by apply noStop_setState_|done].
    + destruct (_ && _); [by apply noStop_setState_|done].
  - by apply noStop_setState_.
  - unfold onProgress_. destruct (_ || _); [by apply noStop_setState_|done].
  - unfold onLoadSuccess_. destruct (player_ p); [|done].
    destruct (playerAutoPlay_ p); [|done]. by eapply noStop_same.
  - generalize (bufferingListeners p). intros n.
    induction n as [|n IH]; simpl; [done|]. by apply noStop_onBuffering_.
  - unfold onVisibilityChanged_. destruct (negb _); [|done].
    apply noStop_call; [by apply noStop_call|done].
  - by destruct (Hs id).
  - unfold onTransitionEnd. apply noStop_foldl. by eapply noStop_same.
  - unfold onImageLoad. destruct (_ !! _); [|done]. by eapply noStop_same.
  - by destruct (Hd senders event).
Qed.

(** Property X17.  From one signal to the next the trace only grows,
    and the receiver is stopped by two events only.  One is the expiry
    of the idle timer that [idleTimerId_] names, whose delay is the idle
    timeout of the current state; it cannot happen in the Playing or
    Buffering state.  The other is the disconnection of a sender at its
    own request when no sender is left, which stops the receiver in
    every state.  Either makes no other call. *)
Theorem receiver_stop_causes (getPath_ : string → string)
    (env0 : Env) (sigs : list (Env * Signal)) (env : Env) (s : Signal) :
  let p := run getPath_ sigs (constructor env0) in
  let p' := handle getPath_ env s p in
  (∃ extra, calls p' = calls p ++ extra ∧
     (ReceiverStop ∈ extra →
      extra = [ReceiverStop] ∧
      ((∃ id ms, s = TimerFired id ∧ idleTimerId_ p = Some id ∧
                 IDLE_TIMEOUT (state_ p) = Some ms ∧
                 timers p !! id
                 = Some {| delay := ms; callback := IdleCallback |} ∧
                 state_ p ≠ PLAYING ∧ state_ p ≠ BUFFERING)
       ∨ (∃ event, s = SenderDisconnected [] event ∧
                   reason event = DisconnectReason.REQUESTED_BY_SENDER)))) ∧
  (∀ event, reason event = DisconnectReason.REQUESTED_BY_SENDER →
     calls (handle getPath_ env (SenderDisconnected [] event) p)
     = calls p ++ [ReceiverStop]).
Proof.
  intros p p'.
  assert (idleTimerInv p) as Hinv by (subst p; apply inv_run, inv_constructor).
  split; [|by intros event Hr; simpl; unfold onSenderDisconnected_; rewrite Hr].
  set (cause extra :=
         extra = [ReceiverStop] ∧
         ((∃ id ms, s = TimerFired id ∧ idleTimerId_ p = Some id ∧
                    IDLE_TIMEOUT (state_ p) = Some ms ∧
                    timers p !! id
                    = Some {| delay := ms; callback := IdleCallback |} ∧
                    state_ p ≠ PLAYING ∧ state_ p ≠ BUFFERING)
          ∨ (∃ event, s = SenderDisconnected [] event ∧
                      reason event = DisconnectReason.REQUESTED_BY_SENDER))).
  assert (∀ q, noStop p q →
            ∃ extra, calls q = calls p ++ extra ∧ (ReceiverStop ∈ extra → cause extra))
    as Hquiet.
  { intros q (extra & Hc & Hn). by exists extra. }
  assert ((∃ id, s = TimerFired id)
          ∨ (∃ senders event, s = SenderDisconnected senders event)
          ∨ (∀ id, s ≠ TimerFired id)
            ∧ ∀ senders event, s ≠ SenderDisconnected senders event)
    as [[id ->]|[(senders & event & ->)|[Hno Hnd]]]
    by (destruct s; eauto).
  - subst p'. simpl handle. unfold fireTimer.
    destruct (timers p !! id) as [t|] eqn:Ht; [|apply Hquiet, noStop_refl].
    set (q := set_timers _ p).
    assert (noStop p q) as Hq by (by eapply noStop_same; [apply noStop_refl|]).
    destruct t as [ms cb]. simpl callback. destruct cb; simpl runTimerCallback.
    + exists [ReceiverStop]. split; [done|]. intros _.
      assert (idleTimers p !! id = Some {| delay := ms; callback := IdleCallback |})
        as Hidle by (by apply idleTimers_lookup).
      destruct (Hinv _ _ Hidle) as [Hnamed Hms]. simpl in Hms.
      split; [done|]. left. exists id, ms.
      split_and!; [done..|by intros E; rewrite E in Hms
                         |by intros E; rewrite E in Hms].
    + by apply Hquiet, noStop_setState_.
    + destruct (_ && _); [by apply Hquiet, noStop_doPlayerAutoPlay_|].
      by apply Hquiet, noStop_call.
    + by apply Hquiet, noStop_doPlayerAutoPlay_.
  - subst p'. simpl handle. unfold onSenderDisconnected_.
    destruct (bool_decide (length senders = 0%nat)) eqn:Hlen;
      [|apply Hquiet, noStop_refl].
    destruct (bool_decide (reason event = _)) eqn:Hreason;
      [|apply Hquiet, noStop_refl].
    apply bool_decide_eq_true in Hlen, Hreason.
    destruct senders; [|done].
    exists [ReceiverStop]. split; [done|]. intros _.
    split; [done|]. right. by exists event.
  - by apply Hquiet, noStop_handle.
Qed.
